(** * TableColumn: a typed column of a table structure

    A shallow embedding of [lib/Core/TableColumn.js].  The column code is
    plain JavaScript over three kinds of data, and the development keeps
    them apart:

    - [JS]: ECMAScript values and the built-ins the column code calls
      ([Number], [parseInt], [isNaN], [Math.min], [indexOf], ...).  JavaScript
      numbers are IEEE-754 doubles and are modelled by Rocq's primitive
      floats, so that arithmetic on cells rounds exactly as it does in the
      browser.
    - [Cesium]: the part of the Cesium library the column code uses
      ([JulianDate], [TimeInterval], [TimeIntervalCollection],
      [DataSourceClock]).  A [JulianDate] is a whole day number and a number
      of seconds of that day in TAI, a double; its arithmetic is that of
      Cesium, on doubles.
    - the column itself: a record of the fields the constructor assigns, and
      one function per function of the source file. *)

From Stdlib Require Import ZArith QArith Qround Qpower Lia Lqa List Bool Ascii String.
From Stdlib Require Import Sorting.Sorted Sorting.Permutation SetoidList.
From Stdlib Require Import Floats.PrimFloat Floats.SpecFloat Floats.FloatOps.
From Stdlib Require Floats.FloatAxioms.
From Stdlib Require Import DecimalString.
Import ListNotations.

Set Implicit Arguments.

(** A decimal literal stands for the double nearest to it, as in
    JavaScript. *)
Set Warnings "-inexact-float".

Open Scope string_scope.
Open Scope list_scope.
Open Scope Z_scope.

(* ================================================================== *)
(** * Outcomes of code that may throw *)
(* ================================================================== *)

Inductive error : Type :=
  | DeveloperError (message : string)
  | TypeError.

Inductive result (A : Type) : Type :=
  | Ok (a : A)
  | Throw (e : error).

Arguments Ok {A} a.
Arguments Throw {A} e.

Definition bind {A B : Type} (r : result A) (k : A -> result B) : result B :=
  match r with
  | Ok a => k a
  | Throw e => Throw e
  end.

Notation "x <- r ;; k" := (bind r (fun x => k))
  (at level 61, r at next level, right associativity).

(** [try { ... } catch (err) { ... }] where the handler swallows the error. *)
Definition catch {A : Type} (r : result A) (handler : A) : A :=
  match r with
  | Ok a => a
  | Throw _ => handler
  end.

(** [Array.prototype.map] with a callback that may throw: the first throw
    aborts the whole call. *)
Fixpoint mapM {A B : Type} (f : A -> result B) (l : list A) : result (list B) :=
  match l with
  | [] => Ok []
  | x :: l' => y <- f x ;; ys <- mapM f l' ;; Ok (y :: ys)
  end.

(* ================================================================== *)
(** * ECMAScript values and built-ins *)
(* ================================================================== *)

Module JS.

Definition number := float.

Definition NaN : number := nan.
Definition Infinity : number := infinity.

Inductive value : Type :=
  | VUndefined
  | VNull
  | VNumber (n : number)
  | VString (s : string).

(** [defined(x)] of Cesium: [x !== undefined && x !== null]. *)
Definition defined (v : value) : bool :=
  match v with
  | VUndefined | VNull => false
  | _ => true
  end.

(** [typeof v === 'number'] *)
Definition typeof_number (v : value) : bool :=
  match v with
  | VNumber _ => true
  | _ => false
  end.

(** ** Characters *)

Definition code (c : ascii) : N := N_of_ascii c.

Definition is_digit (c : ascii) : bool :=
  ((48 <=? code c) && (code c <=? 57))%N.

Definition digit_value (c : ascii) : Z := Z.of_N (code c) - 48.

(** Value of a hexadecimal digit, [None] for any other character. *)
Definition hex_value (c : ascii) : option Z :=
  let n := code c in
  if ((48 <=? n) && (n <=? 57))%N then Some (Z.of_N n - 48)
  else if ((65 <=? n) && (n <=? 70))%N then Some (Z.of_N n - 55)
  else if ((97 <=? n) && (n <=? 102))%N then Some (Z.of_N n - 87)
  else None.

(** WhiteSpace and LineTerminator code units below 256:
    TAB, LF, VT, FF, CR, SP, NBSP. *)
Definition is_space (c : ascii) : bool :=
  let n := code c in
  ((n =? 9) || (n =? 10) || (n =? 11) || (n =? 12) || (n =? 13)
   || (n =? 32) || (n =? 160))%N.

(** LineTerminator: the characters [.] of a regular expression rejects. *)
Definition is_line_terminator (c : ascii) : bool :=
  let n := code c in ((n =? 10) || (n =? 13))%N.

Definition to_lower (c : ascii) : ascii :=
  let n := code c in
  if ((65 <=? n) && (n <=? 90))%N then ascii_of_N (n + 32) else c.

(** ** Lists of characters *)

Fixpoint span {A : Type} (p : A -> bool) (l : list A) : list A * list A :=
  match l with
  | [] => ([], [])
  | x :: l' =>
      if p x then let (a, b) := span p l' in (x :: a, b) else ([], l)
  end.

Fixpoint drop_while {A : Type} (p : A -> bool) (l : list A) : list A :=
  match l with
  | [] => []
  | x :: l' => if p x then drop_while p l' else l
  end.

Definition trim (l : list ascii) : list ascii :=
  rev (drop_while is_space (rev (drop_while is_space l))).

Definition chars (s : string) : list ascii := list_ascii_of_string s.

(** ** Decimal text to the nearest double *)

(** The double nearest to [n / d] (ties to even), with the sign bit [neg].
    The quotient is computed with 64 bits and more, and a sticky bit
    records a non-zero remainder, so the single rounding of
    [binary_normalize] is the correct one. *)
Definition nearest_double (neg : bool) (n : Z) (d : Z) : number :=
  if (n =? 0)%Z then (if neg then (-0)%float else 0%float)
  else
    let s := (Z.log2_up d + 64)%Z in
    let q := (n * 2 ^ s / d)%Z in
    let r := (n * 2 ^ s mod d)%Z in
    let q' := (2 * q + (if (r =? 0)%Z then 0 else 1))%Z in
    let m := if neg then (- q')%Z else q' in
    SF2Prim (binary_normalize prec emax m (- s - 1) false).

(** The double nearest to [m * 10 ^ e]. *)
Definition decimal_to_number (neg : bool) (m e : Z) : number :=
  if (0 <=? e)%Z then nearest_double neg (m * 10 ^ e) 1
  else nearest_double neg m (10 ^ (- e)).

Definition digits_value (radix : Z) (ds : list Z) : Z :=
  fold_left (fun acc d => acc * radix + d)%Z ds 0%Z.

Definition decimal_digits (l : list ascii) : Z :=
  digits_value 10 (map digit_value l).

(** ** [Number(string)]: StringNumericLiteral *)

Definition sign_split (l : list ascii) : bool * list ascii :=
  match l with
  | "-"%char :: r => (true, r)
  | "+"%char :: r => (false, r)
  | _ => (false, l)
  end.

Definition is_exponent_mark (c : ascii) : bool :=
  ((code c =? 101) || (code c =? 69))%N.

(** [digits [. digits] | . digits], then an optional exponent part; the
    result is a mantissa and a power of ten. *)
Definition unsigned_decimal (l : list ascii) : option (Z * Z) :=
  let (ip, r1) := span is_digit l in
  let (fp, r2) :=
    match r1 with
    | "."%char :: r => span is_digit r
    | _ => ([], r1)
    end in
  if (length ip + length fp =? 0)%nat then None
  else
    let m := decimal_digits (ip ++ fp) in
    let e0 := - Z.of_nat (length fp) in
    match r2 with
    | [] => Some (m, e0)
    | c :: r3 =>
        if is_exponent_mark c then
          let (eneg, ds) := sign_split r3 in
          match ds with
          | [] => None
          | _ =>
              if forallb is_digit ds
              then Some (m, e0 + (if eneg then - decimal_digits ds
                                  else decimal_digits ds))
              else None
          end
        else None
    end.

Fixpoint radix_digits (radix : Z) (l : list ascii) : option (list Z) :=
  match l with
  | [] => Some []
  | c :: l' =>
      match hex_value c, radix_digits radix l' with
      | Some d, Some ds => if d <? radix then Some (d :: ds) else None
      | _, _ => None
      end
  end.

(** [0x..], [0o..] and [0b..]: no sign, at least one digit. *)
Definition radix_literal (l : list ascii) : option number :=
  match l with
  | "0"%char :: c :: (_ :: _) as ds =>
      let radix :=
        match to_lower c with
        | "x"%char => Some 16
        | "o"%char => Some 8
        | "b"%char => Some 2
        | _ => None
        end in
      match radix with
      | Some r =>
          match radix_digits r ds with
          | Some vs => Some (nearest_double false (digits_value r vs) 1)
          | None => None
          end
      | None => None
      end
  | _ => None
  end.

Definition StringToNumber (s : string) : number :=
  let l := trim (chars s) in
  match l with
  | [] => 0%float
  | _ =>
      match radix_literal l with
      | Some n => n
      | None =>
          let (neg, r) := sign_split l in
          if String.eqb (string_of_list_ascii r) "Infinity"
          then (if neg then neg_infinity else infinity)
          else
            match unsigned_decimal r with
            | Some (m, e) => decimal_to_number neg m e
            | None => NaN
            end
      end
  end.

(** ** [parseInt(string)] with no radix argument *)

Fixpoint leading_digits (radix : Z) (l : list ascii) : list Z :=
  match l with
  | [] => []
  | c :: l' =>
      match hex_value c with
      | Some d => if d <? radix then d :: leading_digits radix l' else []
      | None => []
      end
  end.

Definition parseInt_string (s : string) : number :=
  let (neg, r) := sign_split (drop_while is_space (chars s)) in
  let (radix, body) :=
    match r with
    | "0"%char :: "x"%char :: t => (16, t)
    | "0"%char :: "X"%char :: t => (16, t)
    | _ => (10, r)
    end in
  match leading_digits radix body with
  | [] => NaN
  | ds => nearest_double neg (digits_value radix ds) 1
  end.

(** ** Conversions between values *)

Definition ToNumber (v : value) : number :=
  match v with
  | VUndefined => NaN
  | VNull => 0%float
  | VNumber n => n
  | VString s => StringToNumber s
  end.

(** The global [isNaN(v)] converts its argument first. *)
Definition isNaN (v : value) : bool := is_nan (ToNumber v).

Section NumberToString.

(** [Number.prototype.toString]: the shortest decimal text that reads
    back as the same double.  The column code needs it only to hand a
    number to [parseInt] or to glue it to a string, so it stays a
    parameter. *)
Variable Number_toString : number -> string.

Definition ToString (v : value) : string :=
  match v with
  | VUndefined => "undefined"
  | VNull => "null"
  | VNumber n => Number_toString n
  | VString s => s
  end.

Definition parseInt (v : value) : number := parseInt_string (ToString v).

End NumberToString.

(** ** [Math.min], [Math.max], [Math.round] *)

Definition min2 (a b : number) : number :=
  if is_nan a || is_nan b then NaN
  else if (a <? b)%float then a
  else if (b <? a)%float then b
  else if get_sign a then a else b.

Definition max2 (a b : number) : number :=
  if is_nan a || is_nan b then NaN
  else if (a <? b)%float then b
  else if (b <? a)%float then a
  else if get_sign a then b else a.

Definition Math_min (args : list value) : number :=
  fold_left min2 (map ToNumber args) infinity.

Definition Math_max (args : list value) : number :=
  fold_left max2 (map ToNumber args) neg_infinity.

(** [f.apply(null, args)] passes no argument when [args] is undefined. *)
Definition apply_args (args : option (list value)) : list value :=
  match args with
  | Some l => l
  | None => []
  end.

(** The double nearest to a whole number; the number itself up to
    [2 ^ 53]. *)
Definition of_Z (n : Z) : number := nearest_double (n <? 0) (Z.abs n) 1.

(** The whole part of a finite double, rounded towards zero. *)
Definition truncate (x : number) : option Z :=
  match Prim2SF x with
  | S754_zero _ => Some 0
  | S754_finite s m e =>
      let magnitude :=
        if 0 <=? e then Zpos m * 2 ^ e else Z.shiftr (Zpos m) (- e) in
      Some (if s then - magnitude else magnitude)
  | _ => None
  end.

(** [x | 0]: ToInt32.  NaN and the infinities give 0; any other number is
    truncated and taken modulo [2 ^ 32] into the signed range. *)
Definition ToInt32 (x : number) : Z :=
  match truncate x with
  | Some n =>
      let r := n mod 2 ^ 32 in
      if 2 ^ 31 <=? r then r - 2 ^ 32 else r
  | None => 0
  end.

(** The exact value of a finite double. *)
Definition exact (x : number) : option Q :=
  match Prim2SF x with
  | S754_zero _ => Some 0%Q
  | S754_finite s m e =>
      Some (inject_Z (if s then Zneg m else Zpos m) * Qpower 2 e)%Q
  | _ => None
  end.

(** [Math.round(x)]: the whole number nearest to [x], the one towards
    +Infinity of two that are equally near.  NaN, the infinities, the zeros
    and the whole numbers are returned as they are, and a result of zero
    keeps the sign of [x]. *)
Definition Math_round (x : number) : number :=
  match Prim2SF x with
  | S754_finite s m e =>
      if 0 <=? e then x
      else
        let n :=
          Z.shiftr ((if s then Zneg m else Zpos m) + 2 ^ (- e - 1)) (- e) in
        if n =? 0 then (if s then (-0)%float else 0%float) else of_Z n
  | _ => x
  end.

(** ** Strict equality and [Array.prototype.indexOf] *)

Definition strict_equals (a b : value) : bool :=
  match a, b with
  | VUndefined, VUndefined => true
  | VNull, VNull => true
  | VNumber x, VNumber y => (x =? y)%float
  | VString s, VString t => String.eqb s t
  | _, _ => false
  end.

Fixpoint indexOf_from {A : Type} (eq : A -> A -> bool) (i : Z)
    (l : list A) (v : A) : Z :=
  match l with
  | [] => -1
  | x :: l' => if eq x v then i else indexOf_from eq (i + 1) l' v
  end.

Definition indexOf (l : list value) (v : value) : Z :=
  indexOf_from strict_equals 0 l v.

(** [a[i]]: reading past the end of an array gives [undefined]. *)
Definition get (l : list value) (i : Z) : value :=
  if i <? 0 then VUndefined else nth (Z.to_nat i) l VUndefined.

End JS.

(* ================================================================== *)
(** * Regular expressions *)
(* ================================================================== *)

(** [RegExp.prototype.test] for the regular expressions of the hint sets.
    A JavaScript pattern may match anywhere in its input; each pattern is
    written here together with what surrounds its match, so that a pattern
    is matched against the whole input: [^r$] is [r], [^r] is [r] followed by
    any text, and an alternative without [^] or [$] has any text on that
    side. *)
Module RegExp.

Inductive re : Type :=
  | Void                       (* matches nothing *)
  | Eps                        (* the empty string *)
  | Chr (p : ascii -> bool)    (* one character of a class *)
  | Seq (r1 r2 : re)
  | Alt (r1 r2 : re)
  | Star (r : re).

Fixpoint nullable (r : re) : bool :=
  match r with
  | Void => false
  | Eps => true
  | Chr _ => false
  | Seq r1 r2 => nullable r1 && nullable r2
  | Alt r1 r2 => nullable r1 || nullable r2
  | Star _ => true
  end.

Definition seq (r1 r2 : re) : re :=
  match r1, r2 with
  | Void, _ => Void
  | _, Void => Void
  | Eps, _ => r2
  | _, Eps => r1
  | _, _ => Seq r1 r2
  end.

Definition alt (r1 r2 : re) : re :=
  match r1, r2 with
  | Void, _ => r2
  | _, Void => r1
  | _, _ => Alt r1 r2
  end.

(** What is left of [r] to match once the character [c] has been read. *)
Fixpoint deriv (c : ascii) (r : re) : re :=
  match r with
  | Void => Void
  | Eps => Void
  | Chr p => if p c then Eps else Void
  | Seq r1 r2 =>
      alt (seq (deriv c r1) r2) (if nullable r1 then deriv c r2 else Void)
  | Alt r1 r2 => alt (deriv c r1) (deriv c r2)
  | Star r1 => seq (deriv c r1) (Star r1)
  end.

Fixpoint matches (r : re) (l : list ascii) : bool :=
  match l with
  | [] => nullable r
  | c :: l' => matches (deriv c r) l'
  end.

Definition test (r : re) (s : string) : bool := matches r (JS.chars s).

(** ** Pattern pieces *)

(** A literal character under the [i] flag. *)
Definition chr_i (c : ascii) : re :=
  Chr (fun x => Ascii.eqb (JS.to_lower x) (JS.to_lower c)).

(** A literal word under the [i] flag. *)
Fixpoint word (s : string) : re :=
  match s with
  | EmptyString => Eps
  | String c s' => Seq (chr_i c) (word s')
  end.

(** [.]: any character but a line terminator. *)
Definition dot : re := Chr (fun x => negb (JS.is_line_terminator x)).

(** Any text at all: what lies outside the match of an unanchored side. *)
Definition any_text : re := Star (Chr (fun _ => true)).

Definition opt (r : re) : re := Alt Eps r.

Definition one_of (cs : list ascii) : re :=
  Chr (fun x => existsb (Ascii.eqb x) cs).

Fixpoint words (ws : list string) : re :=
  match ws with
  | [] => Void
  | [w] => word w
  | w :: ws' => Alt (word w) (words ws')
  end.

(** [(.*[_ ])?] *)
Definition prefix_and_separator : re :=
  opt (Seq (Star dot) (one_of ["_"%char; " "%char])).

End RegExp.

(* ================================================================== *)
(** * Variable types *)
(* ================================================================== *)

(** Modelled from the spec: [lib/Map/VarType.js] and [lib/Map/VarSubType.js]
    are missing from the sources; the types of a column are LON, LAT, ALT,
    TIME, SCALAR and ENUM, and the one subtype is YEAR. *)
Module VarType.

Inductive t : Type := LON | LAT | ALT | TIME | SCALAR | ENUM.

Definition eqb (a b : t) : bool :=
  match a, b with
  | LON, LON | LAT, LAT | ALT, ALT | TIME, TIME
  | SCALAR, SCALAR | ENUM, ENUM => true
  | _, _ => false
  end.

Lemma eqb_spec (a b : t) : reflect (a = b) (eqb a b).
Proof. destruct a, b; constructor; congruence. Qed.

Lemma eqb_eq (a b : t) : eqb a b = true <-> a = b.
Proof. destruct (eqb_spec a b); split; congruence. Qed.

Lemma eqb_refl (a : t) : eqb a a = true.
Proof. now destruct a. Qed.

End VarType.

Module VarSubType.

Inductive t : Type := YEAR.

Definition eqb (a b : t) : bool := true.

End VarSubType.

(* ================================================================== *)
(** * Guessing a type from a name *)
(* ================================================================== *)

Record hint (T : Type) : Type := Hint { hint_re : RegExp.re; hint_type : T }.

Arguments Hint {T} hint_re hint_type.

Import RegExp.

(** [[
var typeHintSet = [
    { hint: /^(lon|longitude|lng)$/i, type: VarType.LON },
    { hint: /^(lat|latitude)$/i, type: VarType.LAT },
    { hint: /^(.*[_ ])?(depth|height|elevation)$/i, type: VarType.ALT },
    { hint: /^(.*[_ ])?(time|date)/i, type: VarType.TIME },
    { hint: /^(year)$/i, type: VarType.TIME },
    { hint: /^postcode|poa|(.*_code)$/i, type: VarType.ENUM }
];
]] *)
Definition typeHintSet : list (hint VarType.t) :=
  [ Hint (words ["lon"; "longitude"; "lng"]) VarType.LON;
    Hint (words ["lat"; "latitude"]) VarType.LAT;
    Hint (Seq prefix_and_separator (words ["depth"; "height"; "elevation"]))
         VarType.ALT;
    Hint (Seq prefix_and_separator (Seq (words ["time"; "date"]) any_text))
         VarType.TIME;
    Hint (word "year") VarType.TIME;
    Hint (Alt (Seq (word "postcode") any_text)
         (Alt (Seq any_text (Seq (word "poa") any_text))
              (Seq any_text (Seq (Star dot) (word "_code")))))
         VarType.ENUM ].

(** [[ var subtypeHintSet = [ { hint: /^(.*[_ ])?(year)/i, type: VarSubType.YEAR } ]; ]] *)
Definition subtypeHintSet : list (hint VarSubType.t) :=
  [ Hint (Seq prefix_and_separator (Seq (word "year") any_text))
         VarSubType.YEAR ].

(** [[
function applyHintsToName(hintSet, name, unallowedTypes) {
    for (var i in hintSet) {
        if (hintSet[i].hint.test(name)) {
            var guess = hintSet[i].type;
            if (unallowedTypes.indexOf(guess) === -1) {
                return guess;
            }
        }
    }
}
]] *)
Section ApplyHints.

Variable T : Type.
Variable eqb : T -> T -> bool.

Fixpoint applyHintsToName (hintSet : list (hint T)) (name : string)
    (unallowedTypes : list T) : option T :=
  match hintSet with
  | [] => None
  | h :: rest =>
      if test (hint_re h) name then
        let guess := hint_type h in
        if (JS.indexOf_from eqb 0 unallowedTypes guess =? -1)%Z
        then Some guess
        else applyHintsToName rest name unallowedTypes
      else applyHintsToName rest name unallowedTypes
  end.

End ApplyHints.

(* ================================================================== *)
(** * The Cesium types the column code uses *)
(* ================================================================== *)

Module JulianDate.

(** Cesium keeps a whole day number and the seconds of that day, in TAI.
    Both are JavaScript numbers; the day number is a whole number far below
    [2 ^ 53] and is kept as an integer, the seconds are a double. *)
Record t : Type := Make { dayNumber : Z; secondsOfDay : JS.number }.

(** [[
function setComponents(wholeDays, secondsOfDay, julianDate) {
    var extraDays = (secondsOfDay / TimeConstants.SECONDS_PER_DAY) | 0;
    wholeDays += extraDays;
    secondsOfDay -= TimeConstants.SECONDS_PER_DAY * extraDays;
    if (secondsOfDay < 0) {
        wholeDays--;
        secondsOfDay += TimeConstants.SECONDS_PER_DAY;
    }
    julianDate.dayNumber = wholeDays;
    julianDate.secondsOfDay = secondsOfDay;
    return julianDate;
}
]] *)
Definition setComponents (wholeDays : Z) (secondsOfDay : JS.number) : t :=
  let extraDays := JS.ToInt32 (secondsOfDay / 86400)%float in
  let wholeDays := wholeDays + extraDays in
  let secondsOfDay := (secondsOfDay - 86400 * JS.of_Z extraDays)%float in
  if (secondsOfDay <? 0)%float
  then Make (wholeDays - 1) (secondsOfDay + 86400)%float
  else Make wholeDays secondsOfDay.

(** [new JulianDate()]: day 0, second 0 of UTC, which is second 10 in TAI. *)
Definition default : t := Make 0 10%float.

(** [[
JulianDate.compare = function(left, right) {
    var julianDayNumberDifference = left.dayNumber - right.dayNumber;
    if (julianDayNumberDifference !== 0) {
        return julianDayNumberDifference;
    }
    return left.secondsOfDay - right.secondsOfDay;
};
]] *)
Definition compare (left right : t) : JS.number :=
  let julianDayNumberDifference := dayNumber left - dayNumber right in
  if julianDayNumberDifference =? 0
  then (secondsOfDay left - secondsOfDay right)%float
  else JS.of_Z julianDayNumberDifference.

(** [JulianDate.equals(left, right)], for two dates that are defined:
    [left.dayNumber === right.dayNumber && left.secondsOfDay === right.secondsOfDay]. *)
Definition equals (left right : t) : bool :=
  (dayNumber left =? dayNumber right)
  && (secondsOfDay left =? secondsOfDay right)%float.

(** [JulianDate.greaterThan(left, right)] is [compare(left, right) > 0]. *)
Definition greaterThan (left right : t) : bool :=
  (0 <? compare left right)%float.

(** [[
JulianDate.secondsDifference = function(left, right) {
    var dayDifference = (left.dayNumber - right.dayNumber) * TimeConstants.SECONDS_PER_DAY;
    return (dayDifference + (left.secondsOfDay - right.secondsOfDay));
};
]] *)
Definition secondsDifference (left right : t) : JS.number :=
  let dayDifference :=
    (JS.of_Z (dayNumber left - dayNumber right) * 86400)%float in
  (dayDifference + (secondsOfDay left - secondsOfDay right))%float.

(** [JulianDate.addSeconds(julianDate, seconds, result)] is
    [setComponents(julianDate.dayNumber, julianDate.secondsOfDay + seconds, result)]. *)
Definition addSeconds (julianDate : t) (seconds : JS.number) : t :=
  setComponents (dayNumber julianDate) (secondsOfDay julianDate + seconds)%float.

(** [[
JulianDate.addMinutes = function(julianDate, minutes, result) {
    var newSecondsOfDay = julianDate.secondsOfDay + (minutes * TimeConstants.SECONDS_PER_MINUTE);
    return setComponents(julianDate.dayNumber, newSecondsOfDay, result);
};
]] *)
Definition addMinutes (julianDate : t) (minutes : JS.number) : t :=
  let newSecondsOfDay := (secondsOfDay julianDate + minutes * 60)%float in
  setComponents (dayNumber julianDate) newSecondsOfDay.

End JulianDate.

Module Iso8601.

(** [Iso8601.MINIMUM_VALUE]: [0000-01-01T00:00:00Z], Julian day
    1721059.5, with the ten seconds between UTC and TAI that Cesium
    applies before the first leap second. *)
Definition MINIMUM_VALUE : JulianDate.t :=
  JulianDate.Make 1721059 43210%float.

End Iso8601.

Module TimeInterval.

(** An interval with both ends included, as [new TimeInterval({start, stop})]
    builds it. *)
Record t : Type := Make { start : JulianDate.t; stop : JulianDate.t }.

(** The interval is empty when it stops before it starts:
    [JulianDate.compare(this.stop, this.start) < 0]. *)
Definition isEmpty (i : t) : bool :=
  (JulianDate.compare (stop i) (start i) <? 0)%float.

Definition hull (i j : t) : t :=
  Make (if JulianDate.greaterThan (start i) (start j) then start j else start i)
       (if JulianDate.greaterThan (stop j) (stop i) then stop j else stop i).

End TimeInterval.

Module TimeIntervalCollection.

(** The intervals of a collection are kept in ascending order and do not
    overlap.  All intervals of the column code carry the same (undefined)
    data, so intervals that meet are merged into one. *)
Definition t : Type := list TimeInterval.t.

Definition empty : t := [].

Definition isEmpty (c : t) : bool :=
  match c with
  | [] => true
  | _ => false
  end.

(** [collection.start]: undefined for an empty collection. *)
Definition start (c : t) : option JulianDate.t :=
  match c with
  | [] => None
  | i :: _ => Some (TimeInterval.start i)
  end.

(** [collection.stop] *)
Definition stop (c : t) : option JulianDate.t :=
  match c with
  | [] => None
  | i :: c' => Some (TimeInterval.stop (last c' i))
  end.

Fixpoint insert (i : TimeInterval.t) (c : t) : t :=
  match c with
  | [] => [i]
  | j :: c' =>
      if JulianDate.greaterThan (TimeInterval.start j) (TimeInterval.stop i)
      then i :: c
      else if JulianDate.greaterThan (TimeInterval.start i) (TimeInterval.stop j)
      then j :: insert i c'
      else insert (TimeInterval.hull i j) c'
  end.

(** [collection.addInterval(interval)]: an empty interval is ignored. *)
Definition addInterval (c : t) (i : TimeInterval.t) : t :=
  if TimeInterval.isEmpty i then c else insert i c.

(** [addInterval] handed a whole collection, as [createClock] does: the
    collection is read through its own [isEmpty], [start] and [stop]. *)
Definition addCollection (c : t) (a : t) : t :=
  match start a, stop a with
  | Some s, Some e => insert (TimeInterval.Make s e) c
  | _, _ => c
  end.

End TimeIntervalCollection.

Module ClockRange.
Inductive t : Type := UNBOUNDED | CLAMPED | LOOP_STOP.
End ClockRange.

Module ClockStep.
Inductive t : Type := TICK_DEPENDENT | SYSTEM_CLOCK_MULTIPLIER | SYSTEM_CLOCK.
End ClockStep.

Module DataSourceClock.

Record t : Type := Make {
  startTime : JulianDate.t;
  stopTime : JulianDate.t;
  currentTime : JulianDate.t;
  clockRange : ClockRange.t;
  clockStep : ClockStep.t;
  multiplier : JS.number
}.

End DataSourceClock.

(** A JavaScript [Date] holds a time value, a whole number of milliseconds
    since the Unix epoch, or is an invalid date ([None]). *)
Definition JsDate : Type := option Z.

(** What the browser and Cesium provide for dates.  How a string is read as
    a date differs between browsers, so the parsers are parameters of the
    column code. *)
Record Runtime : Type := {
  (** [Number.prototype.toString] *)
  Number_toString : JS.number -> string;
  (** [new Date(v)]: the result may be an invalid date. *)
  Date_new : JS.value -> JsDate;
  (** [JulianDate.fromDate(date)] throws on an invalid date. *)
  JulianDate_fromDate : JsDate -> result JulianDate.t;
  (** [JulianDate.fromIso8601(v)] throws on anything but an ISO 8601 string. *)
  JulianDate_fromIso8601 : JS.value -> result JulianDate.t;
  (** [JulianDate.toDate(julianDate)] *)
  JulianDate_toDate : JulianDate.t -> JsDate
}.

(* ================================================================== *)
(** * Arrays *)
(* ================================================================== *)

(** [array.map(function(element, index) { ... })] *)
Fixpoint mapi_from {A B : Type} (f : A -> nat -> B) (i : nat) (l : list A)
    : list B :=
  match l with
  | [] => []
  | x :: l' => f x i :: mapi_from f (S i) l'
  end.

Definition mapi {A B : Type} (f : A -> nat -> B) (l : list A) : list B :=
  mapi_from f 0 l.

(** [array.filter(function(element, index, array) { ... })] *)
Fixpoint filteri_from {A : Type} (f : A -> nat -> list A -> bool)
    (array : list A) (i : nat) (l : list A) : list A :=
  match l with
  | [] => []
  | x :: l' =>
      if f x i array then x :: filteri_from f array (S i) l'
      else filteri_from f array (S i) l'
  end.

Definition filteri {A : Type} (f : A -> nat -> list A -> bool) (l : list A)
    : list A :=
  filteri_from f l 0 l.

(** [array.sort(compare)]: [a] is placed before [b] when [compare(a, b)]
    is not positive.  The order [sort] gives to elements that compare equal
    is left to the engine; an insertion sort is one such order. *)
Section Sort.

Variable A : Type.
Variable compare : A -> A -> JS.number.

Fixpoint sort_insert (x : A) (l : list A) : list A :=
  match l with
  | [] => [x]
  | y :: l' =>
      if (compare x y <=? 0)%float then x :: l else y :: sort_insert x l'
  end.

Fixpoint Array_sort (l : list A) : list A :=
  match l with
  | [] => []
  | x :: l' => sort_insert x (Array_sort l')
  end.

End Sort.

(* ================================================================== *)
(** * Strings *)
(* ================================================================== *)

(** [string.split(separator)] for a separator that matches one character. *)
Fixpoint split_on (p : ascii -> bool) (l : list ascii) : list (list ascii) :=
  match l with
  | [] => [[]]
  | c :: l' =>
      if p c then [] :: split_on p l'
      else
        match split_on p l' with
        | part :: parts => (c :: part) :: parts
        | [] => [[c]]
        end
  end.

Definition split (p : ascii -> bool) (s : string) : list string :=
  map string_of_list_ascii (split_on p (JS.chars s)).

(** [string.indexOf(c)] *)
Definition String_indexOf (s : string) (c : ascii) : Z :=
  JS.indexOf_from Ascii.eqb 0 (JS.chars s) c.

(** [string.substr(start)] and [string.substr(0, length)] *)
Definition substr_from (s : string) (start : Z) : string :=
  string_of_list_ascii (skipn (Z.to_nat start) (JS.chars s)).

Definition substr_to (s : string) (length : Z) : string :=
  string_of_list_ascii (firstn (Z.to_nat length) (JS.chars s)).

(** [[
function swapDateFormat(v) {
    var part = v.split(/[/-]/);
    if (part.length === 3) {
        v = part[1] + '/' + part[0] + '/' + part[2];
    }
    return v;
}
]]
    A value that is not a string has no [split]: the call throws. *)
Definition swapDateFormat (v : JS.value) : result JS.value :=
  match v with
  | JS.VString s =>
      let part := split (fun c => Ascii.eqb c "/" || Ascii.eqb c "-") s in
      if (length part =? 3)%nat
      then Ok (JS.VString
                 (nth 1 part "" ++ "/" ++ nth 0 part "" ++ "/" ++ nth 2 part "")%string)
      else Ok v
  | _ => Throw TypeError
  end.

(** [[
function replaceHyphensAndConvertTime(v) {
    var time = '';
    if (!defined(v.indexOf)) {
        return v;
    }
    var tIndex = v.indexOf('T');
    if (tIndex >= 0) {
        var times = v.substr(tIndex + 1).split(':');
        if (times && times.length > 1) {
            time = ' ' + times[0] + ':' + times[1];
        }
        if (times.length > 2) {
            time = time + ':' + parseInt(times[2]);
        }
        v = v.substr(0, tIndex);
    }
    var part = v.split(/-/);
    if (part.length === 3) {
        v = part[0] + '/' + part[1] + '/' + part[2];
    }
    return v + time;
}
]]
    A number has no [indexOf] and is returned as it is; reading [indexOf]
    of [null] or [undefined] throws. *)
Definition replaceHyphensAndConvertTime (R : Runtime) (v : JS.value)
    : result JS.value :=
  match v with
  | JS.VUndefined | JS.VNull => Throw TypeError
  | JS.VNumber _ => Ok v
  | JS.VString s =>
      let tIndex := String_indexOf s "T" in
      let '(s, time) :=
        if 0 <=? tIndex then
          let times := split (fun c => Ascii.eqb c ":") (substr_from s (tIndex + 1)) in
          let time :=
            if (1 <? length times)%nat
            then (" " ++ nth 0 times "" ++ ":" ++ nth 1 times "")%string
            else "" in
          let time :=
            if (2 <? length times)%nat
            then (time ++ ":" ++
                  Number_toString R (JS.parseInt_string (nth 2 times "")))%string
            else time in
          (substr_to s tIndex, time)
        else (s, "") in
      let part := split (fun c => Ascii.eqb c "-") s in
      let s :=
        if (length part =? 3)%nat
        then (nth 0 part "" ++ "/" ++ nth 1 part "" ++ "/" ++ nth 2 part "")%string
        else s in
      Ok (JS.VString (s ++ time)%string)
  end.

(* ================================================================== *)
(** * The column *)
(* ================================================================== *)

(** The options the column code reads.  [tableStructure] and [active] are
    only handed on to [VariableConcept] and are left out.  A display
    duration is a number of minutes. *)
Record Options : Type := {
  opt_type : option VarType.t;
  opt_subtype : option VarSubType.t;
  opt_unallowedTypes : option (list VarType.t);
  opt_displayVariableTypes : option (list VarType.t);
  opt_replaceWithNullValues : option (list JS.value);
  opt_displayDuration : option JS.number
}.

(** [defaultValue.EMPTY_OBJECT] *)
Definition EMPTY_OBJECT : Options :=
  {| opt_type := None; opt_subtype := None; opt_unallowedTypes := None;
     opt_displayVariableTypes := None; opt_replaceWithNullValues := None;
     opt_displayDuration := None |}.

(** [defaultValue(a, b)] *)
Definition defaultValue {A : Type} (a : option A) (b : A) : A :=
  match a with
  | Some x => x
  | None => b
  end.

(** [var defaultFinalDurationSeconds = 3600 * 24 - 1;] *)
Definition defaultFinalDurationSeconds : JS.number := (3600 * 24 - 1)%float.

(** [var defaultReplaceWithNullValues = ['-', 'na', 'NA'];] *)
Definition defaultReplaceWithNullValues : list JS.value :=
  [JS.VString "-"; JS.VString "na"; JS.VString "NA"].

Section Column.

Variable R : Runtime.

(** The fields the constructor assigns.  A field that holds [undefined]
    is [None]; [isVisible] is [None] as long as the column code has not
    assigned it. *)
Record Column : Type := {
  name : string;
  options : Options;
  _unallowedTypes : list VarType.t;
  _type : VarType.t;
  _subtype : option VarSubType.t;
  _values : option (list JS.value);
  _minimumValue : JS.number;
  _maximumValue : JS.number;
  _numericalValues : option (list JS.value);
  _uniqueValues : option (list JS.value);
  _indicesIntoUniqueValues : option (list Z);
  _displayVariableTypes : option (list VarType.t);
  isVisible : option bool;
  displayDuration : option JS.number;
  dates : option (list JsDate);
  julianDates : option (list JulianDate.t);
  finishJulianDates : option (list (option JulianDate.t));
  _availabilities : option (list TimeIntervalCollection.t);
  _clock : option DataSourceClock.t
}.

(** ** Assignments to one field *)

Definition with_type (c : Column) (x : VarType.t) : Column :=
  {| name := name c; options := options c;
     _unallowedTypes := _unallowedTypes c; _type := x;
     _subtype := _subtype c; _values := _values c;
     _minimumValue := _minimumValue c; _maximumValue := _maximumValue c;
     _numericalValues := _numericalValues c;
     _uniqueValues := _uniqueValues c;
     _indicesIntoUniqueValues := _indicesIntoUniqueValues c;
     _displayVariableTypes := _displayVariableTypes c;
     isVisible := isVisible c; displayDuration := displayDuration c;
     dates := dates c; julianDates := julianDates c;
     finishJulianDates := finishJulianDates c;
     _availabilities := _availabilities c; _clock := _clock c |}.

Definition with_subtype (c : Column) (x : option VarSubType.t) : Column :=
  {| name := name c; options := options c;
     _unallowedTypes := _unallowedTypes c; _type := _type c;
     _subtype := x; _values := _values c;
     _minimumValue := _minimumValue c; _maximumValue := _maximumValue c;
     _numericalValues := _numericalValues c;
     _uniqueValues := _uniqueValues c;
     _indicesIntoUniqueValues := _indicesIntoUniqueValues c;
     _displayVariableTypes := _displayVariableTypes c;
     isVisible := isVisible c; displayDuration := displayDuration c;
     dates := dates c; julianDates := julianDates c;
     finishJulianDates := finishJulianDates c;
     _availabilities := _availabilities c; _clock := _clock c |}.

(** The four fields [reviseForBadNumbers] assigns together. *)
Definition with_values (c : Column) (values : list JS.value)
    (minimum maximum : JS.number) (numerical : list JS.value) : Column :=
  {| name := name c; options := options c;
     _unallowedTypes := _unallowedTypes c; _type := _type c;
     _subtype := _subtype c; _values := Some values;
     _minimumValue := minimum; _maximumValue := maximum;
     _numericalValues := Some numerical;
     _uniqueValues := _uniqueValues c;
     _indicesIntoUniqueValues := _indicesIntoUniqueValues c;
     _displayVariableTypes := _displayVariableTypes c;
     isVisible := isVisible c; displayDuration := displayDuration c;
     dates := dates c; julianDates := julianDates c;
     finishJulianDates := finishJulianDates c;
     _availabilities := _availabilities c; _clock := _clock c |}.

Definition with_uniqueValues (c : Column) (x : option (list JS.value)) : Column :=
  {| name := name c; options := options c;
     _unallowedTypes := _unallowedTypes c; _type := _type c;
     _subtype := _subtype c; _values := _values c;
     _minimumValue := _minimumValue c; _maximumValue := _maximumValue c;
     _numericalValues := _numericalValues c;
     _uniqueValues := x;
     _indicesIntoUniqueValues := _indicesIntoUniqueValues c;
     _displayVariableTypes := _displayVariableTypes c;
     isVisible := isVisible c; displayDuration := displayDuration c;
     dates := dates c; julianDates := julianDates c;
     finishJulianDates := finishJulianDates c;
     _availabilities := _availabilities c; _clock := _clock c |}.

Definition with_indicesIntoUniqueValues (c : Column)
    (x : option (list Z)) : Column :=
  {| name := name c; options := options c;
     _unallowedTypes := _unallowedTypes c; _type := _type c;
     _subtype := _subtype c; _values := _values c;
     _minimumValue := _minimumValue c; _maximumValue := _maximumValue c;
     _numericalValues := _numericalValues c;
     _uniqueValues := _uniqueValues c;
     _indicesIntoUniqueValues := x;
     _displayVariableTypes := _displayVariableTypes c;
     isVisible := isVisible c; displayDuration := displayDuration c;
     dates := dates c; julianDates := julianDates c;
     finishJulianDates := finishJulianDates c;
     _availabilities := _availabilities c; _clock := _clock c |}.

Definition with_displayVariableTypes (c : Column)
    (x : option (list VarType.t)) : Column :=
  {| name := name c; options := options c;
     _unallowedTypes := _unallowedTypes c; _type := _type c;
     _subtype := _subtype c; _values := _values c;
     _minimumValue := _minimumValue c; _maximumValue := _maximumValue c;
     _numericalValues := _numericalValues c;
     _uniqueValues := _uniqueValues c;
     _indicesIntoUniqueValues := _indicesIntoUniqueValues c;
     _displayVariableTypes := x;
     isVisible := isVisible c; displayDuration := displayDuration c;
     dates := dates c; julianDates := julianDates c;
     finishJulianDates := finishJulianDates c;
     _availabilities := _availabilities c; _clock := _clock c |}.

Definition with_isVisible (c : Column) (x : bool) : Column :=
  {| name := name c; options := options c;
     _unallowedTypes := _unallowedTypes c; _type := _type c;
     _subtype := _subtype c; _values := _values c;
     _minimumValue := _minimumValue c; _maximumValue := _maximumValue c;
     _numericalValues := _numericalValues c;
     _uniqueValues := _uniqueValues c;
     _indicesIntoUniqueValues := _indicesIntoUniqueValues c;
     _displayVariableTypes := _displayVariableTypes c;
     isVisible := Some x; displayDuration := displayDuration c;
     dates := dates c; julianDates := julianDates c;
     finishJulianDates := finishJulianDates c;
     _availabilities := _availabilities c; _clock := _clock c |}.

Definition with_dates (c : Column) (d : list JsDate)
    (j : list JulianDate.t) : Column :=
  {| name := name c; options := options c;
     _unallowedTypes := _unallowedTypes c; _type := _type c;
     _subtype := _subtype c; _values := _values c;
     _minimumValue := _minimumValue c; _maximumValue := _maximumValue c;
     _numericalValues := _numericalValues c;
     _uniqueValues := _uniqueValues c;
     _indicesIntoUniqueValues := _indicesIntoUniqueValues c;
     _displayVariableTypes := _displayVariableTypes c;
     isVisible := isVisible c; displayDuration := displayDuration c;
     dates := Some d; julianDates := Some j;
     finishJulianDates := finishJulianDates c;
     _availabilities := _availabilities c; _clock := _clock c |}.

Definition with_finishJulianDates (c : Column)
    (x : list (option JulianDate.t)) : Column :=
  {| name := name c; options := options c;
     _unallowedTypes := _unallowedTypes c; _type := _type c;
     _subtype := _subtype c; _values := _values c;
     _minimumValue := _minimumValue c; _maximumValue := _maximumValue c;
     _numericalValues := _numericalValues c;
     _uniqueValues := _uniqueValues c;
     _indicesIntoUniqueValues := _indicesIntoUniqueValues c;
     _displayVariableTypes := _displayVariableTypes c;
     isVisible := isVisible c; displayDuration := displayDuration c;
     dates := dates c; julianDates := julianDates c;
     finishJulianDates := Some x;
     _availabilities := _availabilities c; _clock := _clock c |}.

Definition with_availabilities (c : Column)
    (x : list TimeIntervalCollection.t) : Column :=
  {| name := name c; options := options c;
     _unallowedTypes := _unallowedTypes c; _type := _type c;
     _subtype := _subtype c; _values := _values c;
     _minimumValue := _minimumValue c; _maximumValue := _maximumValue c;
     _numericalValues := _numericalValues c;
     _uniqueValues := _uniqueValues c;
     _indicesIntoUniqueValues := _indicesIntoUniqueValues c;
     _displayVariableTypes := _displayVariableTypes c;
     isVisible := isVisible c; displayDuration := displayDuration c;
     dates := dates c; julianDates := julianDates c;
     finishJulianDates := finishJulianDates c;
     _availabilities := Some x; _clock := _clock c |}.

Definition with_clock (c : Column) (x : option DataSourceClock.t) : Column :=
  {| name := name c; options := options c;
     _unallowedTypes := _unallowedTypes c; _type := _type c;
     _subtype := _subtype c; _values := _values c;
     _minimumValue := _minimumValue c; _maximumValue := _maximumValue c;
     _numericalValues := _numericalValues c;
     _uniqueValues := _uniqueValues c;
     _indicesIntoUniqueValues := _indicesIntoUniqueValues c;
     _displayVariableTypes := _displayVariableTypes c;
     isVisible := isVisible c; displayDuration := displayDuration c;
     dates := dates c; julianDates := julianDates c;
     finishJulianDates := finishJulianDates c;
     _availabilities := _availabilities c; _clock := x |}.

(** Reading a property of a field that holds [undefined] throws. *)
Definition field {A : Type} (x : option A) : result A :=
  match x with
  | Some a => Ok a
  | None => Throw TypeError
  end.

(** ** Getters *)

(** [[
  usesIndicesIntoUniqueValues: {
      get: function() {
          return (isNaN(this._minimumValue) && this._type === VarType.ENUM);
      }
  }
]] *)
Definition usesIndicesIntoUniqueValues (this : Column) : bool :=
  JS.isNaN (JS.VNumber (_minimumValue this))
  && VarType.eqb (_type this) VarType.ENUM.

(** [[
  indicesOrNumericalValues: {
      get: function() {
          if (this.usesIndicesIntoUniqueValues) {
              return this._indicesIntoUniqueValues;
          } else {
              return this._numericalValues;
          }
      }
  }
]] *)
Definition indicesOrNumericalValues (this : Column)
    : option (list Z) + option (list JS.value) :=
  if usesIndicesIntoUniqueValues this
  then inl (_indicesIntoUniqueValues this)
  else inr (_numericalValues this).

(** ** Unique values *)

(** Modelled from the spec: [lib/Core/getUniqueValues.js] is missing from
    the sources.  The spec has it compute "the sorted-by-first-occurrence
    set of distinct raw values": each value is kept where it first occurs,
    and a value is a repetition when it is strictly equal to one already
    kept. *)
Fixpoint getUniqueValues_onto (kept : list JS.value) (l : list JS.value)
    : list JS.value :=
  match l with
  | [] => kept
  | v :: l' =>
      if (JS.indexOf kept v =? -1)
      then getUniqueValues_onto (kept ++ [v]) l'
      else getUniqueValues_onto kept l'
  end.

Definition getUniqueValues (l : list JS.value) : list JS.value :=
  getUniqueValues_onto [] l.

(** ** Repair of bad numbers *)

Definition numerical (values : list JS.value) : list JS.value :=
  filter JS.typeof_number values.

(** [[
function reviseForBadNumbers(tableColumn, replaceWithNullValues) {
  if (isNaN(tableColumn._minimumValue) && (tableColumn._type === VarType.SCALAR) && (tableColumn._numericalValues.length > 0)) {
      var values = tableColumn._values.map(function(value) {
          if (replaceWithNullValues.indexOf(value) >= 0) {
              return null;
          }
          return value;
      });
      tableColumn._values = values;
      tableColumn._minimumValue = Math.min.apply(null, values);
      tableColumn._maximumValue = Math.max.apply(null, values);
      tableColumn._numericalValues = values.filter(function(value) { return typeof value === 'number'; });
  }
}
]] *)
Definition reviseForBadNumbers (tableColumn : Column)
    (replaceWithNullValues : list JS.value) : result Column :=
  if JS.isNaN (JS.VNumber (_minimumValue tableColumn))
     && VarType.eqb (_type tableColumn) VarType.SCALAR
  then
    numericalValues <- field (_numericalValues tableColumn) ;;
    if (0 <? length numericalValues)%nat then
      old <- field (_values tableColumn) ;;
      let values :=
        map (fun value =>
               if 0 <=? JS.indexOf replaceWithNullValues value
               then JS.VNull
               else value) old in
      Ok (with_values tableColumn values
            (JS.Math_min values) (JS.Math_max values) (numerical values))
    else Ok tableColumn
  else Ok tableColumn.

(** ** Derived views *)

(** [[
function updateForType(tableColumn) {
  tableColumn._uniqueValues = undefined;
  if (tableColumn.usesIndicesIntoUniqueValues) {
      tableColumn._uniqueValues = getUniqueValues(tableColumn._values);
      tableColumn._indicesIntoUniqueValues = tableColumn._values.map(function(value) {
          return tableColumn._uniqueValues.indexOf(value);
      });
  }

  tableColumn._displayVariableTypes = tableColumn.options.displayVariableTypes;
  if (defined(tableColumn._displayVariableTypes)) {
      tableColumn.isVisible = (tableColumn._displayVariableTypes.indexOf(tableColumn._type) >= 0);
  }
}
]] *)
Definition updateForType (tableColumn : Column) : result Column :=
  let tableColumn := with_uniqueValues tableColumn None in
  tableColumn <-
    (if usesIndicesIntoUniqueValues tableColumn then
       values <- field (_values tableColumn) ;;
       let uniqueValues := getUniqueValues values in
       let tableColumn := with_uniqueValues tableColumn (Some uniqueValues) in
       Ok (with_indicesIntoUniqueValues tableColumn
             (Some (map (fun value => JS.indexOf uniqueValues value) values)))
     else Ok tableColumn) ;;
  let tableColumn :=
    with_displayVariableTypes tableColumn
      (opt_displayVariableTypes (options tableColumn)) in
  match _displayVariableTypes tableColumn with
  | Some types =>
      Ok (with_isVisible tableColumn
            (0 <=? JS.indexOf_from VarType.eqb 0 types (_type tableColumn)))
  | None => Ok tableColumn
  end.

(** ** Setters *)

(** [[
      set: function(type) {
          this._type = type;
          updateForType(this);
      }
]] *)
Definition set_type (this : Column) (type : VarType.t) : result Column :=
  updateForType (with_type this type).

(** [[
      set: function(subtype) {
          this._subtype = subtype;
          // updateForType(this);
      }
]] *)
Definition set_subtype (this : Column) (subtype : option VarSubType.t)
    : result Column :=
  Ok (with_subtype this subtype).

(** ** Dates *)

(** [[
function isInteger(value) {
  return (!isNaN(value)) && (parseInt(Number(value)) === +value) && (!isNaN(parseInt(value)));
}
]] *)
Definition isInteger (value : JS.value) : bool :=
  negb (JS.isNaN value)
  && (JS.parseInt (Number_toString R) (JS.VNumber (JS.ToNumber value))
      =? JS.ToNumber value)%float
  && negb (JS.isNaN (JS.VNumber (JS.parseInt (Number_toString R) value))).

(** [[
function areAllIntegers(array) {
  for (var i = array.length - 1; i >= 0; i--) {
      if (!isInteger(array[i])) {
          return false;
      }
  }
  return true;
}
]] *)
Definition areAllIntegers (array : list JS.value) : bool :=
  forallb isInteger (rev array).

Record ConvertedDates : Type := {
  cd_subtype : option VarSubType.t;
  cd_jsDates : list JsDate;
  cd_julianDates : list JulianDate.t
}.

(** The four bodies of [dateParsers]; each returns [[jsDate, julianDate]]
    or throws. *)
Definition parseYear (v : JS.value) : result (JsDate * JulianDate.t) :=
  let jsDate :=
    Date_new R (JS.VString (JS.ToString (Number_toString R) v ++ "/01/01")%string) in
  julianDate <- JulianDate_fromDate R jsDate ;;
  Ok (jsDate, julianDate).

Definition parseIso8601 (v : JS.value) : result (JsDate * JulianDate.t) :=
  julianDate <- JulianDate_fromIso8601 R v ;;
  Ok (JulianDate_toDate R julianDate, julianDate).

Definition parseDayFirst (v : JS.value) : result (JsDate * JulianDate.t) :=
  swapped <- swapDateFormat v ;;
  let jsDate := Date_new R swapped in
  julianDate <- JulianDate_fromDate R jsDate ;;
  Ok (jsDate, julianDate).

Definition parseMonthFirst (v : JS.value) : result (JsDate * JulianDate.t) :=
  replaced <- replaceHyphensAndConvertTime R v ;;
  let jsDate := Date_new R replaced in
  julianDate <- JulianDate_fromDate R jsDate ;;
  Ok (jsDate, julianDate).

(** [[
  var firstPositionMaximum = 0;
  theValues.forEach(function(value) {
      var firstPosition = parseInt(value);
      if (firstPosition > firstPositionMaximum) {
          firstPositionMaximum = firstPosition;
      }
  });
]] *)
Definition firstPositionMaximum (theValues : list JS.value) : JS.number :=
  fold_left
    (fun maximum value =>
       let firstPosition := JS.parseInt (Number_toString R) value in
       if (maximum <? firstPosition)%float then firstPosition else maximum)
    theValues 0%float.

(** The choice of [dateParsers] in [convertToDates], with the subtype it
    sets. *)
Definition dateParsers (subtype : option VarSubType.t)
    (theValues : list JS.value)
    : option VarSubType.t * (JS.value -> result (JsDate * JulianDate.t)) :=
  let maximum := firstPositionMaximum theValues in
  if match subtype with Some VarSubType.YEAR => true | None => false end
     || ((1850 <=? maximum)%float && (maximum <=? 2100)%float
         && areAllIntegers theValues)
  then (Some VarSubType.YEAR, parseYear)
  else if (31 <? maximum)%float then (None, parseIso8601)
  else if (12 <? maximum)%float then (None, parseDayFirst)
  else (None, parseMonthFirst).

(** [convertToDates(tableColumn)]: when one value fails to parse, the
    [catch] only logs it and [results] stays empty. *)
Definition convertToDates (tableColumn : Column) : result ConvertedDates :=
  theValues <- field (_values tableColumn) ;;
  let (subtype, parser) := dateParsers (_subtype tableColumn) theValues in
  let results := catch (mapM parser theValues) [] in
  Ok {| cd_subtype := subtype;
        cd_jsDates := map fst results;
        cd_julianDates := map snd results |}.

(** ** Finish dates *)

Definition lessThan20 (secondsDifference : JS.number) : bool :=
  (secondsDifference <? 20)%float.

(** [[
  var revisedDates = julianDates.slice();
  revisedDates.sort(JulianDate.compare);
  revisedDates = revisedDates.filter(function(element, index, array) {
      return (index === 0) || (!JulianDate.equals(array[index - 1], element));
  });
]] *)
Definition uniqueSortedDates (julianDates : list JulianDate.t)
    : list JulianDate.t :=
  filteri
    (fun element index array =>
       (index =? 0)%nat
       || negb (JulianDate.equals (nth (index - 1) array element) element))
    (Array_sort JulianDate.compare julianDates).

(** [[
  var endDates = revisedDates.slice(1).map(function(rawEndDate, index) {
      var secondsDifference = JulianDate.secondsDifference(rawEndDate, revisedDates[index]);
      if (secondsDifference < 20) {
          return JulianDate.addSeconds(revisedDates[index], secondsDifference * 0.95, new JulianDate());
      } else {
          return JulianDate.addSeconds(rawEndDate, -1, new JulianDate());
      }
  });
]] *)
Definition innerEndDates (revisedDates : list JulianDate.t)
    : list JulianDate.t :=
  mapi
    (fun rawEndDate index =>
       let previous := nth index revisedDates rawEndDate in
       let secondsDifference :=
         JulianDate.secondsDifference rawEndDate previous in
       if lessThan20 secondsDifference
       then JulianDate.addSeconds previous (secondsDifference * 0.95)%float
       else JulianDate.addSeconds rawEndDate (-1)%float)
    (tl revisedDates).

(** [[
  var finalDurationSeconds = defaultFinalDurationSeconds;
  var n = revisedDates.length;
  if (n > 1) {
      finalDurationSeconds = JulianDate.secondsDifference(revisedDates[n - 1], revisedDates[0]) / (n - 1);
  }
]] *)
Definition finalDurationSeconds (revisedDates : list JulianDate.t)
    : JS.number :=
  let n := length revisedDates in
  if (1 <? n)%nat
  then (JulianDate.secondsDifference
          (nth (n - 1) revisedDates JulianDate.default)
          (nth 0 revisedDates JulianDate.default)
        / JS.of_Z (Z.of_nat (n - 1)))%float
  else defaultFinalDurationSeconds.

(** [endDates] once the final end date is pushed; [addSeconds] throws when
    there is no last date to add to. *)
Definition endDates (revisedDates : list JulianDate.t)
    : result (list JulianDate.t) :=
  let n := length revisedDates in
  match nth_error revisedDates (n - 1) with
  | Some lastDate =>
      Ok (innerEndDates revisedDates
          ++ [JulianDate.addSeconds lastDate
                (finalDurationSeconds revisedDates)])
  | None => Throw (DeveloperError "julianDate is required.")
  end.

(** [[
      for (var i = 0; i < revisedDates.length; i++) {
          if (JulianDate.greaterThan(endDates[i], startDate)) {
              return endDates[i];
          }
      }
]]
    The result is [None] when the loop ends without a [return]. *)
Definition firstEndDateAfter (n : nat) (endDates : list JulianDate.t)
    (startDate : JulianDate.t) : option JulianDate.t :=
  find (fun endDate => JulianDate.greaterThan endDate startDate)
       (firstn n endDates).

(** [calculateFinishDates(julianDates)] *)
Definition calculateFinishDates (julianDates : list JulianDate.t)
    : result (list (option JulianDate.t)) :=
  let revisedDates := uniqueSortedDates julianDates in
  ends <- endDates revisedDates ;;
  Ok (map (firstEndDateAfter (length revisedDates) ends) julianDates).

(** ** Availabilities *)

(** [[
function calculateAvailability(timeColumn, index) {
  var availability = new TimeIntervalCollection();
  var finishJulianDate;
  if (!defined(timeColumn.displayDuration)) {
      finishJulianDate = timeColumn.finishJulianDates[index];
  } else {
      finishJulianDate = JulianDate.addMinutes(timeColumn.julianDates[index], timeColumn.displayDuration, endScratch);
  }
  var availabilityInterval = new TimeInterval({start: timeColumn.julianDates[index], stop: finishJulianDate});
  availability.addInterval(availabilityInterval);
  return availability;
}
]]
    [new TimeInterval] copies its ends, and puts [new JulianDate()] where
    an end is undefined. *)
Definition calculateAvailability (timeColumn : Column) (index : nat)
    : result TimeIntervalCollection.t :=
  let availability := TimeIntervalCollection.empty in
  finishJulianDate <-
    match displayDuration timeColumn with
    | None =>
        finishes <- field (finishJulianDates timeColumn) ;;
        Ok (match nth_error finishes index with
            | Some finish => finish
            | None => None
            end)
    | Some minutes =>
        starts <- field (julianDates timeColumn) ;;
        match nth_error starts index with
        | Some startDate => Ok (Some (JulianDate.addMinutes startDate minutes))
        | None => Throw (DeveloperError "julianDate is required.")
        end
    end ;;
  starts <- field (julianDates timeColumn) ;;
  let availabilityInterval :=
    TimeInterval.Make
      (defaultValue (nth_error starts index) JulianDate.default)
      (defaultValue finishJulianDate JulianDate.default) in
  Ok (TimeIntervalCollection.addInterval availability availabilityInterval).

(** [[
function calculateAvailabilities(timeColumn) {
  return timeColumn.values.map(function(value, index) {
      return calculateAvailability(timeColumn, index);
  });
}
]] *)
Definition calculateAvailabilities (timeColumn : Column)
    : result (list TimeIntervalCollection.t) :=
  values <- field (_values timeColumn) ;;
  mapM (calculateAvailability timeColumn) (List.seq 0 (length values)).

(** ** The clock *)

(** [[
function createClock(timeColumn) {
  var availabilityCollection = new TimeIntervalCollection();
  timeColumn._availabilities.forEach(function(availability) {
      availabilityCollection.addInterval(availability);
  });
  if (!defined(timeColumn._clock)) {
      if (!availabilityCollection.start.equals(Iso8601.MINIMUM_VALUE)) {
          var startTime = availabilityCollection.start;
          var stopTime = availabilityCollection.stop;
          var totalSeconds = JulianDate.secondsDifference(stopTime, startTime);
          var multiplier = Math.round(totalSeconds / 120.0);

          var clock = new DataSourceClock();
          clock.startTime = JulianDate.clone(startTime);
          clock.stopTime = JulianDate.clone(stopTime);
          clock.clockRange = ClockRange.LOOP_STOP;
          clock.multiplier = multiplier;
          clock.currentTime = JulianDate.clone(startTime);
          clock.clockStep = ClockStep.SYSTEM_CLOCK_MULTIPLIER;
          return clock;
      }
  }
  return timeColumn._clock;
}
]]
    [availabilityCollection.start] is undefined when no interval was
    added, and calling [equals] on it throws. *)
Definition createClock (timeColumn : Column)
    : result (option DataSourceClock.t) :=
  availabilities <- field (_availabilities timeColumn) ;;
  let availabilityCollection :=
    fold_left TimeIntervalCollection.addCollection availabilities
      TimeIntervalCollection.empty in
  match _clock timeColumn with
  | None =>
      startTime <- field (TimeIntervalCollection.start availabilityCollection) ;;
      if negb (JulianDate.equals startTime Iso8601.MINIMUM_VALUE) then
        stopTime <- field (TimeIntervalCollection.stop availabilityCollection) ;;
        let totalSeconds := JulianDate.secondsDifference stopTime startTime in
        let multiplier := JS.Math_round (totalSeconds / 120)%float in
        Ok (Some {| DataSourceClock.startTime := startTime;
                    DataSourceClock.stopTime := stopTime;
                    DataSourceClock.clockRange := ClockRange.LOOP_STOP;
                    DataSourceClock.multiplier := multiplier;
                    DataSourceClock.currentTime := startTime;
                    DataSourceClock.clockStep := ClockStep.SYSTEM_CLOCK_MULTIPLIER |})
      else Ok (_clock timeColumn)
  | Some _ => Ok (_clock timeColumn)
  end.

(** ** Construction *)

(** [[
TableColumn.prototype.setTypeAndSubTypeFromName = function() {
  var type = applyHintsToName(typeHintSet, this.name, this._unallowedTypes);
  if (!defined(type)) {
      type = VarType.SCALAR;
      if (this._unallowedTypes.indexOf(VarType.SCALAR) >= 0) {
          throw new DeveloperError('No suitable variable type found.');
      }
  }
  this._type = type;
  this._subtype = applyHintsToName(subtypeHintSet, this.name, []);
};
]]
    The method runs before the other fields exist; it is given the two
    fields it reads and returns the two it assigns. *)
Definition setTypeAndSubTypeFromName (name : string)
    (unallowedTypes : list VarType.t)
    : result (VarType.t * option VarSubType.t) :=
  type <-
    match applyHintsToName VarType.eqb typeHintSet name unallowedTypes with
    | Some type => Ok type
    | None =>
        if 0 <=? JS.indexOf_from VarType.eqb 0 unallowedTypes VarType.SCALAR
        then Throw (DeveloperError "No suitable variable type found.")
        else Ok VarType.SCALAR
    end ;;
  Ok (type, applyHintsToName VarSubType.eqb subtypeHintSet name []).

(** The time fields of a column whose type is TIME (lines 114 to 128 of
    the constructor). *)
Definition initialiseTime (this : Column) : result Column :=
  jsDatesAndJulianDates <- convertToDates this ;;
  let this :=
    with_dates this (cd_jsDates jsDatesAndJulianDates)
      (cd_julianDates jsDatesAndJulianDates) in
  if (length (cd_jsDates jsDatesAndJulianDates) =? 0)%nat then
    Ok (with_type this VarType.SCALAR)
  else
    let this := with_subtype this (cd_subtype jsDatesAndJulianDates) in
    finishes <- calculateFinishDates (cd_julianDates jsDatesAndJulianDates) ;;
    let this := with_finishJulianDates this finishes in
    availabilities <- calculateAvailabilities this ;;
    let this := with_availabilities this availabilities in
    clock <- createClock this ;;
    Ok (with_clock this clock).

(** [new TableColumn(name, values, options)] *)
Definition TableColumn (name : string) (values : option (list JS.value))
    (options : option Options) : result Column :=
  let options := defaultValue options EMPTY_OBJECT in
  let unallowedTypes := defaultValue (opt_unallowedTypes options) [] in
  typeAndSubtype <-
    match opt_type options with
    | Some type => Ok (type, opt_subtype options)
    | None => setTypeAndSubTypeFromName name unallowedTypes
    end ;;
  let this :=
    {| name := name;
       options := options;
       _unallowedTypes := unallowedTypes;
       _type := fst typeAndSubtype;
       _subtype := snd typeAndSubtype;
       _values := values;
       _minimumValue := JS.Math_min (JS.apply_args values);
       _maximumValue := JS.Math_max (JS.apply_args values);
       _numericalValues := option_map numerical values;
       _uniqueValues := None;
       _indicesIntoUniqueValues := None;
       _displayVariableTypes := None;
       isVisible := None;
       displayDuration := opt_displayDuration options;
       dates := None;
       julianDates := None;
       finishJulianDates := None;
       _availabilities := None;
       _clock := None |} in
  this <-
    reviseForBadNumbers this
      (defaultValue (opt_replaceWithNullValues options)
         defaultReplaceWithNullValues) ;;
  this <-
    (if match values with Some _ => true | None => false end
        && VarType.eqb (_type this) VarType.TIME
     then initialiseTime this
     else Ok this) ;;
  let this :=
    if JS.isNaN (JS.VNumber (_minimumValue this))
       && VarType.eqb (_type this) VarType.SCALAR
    then with_type this VarType.ENUM
    else this in
  updateForType this.

(** ** Batch helpers *)

(** [[
TableColumn.divideValues = function(numerator, denominator, nanReplace) {
  return denominator.values.map(function(denominatorValue, index) {
      if (denominatorValue === 0 && defined(nanReplace)) {
          return nanReplace;
      }
      return (+numerator.values[index]) / (+denominatorValue);
  });
};
]] *)
Definition divideValues (numerator denominator : Column)
    (nanReplace : JS.value) : result (list JS.value) :=
  denominatorValues <- field (_values denominator) ;;
  mapM (fun indexed : JS.value * nat =>
          let (denominatorValue, index) := indexed in
          if JS.strict_equals denominatorValue (JS.VNumber 0%float)
             && JS.defined nanReplace
          then Ok nanReplace
          else
            numeratorValues <- field (_values numerator) ;;
            Ok (JS.VNumber
                  (JS.ToNumber (JS.get numeratorValues (Z.of_nat index))
                   / JS.ToNumber denominatorValue)%float))
       (combine denominatorValues (List.seq 0 (length denominatorValues))).

(** [[
function zip(arrayOfArrays) {
    return arrayOfArrays[0].map(function(_, secondIndex) {
        return arrayOfArrays.map(function(_, firstIndex) {
            return arrayOfArrays[firstIndex][secondIndex];
        });
    });
}
]]
    The arrays are the [values] of columns, which may be undefined: calling
    [map] on an undefined first array throws, and so does indexing another
    undefined one. *)
Definition zip (arrayOfArrays : list (option (list JS.value)))
    : result (list (list JS.value)) :=
  first <- field (nth 0 arrayOfArrays None) ;;
  mapM (fun secondIndex =>
          mapM (fun array : option (list JS.value) =>
                  array <- field array ;;
                  Ok (JS.get array (Z.of_nat secondIndex)))
               arrayOfArrays)
       (List.seq 0 (length first)).

(** An argument of [sumValues]: a column, or an array of columns. *)
Inductive Argument : Type :=
  | AColumn (column : Column)
  | AColumns (columns : list Column).

(** [column.values]; an array of columns has no such property. *)
Definition argument_values (a : Argument) : option (list JS.value) :=
  match a with
  | AColumn column => _values column
  | AColumns _ => None
  end.

(** [rowValues.reduce(function(x, y) { return (+x) + (+y); })]: without an
    initial value the first element starts the sum as it is, and an empty
    array throws. *)
Definition reduce_sum (rowValues : list JS.value) : result JS.value :=
  match rowValues with
  | [] => Throw TypeError
  | x :: rest =>
      Ok (fold_left
            (fun x y => JS.VNumber (JS.ToNumber x + JS.ToNumber y)%float)
            rest x)
  end.

(** [[
TableColumn.sumValues = function() {
    var columns;
    if (arguments.length === 1) {
        columns = arguments[0];
    } else {
        columns = Array.prototype.slice.call(arguments);
    }
    var allValues = columns.map(function(column) { return column.values; });
    var transposed = zip(allValues);
    return transposed.map(function(rowValues) { return rowValues.reduce(function(x, y) { return (+x) + (+y); }) });
};
]]
    A single argument that is a column has no [map]. *)
Definition sumValues (arguments : list Argument) : result (list JS.value) :=
  columns <-
    match arguments with
    | [AColumns columns] => Ok (map AColumn columns)
    | [AColumn _] => Throw TypeError
    | _ => Ok arguments
    end ;;
  let allValues := map argument_values columns in
  transposed <- zip allValues ;;
  mapM reduce_sum transposed.

End Column.

(* ================================================================== *)
(** * A runtime to run the examples on *)
(* ================================================================== *)

Module Sample.

(** The value of a finite double that is a whole number. *)
Definition whole (x : JS.number) : option Z :=
  match Prim2SF x with
  | S754_zero _ => Some 0
  | S754_finite s m e =>
      if 0 <=? e
      then Some ((if s then -1 else 1) * Zpos m * 2 ^ e)
      else if (Zpos m mod 2 ^ (- e) =? 0)
      then Some ((if s then -1 else 1) * (Zpos m / 2 ^ (- e)))
      else None
  | _ => None
  end.

(** [Number.prototype.toString] on the whole numbers up to [2 ^ 53], whose
    text is their decimal digits, and on NaN.  The examples convert no
    other number to text. *)
Definition Number_toString (x : JS.number) : string :=
  match whole x with
  | Some z =>
      if Z.abs z <=? 2 ^ 53 then NilZero.string_of_int (Z.to_int z) else "NaN"
  | None => "NaN"
  end.

(** [new Date(milliseconds)]; no string of the examples that reaches
    [new Date] is a date. *)
Definition Date_new (v : JS.value) : JsDate :=
  match v with
  | JS.VNumber n => whole n
  | _ => None
  end.

(** The Unix epoch is Julian day 2440587.5.  The runtime serves dates
    between 1 July 2012 and 30 June 2015, when TAI was 35 seconds ahead of
    UTC: the epoch is second 43235 of day 2440587. *)
Definition JulianDate_fromDate (d : JsDate) : result JulianDate.t :=
  match d with
  | Some ms =>
      let t := 43235000 + ms in
      Ok (JulianDate.Make (2440587 + t / 86400000)
            (JS.nearest_double false (t mod 86400000) 1000))
  | None => Throw (DeveloperError "date must be a valid JavaScript Date.")
  end.

Definition JulianDate_toDate (j : JulianDate.t) : JsDate :=
  match JS.exact (JulianDate.secondsOfDay j) with
  | Some seconds =>
      Some (Qfloor
              ((inject_Z ((JulianDate.dayNumber j - 2440587) * 86400 - 43235)
                + seconds) * 1000)%Q)
  | None => None
  end.

(** Midnight UTC of 1 and 2 January 2015: Julian days 2457023.5 and
    2457024.5, and 35 seconds between UTC and TAI. *)
Definition jan1 : JulianDate.t := JulianDate.Make 2457023 43235%float.
Definition jan2 : JulianDate.t := JulianDate.Make 2457024 43235%float.

(** Two instants of 1 January 2015 next to each other among the doubles:
    06:11:40.9999999999927 and 06:11:41 UTC are the seconds [65536 - 2^-37]
    and [65536] of day 2457023 in TAI. *)
Definition beforeTick : JulianDate.t :=
  JulianDate.Make 2457023 0x1.fffffffffffffp+15%float.
Definition tick : JulianDate.t := JulianDate.Make 2457023 65536%float.

Definition JulianDate_fromIso8601 (v : JS.value) : result JulianDate.t :=
  match v with
  | JS.VString s =>
      if String.eqb s "2015-01-01" then Ok jan1
      else if String.eqb s "2015-01-02" then Ok jan2
      else if String.eqb s "2015-01-01T06:11:40.9999999999927Z"
      then Ok beforeTick
      else if String.eqb s "2015-01-01T06:11:41Z" then Ok tick
      else Throw (DeveloperError "Invalid ISO 8601 date.")
  | _ => Throw (DeveloperError "Invalid ISO 8601 date.")
  end.

Definition runtime : Runtime :=
  Build_Runtime Number_toString Date_new JulianDate_fromDate
    JulianDate_fromIso8601 JulianDate_toDate.

End Sample.

(* ================================================================== *)
(** * Properties *)
(* ================================================================== *)

Unset Implicit Arguments.

(** ** Throwing code *)

Lemma bind_Ok {A B : Type} (r : result A) (k : A -> result B) (b : B) :
  bind r k = Ok b -> exists a, r = Ok a /\ k a = Ok b.
Proof. destruct r as [a|e]; simpl; [eauto | discriminate]. Qed.

Lemma bind_Throw {A B : Type} (r : result A) (k : A -> result B) (e : error) :
  bind r k = Throw e -> r = Throw e \/ exists a, r = Ok a /\ k a = Throw e.
Proof. destruct r as [a|e']; simpl; [eauto | intros [= ->]; now left]. Qed.

Lemma mapM_Throw {A B : Type} (f : A -> result B) (l : list A) (e : error) :
  mapM f l = Throw e -> exists x, In x l /\ f x = Throw e.
Proof.
  induction l as [|x l IH]; simpl; [discriminate|].
  destruct (f x) as [y|e'] eqn:Hx; simpl.
  - destruct (mapM f l) as [ys|e'']; simpl; [discriminate|].
    intros [= ->]. destruct IH as (x' & Hin & Hx'); eauto.
  - intros [= ->]. eauto.
Qed.

Lemma mapM_Ok {A B : Type} (f : A -> result B) (l : list A) :
  (forall x, In x l -> exists y, f x = Ok y) ->
  exists ys, mapM f l = Ok ys /\ length ys = length l.
Proof.
  induction l as [|x l IH]; simpl; intros H; [now exists []|].
  destruct (H x) as (y & ->); [now left|].
  destruct IH as (ys & -> & Hlen); [intros; apply H; now right|].
  exists (y :: ys); simpl; auto.
Qed.

Lemma mapM_Ok_nth {A B : Type} (f : A -> result B) (l : list A) (ys : list B) :
  mapM f l = Ok ys ->
  length ys = length l /\
  forall i x, nth_error l i = Some x ->
    exists y, nth_error ys i = Some y /\ f x = Ok y.
Proof.
  revert ys; induction l as [|x l IH]; simpl; intros ys.
  - intros [= <-]; split; [reflexivity|]. intros [|i] x; discriminate.
  - destruct (f x) as [y|] eqn:Hx; simpl; [|discriminate].
    destruct (mapM f l) as [ys'|]; simpl; [|discriminate].
    intros [= <-]. destruct (IH ys' eq_refl) as [Hlen Hnth].
    split; [simpl; congruence|].
    intros [|i] x'; simpl.
    + intros [= <-]; eauto.
    + apply Hnth.
Qed.

(** ** [indexOf] *)

Section IndexOf.

Variable A : Type.
Variable eq : A -> A -> bool.

Lemma indexOf_from_range (i : Z) (l : list A) (v : A) :
  JS.indexOf_from eq i l v = -1 \/
  (i <= JS.indexOf_from eq i l v < i + Z.of_nat (length l)).
Proof.
  revert i; induction l as [|x l IH]; intros i; simpl; [now left|].
  destruct (eq x v); [right; lia|].
  destruct (IH (i + 1)) as [H|H]; [now left | right; lia].
Qed.

Lemma indexOf_from_absent (i : Z) (l : list A) (v : A) :
  0 <= i ->
  (JS.indexOf_from eq i l v = -1 <-> forall x, In x l -> eq x v = false).
Proof.
  revert i; induction l as [|x l IH]; intros i Hi; simpl.
  - split; [intros _ x [] | reflexivity].
  - destruct (eq x v) eqn:Hx.
    + split; [lia|]. intros H. rewrite (H x) in Hx; [discriminate | now left].
    + rewrite IH by lia. split.
      * intros H y [<-|Hy]; auto.
      * intros H y Hy; apply H; now right.
Qed.

Lemma indexOf_from_found (i : Z) (l : list A) (v : A) :
  0 <= i -> JS.indexOf_from eq i l v <> -1 ->
  exists x, nth_error l (Z.to_nat (JS.indexOf_from eq i l v - i)) = Some x
            /\ eq x v = true.
Proof.
  revert i; induction l as [|x l IH]; intros i Hi; simpl; [congruence|].
  destruct (eq x v) eqn:Hx.
  - intros _. replace (i - i) with 0 by lia. simpl; eauto.
  - intros Hk. destruct (IH (i + 1)) as (y & Hy & Hyv); [lia | assumption |].
    exists y; split; [|assumption].
    destruct (indexOf_from_range (i + 1) l v) as [H|H]; [congruence|].
    replace (Z.to_nat (JS.indexOf_from eq (i + 1) l v - i))
      with (S (Z.to_nat (JS.indexOf_from eq (i + 1) l v - (i + 1)))) by lia.
    exact Hy.
Qed.

End IndexOf.

Lemma VarType_absent (types : list VarType.t) (t : VarType.t) :
  JS.indexOf_from VarType.eqb 0 types t = -1 <-> ~ In t types.
Proof.
  rewrite indexOf_from_absent by lia. split.
  - intros H Hin. specialize (H t Hin). now rewrite VarType.eqb_refl in H.
  - intros H x Hx. destruct (VarType.eqb_spec x t); [subst; tauto | reflexivity].
Qed.

Lemma VarType_present (types : list VarType.t) (t : VarType.t) :
  (0 <=? JS.indexOf_from VarType.eqb 0 types t) = true <-> In t types.
Proof.
  destruct (indexOf_from_range _ VarType.eqb 0 types t) as [H|H].
  - rewrite H. split; [discriminate|]. intros Hin.
    apply VarType_absent in H. tauto.
  - split; intros _; [|apply Z.leb_le; lia].
    destruct (in_dec (fun a b => match VarType.eqb_spec a b with
                                 | ReflectT _ p => left p
                                 | ReflectF _ p => right p
                                 end) t types) as [Hin|Hout]; [assumption|].
    apply VarType_absent in Hout. lia.
Qed.

(** ** Guessing the type from the name *)

(** A rule applies to a name when its pattern matches the name and its type
    is not among the unallowed ones. *)
Definition rule_applies (name : string) (unallowedTypes : list VarType.t)
    (h : hint VarType.t) : Prop :=
  test (hint_re h) name = true /\ ~ In (hint_type h) unallowedTypes.

Lemma applyHintsToName_first (hintSet : list (hint VarType.t)) (name : string)
    (unallowedTypes : list VarType.t) :
  forall skipped h later,
    hintSet = skipped ++ h :: later ->
    rule_applies name unallowedTypes h ->
    (forall h', In h' skipped -> ~ rule_applies name unallowedTypes h') ->
    applyHintsToName VarType.eqb hintSet name unallowedTypes = Some (hint_type h).
Proof.
  intros skipped; revert hintSet.
  induction skipped as [|h0 skipped IH]; intros hintSet h later -> [Ht Hin] Hskip;
    simpl.
  - rewrite Ht. apply VarType_absent in Hin. now rewrite Hin.
  - assert (H0 : ~ rule_applies name unallowedTypes h0) by (apply Hskip; now left).
    assert (IH' : applyHintsToName VarType.eqb (skipped ++ h :: later) name
                    unallowedTypes = Some (hint_type h)).
    { apply (IH _ h later eq_refl); [now split|].
      intros h' Hh'; apply Hskip; now right. }
    destruct (test (hint_re h0) name) eqn:Ht0; [|assumption].
    destruct (JS.indexOf_from VarType.eqb 0 unallowedTypes (hint_type h0) =? -1)
      eqn:Hi; [|assumption].
    exfalso; apply H0; split; [assumption|].
    apply VarType_absent, Z.eqb_eq, Hi.
Qed.

Lemma applyHintsToName_none (hintSet : list (hint VarType.t)) (name : string)
    (unallowedTypes : list VarType.t) :
  applyHintsToName VarType.eqb hintSet name unallowedTypes = None <->
  forall h, In h hintSet -> ~ rule_applies name unallowedTypes h.
Proof.
  induction hintSet as [|h0 hintSet IH]; simpl.
  - split; [intros _ h [] | reflexivity].
  - destruct (test (hint_re h0) name) eqn:Ht0.
    + destruct (JS.indexOf_from VarType.eqb 0 unallowedTypes (hint_type h0) =? -1)
        eqn:Hi.
      * split; [discriminate|]. intros H. exfalso; apply (H h0); [now left|].
        split; [assumption|]. apply VarType_absent, Z.eqb_eq, Hi.
      * rewrite IH. split.
        -- intros H h [<-|Hh]; [|now apply H].
           intros [_ Hn]. apply VarType_absent in Hn. rewrite Hn in Hi.
           discriminate.
        -- intros H h Hh; apply H; now right.
    + rewrite IH. split.
      * intros H h [<-|Hh]; [|now apply H]. intros [Ht _]; congruence.
      * intros H h Hh; apply H; now right.
Qed.

(** C7.  With no explicit type, the type comes from the first rule of
    [typeHintSet], in the order LON, LAT, ALT, TIME (names with time or
    date), TIME (the name year), ENUM, whose pattern matches the name and
    whose type is not unallowed: rules before it that match but are
    unallowed are passed over.  When no rule applies the type is SCALAR;
    the one construction that yields no type at all is the one where SCALAR
    itself is unallowed, which throws. *)
Theorem inferred_type_is_first_applicable_rule
    (name : string) (unallowedTypes : list VarType.t) :
  map (@hint_type VarType.t) typeHintSet
    = [VarType.LON; VarType.LAT; VarType.ALT; VarType.TIME; VarType.TIME;
       VarType.ENUM]
  /\ (forall skipped h later,
        typeHintSet = skipped ++ h :: later ->
        rule_applies name unallowedTypes h ->
        (forall h', In h' skipped -> ~ rule_applies name unallowedTypes h') ->
        exists subtype,
          setTypeAndSubTypeFromName name unallowedTypes
            = Ok (hint_type h, subtype))
  /\ ((forall h, In h typeHintSet -> ~ rule_applies name unallowedTypes h) ->
      (~ In VarType.SCALAR unallowedTypes ->
       exists subtype,
         setTypeAndSubTypeFromName name unallowedTypes
           = Ok (VarType.SCALAR, subtype))
      /\ (In VarType.SCALAR unallowedTypes ->
          exists e, setTypeAndSubTypeFromName name unallowedTypes = Throw e)).
Proof.
  split; [reflexivity|]. split.
  - intros skipped h later Hset Happ Hskip.
    unfold setTypeAndSubTypeFromName.
    rewrite (@applyHintsToName_first typeHintSet name unallowedTypes
               skipped h later Hset Happ Hskip). simpl. eauto.
  - intros Hnone. apply applyHintsToName_none in Hnone.
    unfold setTypeAndSubTypeFromName. rewrite Hnone.
    split; intros Hs.
    + destruct (0 <=? JS.indexOf_from VarType.eqb 0 unallowedTypes VarType.SCALAR)
        eqn:Hi; [|simpl; eauto].
      apply VarType_present in Hi. tauto.
    + apply VarType_present in Hs. rewrite Hs. simpl. eauto.
Qed.

(** ** Which errors construction can raise *)

Definition throws_only {A : Type} (P : error -> Prop) (r : result A) : Prop :=
  forall e, r = Throw e -> P e.

Lemma throws_only_Ok {A : Type} (P : error -> Prop) (a : A) :
  throws_only P (Ok a).
Proof. intros e; discriminate. Qed.

Lemma throws_only_bind {A B : Type} (P : error -> Prop) (r : result A)
    (k : A -> result B) :
  throws_only P r -> (forall a, throws_only P (k a)) ->
  throws_only P (bind r k).
Proof.
  intros Hr Hk e He. apply bind_Throw in He as [He | (a & _ & He)].
  - now apply Hr.
  - now apply (Hk a).
Qed.

Lemma throws_only_mapM {A B : Type} (P : error -> Prop) (f : A -> result B)
    (l : list A) :
  (forall x, throws_only P (f x)) -> throws_only P (mapM f l).
Proof.
  intros Hf e He. apply mapM_Throw in He as (x & _ & Hx). now apply (Hf x).
Qed.

(** The errors of the code that runs once the type is settled: a property
    read off an undefined field, or a date missing where Cesium needs one. *)
Definition late_error (e : error) : Prop :=
  e = TypeError \/ e = DeveloperError "julianDate is required.".

Lemma throws_only_field {A : Type} (x : option A) :
  throws_only late_error (field x).
Proof. destruct x; intros e; simpl; [discriminate | intros [= <-]; now left]. Qed.

Ltac throws :=
  repeat first
    [ apply throws_only_Ok
    | apply throws_only_field
    | apply throws_only_bind; [|intro]
    | apply throws_only_mapM; intro
    | match goal with
      | |- throws_only _ (if ?b then _ else _) => destruct b
      | |- throws_only _ (match ?x with _ => _ end) => destruct x
      | |- throws_only _ (let (_, _) := ?x in _) => destruct x
      end ].

Section Errors.

Variable R : Runtime.

Lemma reviseForBadNumbers_throws (c : Column) (l : list JS.value) :
  throws_only late_error (reviseForBadNumbers c l).
Proof. unfold reviseForBadNumbers. throws. Qed.

Lemma updateForType_throws (c : Column) :
  throws_only late_error (updateForType c).
Proof. unfold updateForType. throws. Qed.

Lemma calculateAvailability_throws (c : Column) (index : nat) :
  throws_only late_error (calculateAvailability c index).
Proof.
  unfold calculateAvailability. throws.
  intros e [= <-]; now right.
Qed.

Lemma calculateFinishDates_throws (l : list JulianDate.t) :
  throws_only late_error (calculateFinishDates l).
Proof.
  unfold calculateFinishDates, endDates. throws.
  intros e [= <-]; now right.
Qed.

Lemma createClock_throws (c : Column) :
  throws_only late_error (createClock c).
Proof. unfold createClock. throws. Qed.

Lemma initialiseTime_throws (c : Column) :
  throws_only late_error (initialiseTime R c).
Proof.
  unfold initialiseTime.
  apply throws_only_bind; [unfold convertToDates; throws | intro converted].
  destruct (length (cd_jsDates converted) =? 0)%nat; [throws|].
  apply throws_only_bind; [apply calculateFinishDates_throws | intro].
  apply throws_only_bind; [|intro].
  - unfold calculateAvailabilities.
    apply throws_only_bind; [throws | intro].
    apply throws_only_mapM; intro. apply calculateAvailability_throws.
  - apply throws_only_bind; [apply createClock_throws | intro; throws].
Qed.

(** The configuration error comes from the guess of the type and from
    nowhere else. *)
Lemma TableColumn_Throw (name : string) (values : option (list JS.value))
    (options : option Options) (e : error) :
  TableColumn R name values options = Throw e ->
  (opt_type (defaultValue options EMPTY_OBJECT) = None
   /\ setTypeAndSubTypeFromName name
        (defaultValue (opt_unallowedTypes (defaultValue options EMPTY_OBJECT)) [])
      = Throw e)
  \/ late_error e.
Proof.
  unfold TableColumn. intros H.
  apply bind_Throw in H as [H | (ts & _ & H)].
  - left. destruct (opt_type (defaultValue options EMPTY_OBJECT));
      [discriminate | auto].
  - right. revert e H.
    apply throws_only_bind; [apply reviseForBadNumbers_throws | intro].
    apply throws_only_bind.
    + match goal with |- throws_only _ (if ?b then _ else _) => destruct b end;
        [apply initialiseTime_throws | throws].
    + intro. apply updateForType_throws.
Qed.

End Errors.

(** C8.  Construction throws "No suitable variable type found." exactly when
    no type is given, no rule of [typeHintSet] applies to the name, and
    SCALAR is among the unallowed types.  The constructor then returns no
    column at all ([Throw] carries none); in every other case the outcome is
    a column or another error. *)
Theorem no_suitable_type_iff (R : Runtime) (name : string)
    (values : option (list JS.value)) (options : option Options) :
  TableColumn R name values options
    = Throw (DeveloperError "No suitable variable type found.")
  <->
  (opt_type (defaultValue options EMPTY_OBJECT) = None
   /\ (forall h, In h typeHintSet ->
         ~ rule_applies name
             (defaultValue (opt_unallowedTypes (defaultValue options EMPTY_OBJECT)) [])
             h)
   /\ In VarType.SCALAR
        (defaultValue (opt_unallowedTypes (defaultValue options EMPTY_OBJECT)) [])).
Proof.
  set (o := defaultValue options EMPTY_OBJECT).
  set (un := defaultValue (opt_unallowedTypes o) []).
  split.
  - intros H. apply TableColumn_Throw in H as [[Hty H] | [H | H]];
      [|discriminate..].
    fold o in Hty, H. fold un in H.
    split; [assumption|].
    unfold setTypeAndSubTypeFromName in H.
    destruct (applyHintsToName VarType.eqb typeHintSet name un) eqn:Hg;
      [discriminate|].
    split; [now apply applyHintsToName_none|].
    destruct (0 <=? JS.indexOf_from VarType.eqb 0 un VarType.SCALAR) eqn:Hi;
      [now apply VarType_present | discriminate].
  - intros (Hty & Hnone & Hs).
    unfold TableColumn. fold o. fold un. rewrite Hty.
    unfold setTypeAndSubTypeFromName.
    apply applyHintsToName_none in Hnone. rewrite Hnone.
    apply VarType_present in Hs. rewrite Hs. reflexivity.
Qed.

(** ** The Revenue column *)

Definition revenueStrings : list JS.value :=
  [JS.VString "-"; JS.VString "100"; JS.VString "na"; JS.VString "250"].

Definition revenueNumbers : list JS.value :=
  [JS.VString "-"; JS.VNumber 100%float; JS.VString "na";
   JS.VNumber 250%float].

(** C1, as the spec states it, fails on the column of strings: no cell is
    of type number, so [reviseForBadNumbers] leaves the values alone, the
    minimum stays NaN and the column ends as an ENUM. *)
Lemma revenue_strings_are_not_repaired :
  ~ exists c,
      TableColumn Sample.runtime "Revenue" (Some revenueStrings) None = Ok c
      /\ _values c
         = Some [JS.VNull; JS.VString "100"; JS.VNull; JS.VString "250"]
      /\ _minimumValue c = 100%float
      /\ _maximumValue c = 250%float
      /\ _type c = VarType.SCALAR.
Proof.
  intros (c & Hc & _ & _ & _ & Hty).
  vm_compute in Hc. injection Hc as <-. discriminate Hty.
Qed.

(** After the repair of the column with numbers, [Math.min] reads each
    [null] as 0: the minimum is 0. *)
Remark revenue_numbers_minimum (R : Runtime) :
  exists c,
    TableColumn R "Revenue" (Some revenueNumbers) None = Ok c
    /\ _minimumValue c = 0%float.
Proof. eexists; split; [vm_compute; reflexivity | reflexivity]. Qed.

(** C1, amended.  In the Revenue column whose numeric cells are numbers,
    ["-"] and ["na"] are replaced by null, the maximum is 250 and the type
    stays SCALAR.  In the Revenue column whose cells are all strings nothing
    is replaced, minimum and maximum are NaN and the type ends as ENUM. *)
Theorem revenue_column (R : Runtime) :
  (exists c,
     TableColumn R "Revenue" (Some revenueNumbers) None = Ok c
     /\ _values c
        = Some [JS.VNull; JS.VNumber 100%float; JS.VNull;
                JS.VNumber 250%float]
     /\ _maximumValue c = 250%float
     /\ _type c = VarType.SCALAR)
  /\ (exists c,
        TableColumn R "Revenue" (Some revenueStrings) None = Ok c
        /\ _values c = Some revenueStrings
        /\ _minimumValue c = JS.NaN
        /\ _maximumValue c = JS.NaN
        /\ _type c = VarType.ENUM).
Proof.
  split; eexists; (split; [vm_compute; reflexivity | repeat split]).
Qed.

(** ** Indices into the unique values *)

(** [v !== v]: the one value that is not strictly equal to itself. *)
Definition is_NaN_value (v : JS.value) : bool :=
  match v with
  | JS.VNumber n => is_nan n
  | _ => false
  end.

Lemma strict_equals_refl (v : JS.value) :
  is_NaN_value v = false -> JS.strict_equals v v = true.
Proof.
  destruct v as [| |n|s]; simpl; auto.
  - unfold is_nan. now destruct (n =? n)%float.
  - intros _. apply String.eqb_refl.
Qed.

Lemma indexOf_present (l : list JS.value) (v : JS.value) :
  (exists u, In u l /\ JS.strict_equals u v = true) ->
  exists u, nth_error l (Z.to_nat (JS.indexOf l v)) = Some u
            /\ JS.strict_equals u v = true /\ 0 <= JS.indexOf l v.
Proof.
  intros (u & Hin & Hu). unfold JS.indexOf.
  assert (Hne : JS.indexOf_from JS.strict_equals 0 l v <> -1).
  { intros Habs.
    pose proof (proj1 (indexOf_from_absent _ JS.strict_equals 0 l v (Z.le_refl 0))
                  Habs u Hin) as Hf.
    rewrite Hf in Hu. discriminate. }
  destruct (indexOf_from_found _ JS.strict_equals 0 l v (Z.le_refl 0) Hne)
    as (x & Hx & Hxv).
  rewrite Z.sub_0_r in Hx. exists x. repeat split; try assumption.
  destruct (indexOf_from_range _ JS.strict_equals 0 l v); lia.
Qed.

Lemma getUniqueValues_onto_keeps (kept l : list JS.value) :
  exists more, getUniqueValues_onto kept l = kept ++ more.
Proof.
  revert kept; induction l as [|v l IH]; intros kept; simpl.
  - exists []. now rewrite app_nil_r.
  - destruct (JS.indexOf kept v =? -1).
    + destruct (IH (kept ++ [v])) as (more & ->).
      exists (v :: more). now rewrite <- app_assoc.
    + apply IH.
Qed.

Lemma getUniqueValues_onto_complete (kept l : list JS.value) (v : JS.value) :
  In v l -> is_NaN_value v = false ->
  exists u, In u (getUniqueValues_onto kept l) /\ JS.strict_equals u v = true.
Proof.
  revert kept; induction l as [|x l IH]; intros kept; simpl; [tauto|].
  intros [->|Hin] Hv.
  - destruct (JS.indexOf kept v =? -1) eqn:Hi.
    + destruct (getUniqueValues_onto_keeps (kept ++ [v]) l) as (more & ->).
      exists v. split; [|now apply strict_equals_refl].
      apply in_or_app; left. apply in_or_app; right. now left.
    + apply Z.eqb_neq in Hi.
      destruct (indexOf_from_found _ JS.strict_equals 0 kept v (Z.le_refl 0) Hi)
        as (u & Hu & Huv).
      destruct (getUniqueValues_onto_keeps kept l) as (more & ->).
      exists u. split; [|assumption].
      apply in_or_app; left. eapply nth_error_In; eassumption.
  - destruct (JS.indexOf kept x =? -1); now apply IH.
Qed.

(** The rows of a column whose cell is not NaN point at their own value. *)
Definition rows_point_at_values (values uniqueValues : list JS.value)
    (indices : list Z) : Prop :=
  length indices = length values /\
  forall i v,
    nth_error values i = Some v -> is_NaN_value v = false ->
    exists k u,
      nth_error indices i = Some k /\ 0 <= k
      /\ nth_error uniqueValues (Z.to_nat k) = Some u
      /\ JS.strict_equals u v = true.

Lemma indices_point_at_values (values : list JS.value) :
  rows_point_at_values values (getUniqueValues values)
    (map (fun value => JS.indexOf (getUniqueValues values) value) values).
Proof.
  split; [apply length_map|].
  intros i v Hi Hv.
  destruct (indexOf_present (getUniqueValues values) v) as (u & Hu & Huv & Hk).
  { apply getUniqueValues_onto_complete; [|assumption].
    eapply nth_error_In; eassumption. }
  exists (JS.indexOf (getUniqueValues values) v), u.
  repeat split; try assumption.
  rewrite nth_error_map, Hi. reflexivity.
Qed.

(** What [updateForType] establishes, whatever the column was before. *)
Definition views_consistent (c : Column) : Prop :=
  (usesIndicesIntoUniqueValues c = true ->
   exists values uniqueValues indices,
     _values c = Some values
     /\ _uniqueValues c = Some uniqueValues
     /\ _indicesIntoUniqueValues c = Some indices
     /\ indicesOrNumericalValues c = inl (Some indices)
     /\ rows_point_at_values values uniqueValues indices)
  /\ (usesIndicesIntoUniqueValues c = false ->
      _uniqueValues c = None
      /\ indicesOrNumericalValues c = inr (_numericalValues c)).

Lemma updateForType_fields (c c' : Column) :
  updateForType c = Ok c' ->
  _type c' = _type c /\ _values c' = _values c
  /\ _minimumValue c' = _minimumValue c
  /\ _numericalValues c' = _numericalValues c
  /\ (if usesIndicesIntoUniqueValues c
      then exists values,
             _values c = Some values
             /\ _uniqueValues c' = Some (getUniqueValues values)
             /\ _indicesIntoUniqueValues c'
                = Some (map (fun value =>
                               JS.indexOf (getUniqueValues values) value)
                          values)
      else _uniqueValues c' = None
           /\ _indicesIntoUniqueValues c' = _indicesIntoUniqueValues c).
Proof.
  unfold updateForType.
  change (usesIndicesIntoUniqueValues (with_uniqueValues c None))
    with (usesIndicesIntoUniqueValues c).
  destruct (usesIndicesIntoUniqueValues c).
  - change (_values (with_uniqueValues c None)) with (_values c).
    destruct (_values c) as [values|] eqn:Hv; [|discriminate].
    simpl. destruct (opt_displayVariableTypes (options c));
      intros [= <-]; simpl; repeat split; try assumption; eauto.
  - simpl. destruct (opt_displayVariableTypes (options c));
      intros [= <-]; simpl; eauto 10.
Qed.

Lemma updateForType_uses (c c' : Column) :
  updateForType c = Ok c' ->
  usesIndicesIntoUniqueValues c' = usesIndicesIntoUniqueValues c.
Proof.
  intros H. apply updateForType_fields in H as (Ht & _ & Hm & _).
  unfold usesIndicesIntoUniqueValues. now rewrite Ht, Hm.
Qed.

Lemma updateForType_views (c c' : Column) :
  updateForType c = Ok c' -> views_consistent c'.
Proof.
  intros H. pose proof (updateForType_uses _ _ H) as Hu.
  apply updateForType_fields in H as (Ht & Hv & Hm & Hn & H).
  unfold views_consistent, indicesOrNumericalValues. rewrite Hu.
  destruct (usesIndicesIntoUniqueValues c).
  - split; [intros _ | discriminate].
    destruct H as (values & Hvs & Hq & Hi).
    exists values, (getUniqueValues values). eexists.
    rewrite Hv, Hq, Hi.
    pose proof (indices_point_at_values values) as [Hlen Hrows].
    repeat split; assumption.
  - split; [discriminate | intros _]. now destruct H as [-> _].
Qed.

(** The columns a caller can hold: a constructed column, and what the
    setters of [type] and [subtype] make of it. *)
Inductive reachable (R : Runtime) : Column -> Prop :=
  | reachable_new name values options c :
      TableColumn R name values options = Ok c -> reachable R c
  | reachable_set_type c type c' :
      reachable R c -> set_type c type = Ok c' -> reachable R c'
  | reachable_set_subtype c subtype c' :
      reachable R c -> set_subtype c subtype = Ok c' -> reachable R c'.

(** A column with no values has a minimum that is a number. *)
Definition minimum_of_no_values (c : Column) : Prop :=
  _values c = None -> is_nan (_minimumValue c) = false.

Lemma reviseForBadNumbers_fields (c c' : Column) (l : list JS.value) :
  reviseForBadNumbers c l = Ok c' ->
  _type c' = _type c
  /\ _indicesIntoUniqueValues c' = _indicesIntoUniqueValues c
  /\ (minimum_of_no_values c -> minimum_of_no_values c').
Proof.
  unfold reviseForBadNumbers.
  destruct (JS.isNaN (JS.VNumber (_minimumValue c))
            && VarType.eqb (_type c) VarType.SCALAR);
    [|intros [= <-]; auto].
  destruct (_numericalValues c) as [numericalValues|]; [|discriminate].
  simpl. destruct (0 <? length numericalValues)%nat; [|intros [= <-]; auto].
  destruct (_values c); [|discriminate].
  simpl. intros [= <-]. simpl. repeat split. intros _. discriminate.
Qed.

Lemma initialiseTime_fields (R : Runtime) (c c' : Column) :
  initialiseTime R c = Ok c' ->
  _values c' = _values c
  /\ _minimumValue c' = _minimumValue c
  /\ _indicesIntoUniqueValues c' = _indicesIntoUniqueValues c.
Proof.
  unfold initialiseTime. intros H.
  apply bind_Ok in H as (converted & _ & H).
  destruct (length (cd_jsDates converted) =? 0)%nat.
  - injection H as <-. repeat split.
  - apply bind_Ok in H as (finishes & _ & H).
    apply bind_Ok in H as (availabilities & _ & H).
    apply bind_Ok in H as (clock & _ & H).
    injection H as <-. repeat split.
Qed.

(** The column the constructor hands to [updateForType]. *)
Lemma TableColumn_Ok (R : Runtime) (name : string)
    (values : option (list JS.value)) (options : option Options) (c : Column) :
  TableColumn R name values options = Ok c ->
  exists c0,
    updateForType c0 = Ok c
    /\ _indicesIntoUniqueValues c0 = None
    /\ minimum_of_no_values c0.
Proof.
  unfold TableColumn. intros H.
  apply bind_Ok in H as (typeAndSubtype & _ & H).
  apply bind_Ok in H as (c1 & H1 & H).
  apply bind_Ok in H as (c2 & H2 & H).
  apply reviseForBadNumbers_fields in H1 as (_ & Hi1 & Hm1).
  assert (Hc2 : _indicesIntoUniqueValues c2 = _indicesIntoUniqueValues c1
                /\ _values c2 = _values c1
                /\ _minimumValue c2 = _minimumValue c1).
  { match type of H2 with
    | (if ?b then _ else _) = _ => destruct b
    end.
    - apply initialiseTime_fields in H2 as (? & ? & ?). auto.
    - injection H2 as <-. auto. }
  destruct Hc2 as (Hi2 & Hv2 & Hm2).
  eexists. split; [exact H|].
  assert (Hm : minimum_of_no_values c1).
  { apply Hm1. unfold minimum_of_no_values. simpl. now intros ->. }
  assert (Hgoal : _indicesIntoUniqueValues c2 = None /\ minimum_of_no_values c2).
  { split; [now rewrite Hi2, Hi1|].
    unfold minimum_of_no_values. rewrite Hv2, Hm2. exact Hm. }
  match goal with
  | |- context [if ?b then _ else _] => destruct b
  end; [|exact Hgoal].
  destruct Hgoal as [Hi Hmin]. split; [exact Hi|].
  unfold minimum_of_no_values in *. simpl. exact Hmin.
Qed.

Lemma updateForType_Ok (c : Column) :
  minimum_of_no_values c -> exists c', updateForType c = Ok c'.
Proof.
  intros Hm. unfold updateForType.
  change (usesIndicesIntoUniqueValues (with_uniqueValues c None))
    with (usesIndicesIntoUniqueValues c).
  destruct (usesIndicesIntoUniqueValues c) eqn:Hu.
  - change (_values (with_uniqueValues c None)) with (_values c).
    destruct (_values c) as [values|] eqn:Hv.
    + simpl. destruct (opt_displayVariableTypes (options c)); eauto.
    + unfold usesIndicesIntoUniqueValues, JS.isNaN in Hu. simpl in Hu.
      rewrite (Hm Hv) in Hu. discriminate.
  - simpl. destruct (opt_displayVariableTypes (options c)); eauto.
Qed.

Lemma reachable_minimum (R : Runtime) (c : Column) :
  reachable R c -> minimum_of_no_values c.
Proof.
  induction 1 as [name values options c H | c type c' _ IH H
                 | c subtype c' _ IH H].
  - apply TableColumn_Ok in H as (c0 & H & _ & Hm).
    apply updateForType_fields in H as (_ & Hv & Hmin & _).
    unfold minimum_of_no_values. now rewrite Hv, Hmin.
  - apply updateForType_fields in H as (_ & Hv & Hmin & _).
    unfold minimum_of_no_values. rewrite Hv, Hmin. exact IH.
  - injection H as <-. exact IH.
Qed.

Lemma reachable_views (R : Runtime) (c : Column) :
  reachable R c -> views_consistent c.
Proof.
  induction 1 as [name values options c H | c type c' _ IH H
                 | c subtype c' _ IH H].
  - apply TableColumn_Ok in H as (c0 & H & _). now apply updateForType_views in H.
  - now apply updateForType_views in H.
  - injection H as <-. exact IH.
Qed.

(** C3, as the spec states it, fails after an assignment to [type]:
    [updateForType] clears [_uniqueValues] and leaves
    [_indicesIntoUniqueValues] as it was.  The column of postcodes ["a"] and
    ["b"] keeps its indices when its type is set to SCALAR.  It also fails on
    a row whose value is NaN: [indexOf] finds no NaN, and the index of that
    row is -1. *)
Lemma stale_indices_after_type_change :
  (exists c c',
     TableColumn Sample.runtime "Postcode"
       (Some [JS.VString "a"; JS.VString "b"]) None = Ok c
     /\ set_type c VarType.SCALAR = Ok c'
     /\ usesIndicesIntoUniqueValues c' = false
     /\ _indicesIntoUniqueValues c' = Some [0; 1])
  /\ (exists c,
        TableColumn Sample.runtime "Postcode"
          (Some [JS.VString "a"; JS.VNumber JS.NaN]) None = Ok c
        /\ usesIndicesIntoUniqueValues c = true
        /\ _indicesIntoUniqueValues c = Some [0; -1]).
Proof.
  split.
  - do 2 eexists. split; [vm_compute; reflexivity|].
    split; [vm_compute; reflexivity|]. split; reflexivity.
  - eexists. split; [vm_compute; reflexivity|]. split; reflexivity.
Qed.

(** C3, amended.  After construction [_indicesIntoUniqueValues] is defined
    if and only if [usesIndicesIntoUniqueValues] is true.  After
    construction and after every assignment to [type] (which never throws),
    when [usesIndicesIntoUniqueValues] is true the indices are defined,
    [indicesOrNumericalValues] returns them, and every row whose value is
    not NaN points at a unique value strictly equal to its own; when it is
    false [uniqueValues] is undefined and [indicesOrNumericalValues]
    returns the numerical values. *)
Theorem indices_into_unique_values (R : Runtime) :
  (forall name values options c,
     TableColumn R name values options = Ok c ->
     (_indicesIntoUniqueValues c <> None
      <-> usesIndicesIntoUniqueValues c = true))
  /\ (forall c, reachable R c -> views_consistent c)
  /\ (forall c type, reachable R c ->
        exists c', set_type c type = Ok c' /\ reachable R c').
Proof.
  split; [|split].
  - intros name values options c H.
    apply TableColumn_Ok in H as (c0 & H & Hnone & _).
    pose proof (updateForType_uses _ _ H) as Hu.
    apply updateForType_fields in H as (_ & _ & _ & _ & H).
    rewrite Hu. destruct (usesIndicesIntoUniqueValues c0).
    + destruct H as (vs & _ & _ & ->). split; [reflexivity | discriminate].
    + destruct H as [_ ->]. rewrite Hnone. split; [congruence | discriminate].
  - apply reachable_views.
  - intros c type Hc.
    destruct (updateForType_Ok (with_type c type)) as (c' & Hc').
    { pose proof (reachable_minimum R c Hc) as Hm. exact Hm. }
    exists c'. split; [exact Hc'|]. eapply reachable_set_type; eassumption.
Qed.
(** ** Doubles *)

(** What the operations of IEEE 754 do on two doubles is fixed by
    [SpecFloat]: each computes a mantissa and an exponent with a location
    of the exact result, and rounds once.  The lemmas below follow a result
    that needs no rounding through those definitions. *)

Section Doubles.

Local Abbreviation fexp := (SpecFloat.fexp prec emax).
Local Abbreviation canonical_mantissa := (SpecFloat.canonical_mantissa prec emax).
Local Abbreviation binary_round_aux := (SpecFloat.binary_round_aux prec emax).

(** *** Digits *)

Lemma digits2_pos_spec (m : positive) :
  2 ^ (Zpos (digits2_pos m) - 1) <= Zpos m < 2 ^ Zpos (digits2_pos m).
Proof.
  induction m as [m IH|m IH|]; cbn [digits2_pos].
  - rewrite Pos2Z.inj_succ. change (Zpos m~1) with (2 * Zpos m + 1).
    replace (Z.succ (Zpos (digits2_pos m)) - 1)
      with (Z.succ (Zpos (digits2_pos m) - 1)) by lia.
    rewrite !Z.pow_succ_r by lia.
    set (low := 2 ^ (Zpos (digits2_pos m) - 1)) in *.
    set (high := 2 ^ Zpos (digits2_pos m)) in *. clearbody low high. lia.
  - rewrite Pos2Z.inj_succ. change (Zpos m~0) with (2 * Zpos m).
    replace (Z.succ (Zpos (digits2_pos m)) - 1)
      with (Z.succ (Zpos (digits2_pos m) - 1)) by lia.
    rewrite !Z.pow_succ_r by lia.
    set (low := 2 ^ (Zpos (digits2_pos m) - 1)) in *.
    set (high := 2 ^ Zpos (digits2_pos m)) in *. clearbody low high. lia.
  - simpl. lia.
Qed.

(** A number that reaches [2 ^ k] has more than [k] digits. *)
Lemma digits2_pos_above (m : positive) (k : Z) :
  0 <= k -> 2 ^ k <= Zpos m -> k < Zpos (digits2_pos m).
Proof.
  intros Hk Hm. pose proof (digits2_pos_spec m) as [_ Hlt].
  apply (Z.pow_lt_mono_r_iff 2); lia.
Qed.

(** A number below [2 ^ k] has [k] digits at most. *)
Lemma digits2_pos_below (m : positive) (k : Z) :
  0 <= k -> Zpos m < 2 ^ k -> Zpos (digits2_pos m) <= k.
Proof.
  intros Hk Hm. pose proof (digits2_pos_spec m) as [Hle _].
  assert (H : Zpos (digits2_pos m) - 1 < k).
  { apply (Z.pow_lt_mono_r_iff 2); lia. }
  lia.
Qed.

(** *** Shifts *)

(** [m] followed by [n] zero bits. *)
Definition shifted (m : positive) (n : nat) : positive := Nat.iter n xO m.

Lemma shifted_value (m : positive) (n : nat) :
  Zpos (shifted m n) = Zpos m * 2 ^ Z.of_nat n.
Proof.
  induction n as [|n IH]; [simpl; lia|].
  change (shifted m (S n)) with (shifted m n)~0%positive.
  change (Zpos (shifted m n)~0) with (2 * Zpos (shifted m n)).
  rewrite IH, Nat2Z.inj_succ, Z.pow_succ_r by lia. lia.
Qed.

Lemma shifted_digits (m : positive) (n : nat) :
  Zpos (digits2_pos (shifted m n)) = Zpos (digits2_pos m) + Z.of_nat n.
Proof.
  induction n as [|n IH]; [simpl; lia|].
  change (shifted m (S n)) with (shifted m n)~0%positive.
  cbn [digits2_pos]. rewrite Pos2Z.inj_succ, IH. lia.
Qed.

Lemma shifted_of_value (m m0 : positive) (k : Z) :
  0 <= k -> Zpos m = Zpos m0 * 2 ^ k -> m = shifted m0 (Z.to_nat k).
Proof.
  intros Hk Hm. apply Pos2Z.inj. rewrite shifted_value, Z2Nat.id; assumption.
Qed.

Lemma iter_pos_nat {A : Type} (f : A -> A) (p : positive) (x : A) :
  iter_pos f p x = Nat.iter (Pos.to_nat p) f x.
Proof.
  revert x; induction p as [p IH|p IH|]; intros x; cbn [iter_pos].
  - rewrite !IH, Pos2Nat.inj_xI.
    replace (S (2 * Pos.to_nat p)) with (Pos.to_nat p + (Pos.to_nat p + 1))%nat
      by lia.
    rewrite !Nat.iter_add. reflexivity.
  - rewrite !IH, Pos2Nat.inj_xO.
    replace (2 * Pos.to_nat p)%nat with (Pos.to_nat p + Pos.to_nat p)%nat
      by lia.
    rewrite Nat.iter_add. reflexivity.
  - reflexivity.
Qed.

(** Shifting out zero bits loses nothing. *)
Lemma shr_1_shifted (m : positive) (n : nat) :
  Nat.iter n shr_1 (Build_shr_record (Zpos (shifted m n)) false false)
  = Build_shr_record (Zpos m) false false.
Proof.
  induction n as [|n IH]; [reflexivity|].
  rewrite Nat.iter_succ_r. exact IH.
Qed.

(** *** A result that needs no rounding *)

Lemma canonical_mantissa_fexp (m : positive) (e : Z) :
  canonical_mantissa m e = true -> fexp (Zpos (digits2_pos m) + e) = e.
Proof. unfold SpecFloat.canonical_mantissa. apply Z.eqb_eq. Qed.

(** [binary_round_aux] returns a double it is given, whatever the number of
    zero bits its mantissa is followed by. *)
Lemma binary_round_aux_exact (s : bool) (m m0 : positive) (e e0 : Z) :
  canonical_mantissa m0 e0 = true ->
  e0 <= emax - prec ->
  e <= e0 ->
  Zpos m = Zpos m0 * 2 ^ (e0 - e) ->
  binary_round_aux s (Zpos m) e loc_Exact = S754_finite s m0 e0.
Proof.
  intros Hc Hmax He Hm.
  apply shifted_of_value in Hm; [|lia]. subst m.
  pose proof (canonical_mantissa_fexp m0 e0 Hc) as Hf.
  unfold SpecFloat.binary_round_aux, shr_fexp. cbn [Zdigits2].
  rewrite shifted_digits, Z2Nat.id by lia.
  replace (Zpos (digits2_pos m0) + (e0 - e) + e)
    with (Zpos (digits2_pos m0) + e0) by lia.
  rewrite Hf. cbn [shr_record_of_loc].
  assert (Hshift :
            shr (Build_shr_record
                   (Zpos (shifted m0 (Z.to_nat (e0 - e)))) false false)
                e (e0 - e)
            = (Build_shr_record (Zpos m0) false false, e0)).
  { unfold shr. destruct (e0 - e) as [|p|p] eqn:Hn.
    - simpl. f_equal. lia.
    - rewrite iter_pos_nat.
      change (Z.to_nat (Zpos p)) with (Pos.to_nat p).
      rewrite shr_1_shifted. f_equal. lia.
    - lia. }
  rewrite Hshift. cbn [shr_m loc_of_shr_record round_nearest_even Zdigits2].
  rewrite Hf, Z.sub_diag. cbn [shr shr_record_of_loc shr_m].
  apply Z.leb_le in Hmax. now rewrite Hmax.
Qed.


(** *** Values *)

(** [m1 * 2 ^ e1 = m2 * 2 ^ e2], for whole numbers [m1] and [m2] and
    exponents of either sign. *)
Definition same_value (m1 e1 m2 e2 : Z) : Prop :=
  m1 * 2 ^ (e1 - Z.min e1 e2) = m2 * 2 ^ (e2 - Z.min e1 e2).

Lemma same_value_at (m1 e1 m2 e2 t : Z) :
  same_value m1 e1 m2 e2 -> t <= e1 -> t <= e2 ->
  m1 * 2 ^ (e1 - t) = m2 * 2 ^ (e2 - t).
Proof.
  unfold same_value. intros H H1 H2.
  pose proof (Z.le_min_l e1 e2). pose proof (Z.le_min_r e1 e2).
  assert (t <= Z.min e1 e2) by (apply Z.min_glb; assumption).
  remember (Z.min e1 e2) as u.
  replace (e1 - t) with ((e1 - u) + (u - t)) by lia.
  replace (e2 - t) with ((e2 - u) + (u - t)) by lia.
  rewrite !Z.pow_add_r by lia. rewrite !Z.mul_assoc, H. reflexivity.
Qed.

Lemma same_value_abs (m1 e1 m2 e2 : Z) :
  same_value m1 e1 m2 e2 -> same_value (Z.abs m1) e1 (Z.abs m2) e2.
Proof.
  unfold same_value. intros H.
  pose proof (Z.le_min_l e1 e2). pose proof (Z.le_min_r e1 e2).
  apply (f_equal Z.abs) in H. rewrite !Z.abs_mul in H.
  rewrite !(Z.abs_eq (2 ^ _)) in H by (apply Z.pow_nonneg; lia).
  exact H.
Qed.

Lemma Qpower_split (u t : Z) : (2 ^ u == 2 ^ (u - t) * 2 ^ t)%Q.
Proof.
  rewrite <- Qpower_plus by discriminate.
  now replace (u - t + t) with u by lia.
Qed.

(** An equation between exact values is one between whole numbers. *)
Lemma exact_same_value (a b u v : Z) :
  (inject_Z a * 2 ^ u == inject_Z b * 2 ^ v)%Q -> same_value a u b v.
Proof.
  intros H. unfold same_value.
  pose proof (Z.le_min_l u v). pose proof (Z.le_min_r u v).
  remember (Z.min u v) as t.
  rewrite (Qpower_split u t), (Qpower_split v t), !Qmult_assoc in H.
  apply Qmult_inj_r in H; [|apply Qpower_not_0; discriminate].
  change 2%Q with (inject_Z 2) in H.
  rewrite <- !Zpower_Qpower, <- !inject_Z_mult in H by lia.
  now apply inject_Z_injective.
Qed.

(** The digits of a product. *)
Lemma product_digits (m1 m2 m : positive) (a b : Z) :
  0 <= a -> 0 <= b ->
  Zpos m1 * Zpos m2 * 2 ^ a = Zpos m * 2 ^ b ->
  Zpos (digits2_pos m) + b
    <= Zpos (digits2_pos m1) + Zpos (digits2_pos m2) + a
  /\ Zpos (digits2_pos m1) + Zpos (digits2_pos m2) + a
    <= Zpos (digits2_pos m) + b + 1.
Proof.
  intros Ha Hb H.
  pose proof (digits2_pos_spec m1) as [L1 U1].
  pose proof (digits2_pos_spec m2) as [L2 U2].
  pose proof (digits2_pos_spec m) as [L U].
  set (d1 := Zpos (digits2_pos m1)) in *.
  set (d2 := Zpos (digits2_pos m2)) in *.
  set (d := Zpos (digits2_pos m)) in *.
  assert (Hd1 : 1 <= d1) by (unfold d1; lia).
  assert (Hd2 : 1 <= d2) by (unfold d2; lia).
  assert (Hd : 1 <= d) by (unfold d; lia).
  assert (Pa : 0 < 2 ^ a) by (apply Z.pow_pos_nonneg; lia).
  assert (Pb : 0 < 2 ^ b) by (apply Z.pow_pos_nonneg; lia).
  split.
  - assert (Hlt : 2 ^ (d - 1 + b) < 2 ^ (d1 + d2 + a)).
    { rewrite !Z.pow_add_r by lia.
      apply Z.le_lt_trans with (Zpos m * 2 ^ b).
      - apply Z.mul_le_mono_nonneg_r; lia.
      - rewrite <- H. apply Z.mul_lt_mono_pos_r; [assumption|].
        apply Z.mul_lt_mono_nonneg; lia. }
    apply Z.pow_lt_mono_r_iff in Hlt; lia.
  - assert (Hlt : 2 ^ ((d1 - 1) + (d2 - 1) + a) < 2 ^ (d + b)).
    { rewrite !Z.pow_add_r by lia.
      apply Z.le_lt_trans with (Zpos m1 * Zpos m2 * 2 ^ a).
      - apply Z.mul_le_mono_nonneg_r; [lia|].
        apply Z.mul_le_mono_nonneg; try assumption;
          apply Z.pow_nonneg; lia.
      - rewrite H. apply Z.mul_lt_mono_pos_r; assumption. }
    apply Z.pow_lt_mono_r_iff in Hlt; lia.
Qed.

(** *** Doubles as mantissa and exponent *)

Lemma bounded_canonical (m : positive) (e : Z) :
  bounded prec emax m e = true ->
  canonical_mantissa m e = true /\ e <= emax - prec.
Proof.
  unfold bounded. intros H. apply andb_prop in H as [Hc He].
  split; [exact Hc | now apply Z.leb_le].
Qed.

(** The exponent of a double is the one its digits ask for: the greater of
    [digits + e - 53] and [-1074]. *)
Lemma canonical_exponent (m : positive) (e : Z) :
  canonical_mantissa m e = true ->
  e = Z.max (Zpos (digits2_pos m) + e - 53) (-1074).
Proof. intros H. apply canonical_mantissa_fexp in H. symmetry. exact H. Qed.

(** *** A product that is a double *)

Lemma SFmul_exact (s1 s2 s : bool) (m1 m2 m : positive) (e1 e2 e : Z) :
  bounded prec emax m1 e1 = true ->
  bounded prec emax m2 e2 = true ->
  bounded prec emax m e = true ->
  same_value (Zpos m1 * Zpos m2) (e1 + e2) (Zpos m) e ->
  SFmul prec emax (S754_finite s1 m1 e1) (S754_finite s2 m2 e2)
  = S754_finite (xorb s1 s2) m e.
Proof.
  intros B1 B2 B H.
  apply bounded_canonical in B1 as [C1 _].
  apply bounded_canonical in B2 as [C2 _].
  apply bounded_canonical in B as [C Hmax].
  pose proof (canonical_exponent _ _ C1) as E1.
  pose proof (canonical_exponent _ _ C2) as E2.
  pose proof (canonical_exponent _ _ C) as E.
  assert (Hle : e1 + e2 <= e).
  { destruct (Z_le_gt_dec (e1 + e2) e) as [Hle|Hgt]; [exact Hle|].
    pose proof (same_value_at _ _ _ _ e H ltac:(lia) ltac:(lia)) as Hv.
    rewrite Z.sub_diag in Hv.
    apply product_digits in Hv as [_ Hd]; lia. }
  cbn [SFmul]. apply binary_round_aux_exact; try assumption.
  pose proof (same_value_at _ _ _ _ (e1 + e2) H ltac:(lia) ltac:(lia)) as Hv.
  rewrite Z.sub_diag, Z.mul_1_r in Hv. exact Hv.
Qed.

(** *** A quotient that is a double *)

Lemma new_location_exact (nb_steps : Z) : new_location nb_steps 0 = loc_Exact.
Proof.
  unfold new_location, new_location_even, new_location_odd.
  now destruct (Z.even nb_steps).
Qed.

Lemma SFdiv_exact (s1 s2 : bool) (m1 m2 m : positive) (e1 e2 e : Z) :
  bounded prec emax m1 e1 = true ->
  bounded prec emax m2 e2 = true ->
  bounded prec emax m e = true ->
  same_value (Zpos m * Zpos m2) (e + e2) (Zpos m1) e1 ->
  SFdiv prec emax (S754_finite s1 m1 e1) (S754_finite s2 m2 e2)
  = S754_finite (xorb s1 s2) m e.
Proof.
  intros B1 B2 B H.
  apply bounded_canonical in B1 as [C1 _].
  apply bounded_canonical in B2 as [C2 _].
  apply bounded_canonical in B as [C Hmax].
  pose proof (canonical_exponent _ _ C) as E.
  cbn [SFdiv]. unfold SFdiv_core_binary. cbn [Zdigits2].
  set (e' := Z.min (fexp (Zpos (digits2_pos m1) + e1
                          - (Zpos (digits2_pos m2) + e2))) (e1 - e2)).
  assert (He1 : e' <= e1 - e2) by apply Z.le_min_r.
  assert (He : e' <= e).
  { pose proof (same_value_at _ _ _ _ (Z.min (e + e2) e1) H
                  (Z.le_min_l _ _) (Z.le_min_r _ _)) as Hv.
    apply product_digits in Hv as [Hd _];
      [|pose proof (Z.le_min_l (e + e2) e1); lia
       |pose proof (Z.le_min_r (e + e2) e1); lia].
    apply Z.le_trans
      with (fexp (Zpos (digits2_pos m1) + e1
                  - (Zpos (digits2_pos m2) + e2))); [apply Z.le_min_l|].
    unfold SpecFloat.fexp, emin, prec, emax. lia. }
  pose proof (same_value_at _ _ _ _ (e' + e2) H ltac:(lia) ltac:(lia)) as Hv.
  replace (e + e2 - (e' + e2)) with (e - e') in Hv by lia.
  replace (e1 - (e' + e2)) with (e1 - e2 - e') in Hv by lia.
  assert (Hm : match e1 - e2 - e' with
               | Zpos _ => Z.shiftl (Zpos m1) (e1 - e2 - e')
               | 0 => Zpos m1
               | Zneg _ => 0
               end
               = Zpos (shifted m (Z.to_nat (e - e'))) * Zpos m2).
  { rewrite shifted_value, Z2Nat.id by lia.
    replace (Zpos m * 2 ^ (e - e') * Zpos m2)
      with (Zpos m * Zpos m2 * 2 ^ (e - e')) by ring.
    rewrite Hv.
    destruct (e1 - e2 - e') as [|p|p] eqn:Hs; [simpl; lia | | lia].
    apply Z.shiftl_mul_pow2. lia. }
  rewrite Hm.
  destruct (Z.div_eucl (Zpos (shifted m (Z.to_nat (e - e'))) * Zpos m2)
              (Zpos m2)) as [q r] eqn:Hqr.
  assert (Hq : q = Zpos (shifted m (Z.to_nat (e - e')))).
  { rewrite <- (Z.div_mul (Zpos (shifted m (Z.to_nat (e - e')))) (Zpos m2))
      by discriminate.
    unfold Z.div. now rewrite Hqr. }
  assert (Hr : r = 0).
  { rewrite <- (Z.mod_mul (Zpos (shifted m (Z.to_nat (e - e')))) (Zpos m2))
      by discriminate.
    unfold Z.modulo. now rewrite Hqr. }
  subst q r. rewrite new_location_exact.
  apply binary_round_aux_exact; try assumption.
  rewrite shifted_value, Z2Nat.id by lia. reflexivity.
Qed.

(** *** Dividing and multiplying back *)

Lemma SFeqb_refl_finite (s : bool) (m : positive) (e : Z) :
  SFeqb (S754_finite s m e) (S754_finite s m e) = true.
Proof.
  unfold SFeqb, SFcompare.
  destruct s; rewrite Z.compare_refl, Pos.compare_cont_refl; reflexivity.
Qed.

(** The mantissa of a double with its sign. *)
Definition signed (s : bool) (m : positive) : Z :=
  if s then Zneg m else Zpos m.

(** The sign of a product. *)
Lemma signed_product (s1 s2 s : bool) (m1 m2 m : positive) (e1 e2 : Z) :
  same_value (signed s1 m1 * signed s2 m2) e1 (signed s m) e2 ->
  s = xorb s1 s2.
Proof.
  unfold same_value. intros H.
  pose proof (Z.le_min_l e1 e2). pose proof (Z.le_min_r e1 e2).
  assert (P1 : 0 < 2 ^ (e1 - Z.min e1 e2)) by (apply Z.pow_pos_nonneg; lia).
  assert (P2 : 0 < 2 ^ (e2 - Z.min e1 e2)) by (apply Z.pow_pos_nonneg; lia).
  destruct (2 ^ (e1 - Z.min e1 e2)) as [|u|u]; try lia.
  destruct (2 ^ (e2 - Z.min e1 e2)) as [|v|v]; try lia.
  destruct s1, s2, s; try reflexivity; discriminate H.
Qed.

(** When the quotient of two finite doubles is a double, dividing rounds
    nothing: the result is that double, and multiplying it by the divisor
    gives the dividend back. *)
Lemma divide_then_multiply (x y q : JS.number) (vx vy vq : Q) :
  JS.exact x = Some vx ->
  JS.exact y = Some vy ->
  JS.exact q = Some vq ->
  (y =? 0)%float = false ->
  (vq * vy == vx)%Q ->
  (x / y =? q)%float = true /\ (x / y * y =? x)%float = true.
Proof.
  intros Hx Hy Hq Hy0 Hv.
  rewrite FloatAxioms.eqb_spec in Hy0.
  rewrite !FloatAxioms.eqb_spec, FloatAxioms.mul_spec, FloatAxioms.div_spec.
  pose proof (FloatAxioms.Prim2SF_valid x) as Vx.
  pose proof (FloatAxioms.Prim2SF_valid y) as Vy.
  pose proof (FloatAxioms.Prim2SF_valid q) as Vq.
  unfold JS.exact in Hx, Hy, Hq.
  change (Prim2SF 0) with (S754_zero false) in Hy0.
  destruct (Prim2SF y) as [sy|sy| |sy my ey]; try discriminate.
  injection Hy as <-. clear Hy0.
  destruct (Prim2SF x) as [sx|sx| |sx mx ex]; try discriminate;
    injection Hx as <-.
  - (* zero divided by a number that is not zero *)
    destruct (Prim2SF q) as [sq|sq| |sq mq eq]; try discriminate;
      [split; reflexivity|].
    exfalso. injection Hq as <-. fold (signed sq mq) in Hv.
    fold (signed sy my) in Hv.
    assert (H : (inject_Z (signed sq mq * signed sy my) * 2 ^ (eq + ey)
                 == inject_Z 0 * 2 ^ 0)%Q).
    { rewrite inject_Z_mult, Qpower_plus by discriminate.
      transitivity (inject_Z (signed sq mq) * 2 ^ eq
                    * (inject_Z (signed sy my) * 2 ^ ey))%Q; [ring|].
      rewrite Hv. ring. }
    apply exact_same_value in H. unfold same_value in H.
    rewrite Z.mul_0_l in H.
    apply Z.mul_eq_0 in H as [H|H].
    + destruct sq, sy; discriminate H.
    + pose proof (Z.le_min_l (eq + ey) 0).
      assert (0 < 2 ^ (eq + ey - Z.min (eq + ey) 0))
        by (apply Z.pow_pos_nonneg; lia).
      lia.
  - fold (signed sx mx) in Hv. fold (signed sy my) in Hv.
    destruct (Prim2SF q) as [sq|sq| |sq mq eq]; try discriminate;
      injection Hq as <-.
    + (* the quotient of a number that is not zero is not zero *)
      exfalso.
      assert (H : (inject_Z 0 * 2 ^ 0
                   == inject_Z (signed sx mx) * 2 ^ ex)%Q).
      { rewrite <- Hv. ring. }
      apply exact_same_value in H. unfold same_value in H.
      rewrite Z.mul_0_l in H. symmetry in H.
      apply Z.mul_eq_0 in H as [H|H].
      * destruct sx; discriminate H.
      * pose proof (Z.le_min_r 0 ex).
        assert (0 < 2 ^ (ex - Z.min 0 ex)) by (apply Z.pow_pos_nonneg; lia).
        lia.
    + fold (signed sq mq) in Hv.
      assert (H : (inject_Z (signed sq mq * signed sy my) * 2 ^ (eq + ey)
                   == inject_Z (signed sx mx) * 2 ^ ex)%Q).
      { rewrite <- Hv, inject_Z_mult, Qpower_plus by discriminate. ring. }
      apply exact_same_value in H.
      pose proof (signed_product _ _ _ _ _ _ _ _ H) as Hs.
      apply same_value_abs in H.
      replace (Z.abs (signed sq mq * signed sy my)) with (Zpos mq * Zpos my)
        in H by (destruct sq, sy; reflexivity).
      replace (Z.abs (signed sx mx)) with (Zpos mx)
        in H by (destruct sx; reflexivity).
      cbn [SpecFloat.valid_binary] in Vx, Vy, Vq.
      unfold FloatAxioms.SF64mul, FloatAxioms.SF64div.
      rewrite (SFdiv_exact sx sy mx my mq ex ey eq Vx Vy Vq H).
      rewrite (SFmul_exact (xorb sx sy) sy sx mq my mx eq ey ex Vq Vy Vx H).
      replace (xorb (xorb sx sy) sy) with sx
        by (destruct sx, sy; reflexivity).
      replace (xorb sx sy) with sq by (subst sx; destruct sq, sy; reflexivity).
      split; apply SFeqb_refl_finite.
Qed.

End Doubles.
(** ** The sign of a rounded result *)

Section Rounding.

Local Abbreviation fexp := (SpecFloat.fexp prec emax).
Local Abbreviation canonical_mantissa := (SpecFloat.canonical_mantissa prec emax).
Local Abbreviation bounded := (SpecFloat.bounded prec emax).
Local Abbreviation binary_round_aux := (SpecFloat.binary_round_aux prec emax).
Local Abbreviation binary_round := (SpecFloat.binary_round prec emax).

Lemma fexp_value (e : Z) : fexp e = Z.max (e - 53) (-1074).
Proof. reflexivity. Qed.

(** *** Shifting bits out *)

Lemma shr_1_m (mrs : shr_record) :
  0 <= shr_m mrs -> shr_m (shr_1 mrs) = shr_m mrs / 2.
Proof.
  destruct mrs as [m r s]. cbn [shr_m]. intros Hm.
  destruct m as [|[p|p|]|p]; cbn [shr_1 shr_m]; try reflexivity; try lia.
  - apply Z.div_unique with 1; lia.
  - apply Z.div_unique with 0; lia.
Qed.

Lemma iter_shr_1_m (n : nat) (mrs : shr_record) :
  0 <= shr_m mrs ->
  shr_m (Nat.iter n shr_1 mrs) = shr_m mrs / 2 ^ Z.of_nat n.
Proof.
  intros Hm. induction n as [|n IH]; [simpl; now rewrite Z.div_1_r|].
  rewrite Nat.iter_succ, shr_1_m.
  - rewrite IH, Nat2Z.inj_succ, Z.pow_succ_r, Z.div_div by lia.
    f_equal. lia.
  - rewrite IH. apply Z.div_pos; [assumption|].
    apply Z.pow_pos_nonneg; lia.
Qed.

(** Dropping all but the first [k] bits of a number leaves [k] bits. *)
Lemma quotient_digits (m : positive) (k : Z) :
  0 < k -> k <= Zpos (digits2_pos m) ->
  2 ^ (k - 1) <= Zpos m / 2 ^ (Zpos (digits2_pos m) - k) < 2 ^ k.
Proof.
  intros Hk Hd. pose proof (digits2_pos_spec m) as [Hlow Hhigh].
  set (d := Zpos (digits2_pos m)) in *.
  assert (Hp : 0 < 2 ^ (d - k)) by (apply Z.pow_pos_nonneg; lia).
  split.
  - apply Z.div_le_lower_bound; [assumption|].
    rewrite <- Z.pow_add_r by lia.
    now replace (d - k + (k - 1)) with (d - 1) by lia.
  - apply Z.div_lt_upper_bound; [assumption|].
    rewrite <- Z.pow_add_r by lia.
    now replace (d - k + k) with d by lia.
Qed.

Lemma round_nearest_even_bounds (m : Z) (l : location) :
  m <= round_nearest_even m l <= m + 1.
Proof.
  destruct l as [|[| |]]; cbn [round_nearest_even];
    try destruct (Z.even m); lia.
Qed.

(** *** The second shift of [binary_round_aux] *)

(** A mantissa of 53 bits or more is cut to 53 bits. *)
Lemma shr_fexp_long (p : positive) (e : Z) :
  -1074 <= e ->
  53 <= Zpos (digits2_pos p) ->
  exists mrs p',
    shr_fexp prec emax (Zpos p) e loc_Exact
    = (mrs, e + Zpos (digits2_pos p) - 53)
    /\ shr_m mrs = Zpos p'
    /\ Zpos (digits2_pos p') = 53.
Proof.
  intros He Hd. unfold shr_fexp. cbn [Zdigits2 shr_record_of_loc].
  rewrite fexp_value.
  replace (Z.max (Zpos (digits2_pos p) + e - 53) (-1074) - e)
    with (Zpos (digits2_pos p) - 53) by lia.
  unfold shr. destruct (Zpos (digits2_pos p) - 53) as [|n|n] eqn:Hn; [| |lia].
  - exists (Build_shr_record (Zpos p) false false), p.
    split; [f_equal; lia|]. split; [reflexivity | lia].
  - pose proof (quotient_digits p 53 ltac:(lia) Hd) as [Hlow Hhigh].
    rewrite Hn in Hlow, Hhigh.
    assert (Hm : shr_m (iter_pos shr_1 n (Build_shr_record (Zpos p) false false))
                 = Zpos p / 2 ^ Zpos n).
    { rewrite iter_pos_nat, iter_shr_1_m by (cbn [shr_m]; lia).
      now rewrite positive_nat_Z. }
    destruct (Zpos p / 2 ^ Zpos n) as [|p'|p'] eqn:Hq; try lia.
    exists (iter_pos shr_1 n (Build_shr_record (Zpos p) false false)), p'.
    split; [f_equal; lia|]. split; [exact Hm|].
    apply Z.le_antisymm.
    + apply digits2_pos_below; lia.
    + pose proof (digits2_pos_above p' 52 ltac:(lia) Hlow). lia.
Qed.

(** *** What rounding returns *)

(** The result of rounding a mantissa that is not zero: a double of the
    sign it was given, or the infinity of that sign. *)
Inductive rounded (s : bool) : spec_float -> Prop :=
  | rounded_finite (m : positive) (e : Z) :
      bounded m e = true -> rounded s (S754_finite s m e)
  | rounded_infinity : rounded s (S754_infinity s).

Lemma rounded_if (s : bool) (m : positive) (e : Z) :
  canonical_mantissa m e = true ->
  rounded s (if e <=? emax - prec
             then S754_finite s m e else S754_infinity s).
Proof.
  intros Hc. destruct (e <=? emax - prec) eqn:He; [|constructor].
  constructor. unfold SpecFloat.bounded. now rewrite Hc, He.
Qed.

(** A mantissa that fits its exponent is kept. *)
Lemma binary_round_aux_kept (s : bool) (m : positive) (e : Z) :
  canonical_mantissa m e = true ->
  binary_round_aux s (Zpos m) e loc_Exact
  = if e <=? emax - prec then S754_finite s m e else S754_infinity s.
Proof.
  intros Hc. pose proof (canonical_mantissa_fexp m e Hc) as Hf.
  unfold SpecFloat.binary_round_aux, shr_fexp. cbn [Zdigits2].
  rewrite Hf, Z.sub_diag.
  cbn [shr shr_record_of_loc shr_m loc_of_shr_record round_nearest_even
       Zdigits2].
  rewrite Hf, Z.sub_diag. reflexivity.
Qed.

Lemma binary_round_aux_rounded (s : bool) (m : positive) (e : Z) :
  -1074 <= e ->
  e <= fexp (Zpos (digits2_pos m) + e) ->
  rounded s (binary_round_aux s (Zpos m) e loc_Exact).
Proof.
  intros He Hf. rewrite fexp_value in Hf.
  destruct (Z_lt_le_dec (Zpos (digits2_pos m)) 53) as [Hshort|Hlong].
  - (* a short mantissa at the least exponent *)
    assert (Hc : canonical_mantissa m e = true).
    { unfold SpecFloat.canonical_mantissa. apply Z.eqb_eq.
      rewrite fexp_value. lia. }
    rewrite (binary_round_aux_kept s m e Hc). now apply rounded_if.
  - (* 53 bits or more *)
    destruct (shr_fexp_long m e He Hlong) as (mrs & p & H1 & Hm & Hd).
    unfold SpecFloat.binary_round_aux. rewrite H1.
    pose proof (round_nearest_even_bounds (shr_m mrs)
                  (loc_of_shr_record mrs)) as [Hr _].
    pose proof (digits2_pos_spec p) as [Hlow _]. rewrite Hd in Hlow.
    destruct (round_nearest_even (shr_m mrs) (loc_of_shr_record mrs))
      as [|p1|p1] eqn:Hp1; try lia.
    assert (Hd1 : 53 <= Zpos (digits2_pos p1)).
    { pose proof (digits2_pos_above p1 52 ltac:(lia) ltac:(lia)). lia. }
    destruct (shr_fexp_long p1 (e + Zpos (digits2_pos m) - 53)
                ltac:(lia) Hd1)
      as (mrs' & p' & -> & -> & Hd').
    apply rounded_if. unfold SpecFloat.canonical_mantissa.
    apply Z.eqb_eq. rewrite fexp_value, Hd'. lia.
Qed.

Lemma iter_xO_shifted (m d : positive) :
  Pos.iter xO m d = shifted m (Pos.to_nat d).
Proof. rewrite Pos2Nat.inj_iter. reflexivity. Qed.

Lemma binary_round_rounded (s : bool) (m : positive) (e : Z) :
  -1074 <= e -> rounded s (binary_round s m e).
Proof.
  intros He. unfold SpecFloat.binary_round, shl_align.
  destruct (fexp (Zpos (digits2_pos m) + e) - e) as [|d|d] eqn:Hd.
  - apply binary_round_aux_rounded; [assumption | lia].
  - apply binary_round_aux_rounded; [assumption | lia].
  - assert (Hc : canonical_mantissa (Pos.iter xO m d)
                   (fexp (Zpos (digits2_pos m) + e)) = true).
    { unfold SpecFloat.canonical_mantissa. apply Z.eqb_eq.
      rewrite iter_xO_shifted, shifted_digits, positive_nat_Z. f_equal. lia. }
    rewrite (binary_round_aux_kept s _ _ Hc). now apply rounded_if.
Qed.

Lemma rounded_valid (s : bool) (f : spec_float) :
  rounded s f -> valid_binary prec emax f = true.
Proof. intros [m e Hb|]; [exact Hb | reflexivity]. Qed.

End Rounding.
(** ** The order of the doubles *)

Section Order.

Local Abbreviation canonical_mantissa := (SpecFloat.canonical_mantissa prec emax).
Local Abbreviation bounded := (SpecFloat.bounded prec emax).

(** The sign of a number: [Lt] below zero, [Eq] for the two zeros, [Gt]
    above zero, and none for NaN. *)
Definition SFsign (f : spec_float) : option comparison :=
  match f with
  | S754_zero _ => Some Eq
  | S754_finite s _ _ | S754_infinity s => Some (if s then Lt else Gt)
  | S754_nan => None
  end.

Lemma rounded_sign (s : bool) (f : spec_float) :
  rounded s f -> SFsign f = Some (if s then Lt else Gt).
Proof. now intros [m e _|]. Qed.

Lemma binary_normalize_rounded (m e : Z) :
  -1074 <= e ->
  SFsign (binary_normalize prec emax m e false) = Some (m ?= 0)
  /\ valid_binary prec emax (binary_normalize prec emax m e false) = true.
Proof.
  intros He. destruct m as [|p|p]; cbn [binary_normalize].
  - split; reflexivity.
  - pose proof (binary_round_rounded false p e He) as H.
    split; [exact (rounded_sign _ _ H) | exact (rounded_valid _ _ H)].
  - pose proof (binary_round_rounded true p e He) as H.
    split; [exact (rounded_sign _ _ H) | exact (rounded_valid _ _ H)].
Qed.

(** *** Comparisons with zero *)

Lemma zero_ltb (x : JS.number) :
  (0 <? x)%float
  = match SFsign (Prim2SF x) with Some Gt => true | _ => false end.
Proof.
  rewrite FloatAxioms.ltb_spec. change (Prim2SF 0) with (S754_zero false).
  destruct (Prim2SF x) as [s|s| |s m e]; try reflexivity;
    destruct s; reflexivity.
Qed.

Lemma ltb_zero (x : JS.number) :
  (x <? 0)%float
  = match SFsign (Prim2SF x) with Some Lt => true | _ => false end.
Proof.
  rewrite FloatAxioms.ltb_spec. change (Prim2SF 0) with (S754_zero false).
  destruct (Prim2SF x) as [s|s| |s m e]; try reflexivity;
    destruct s; reflexivity.
Qed.

Lemma leb_zero (x : JS.number) :
  (x <=? 0)%float
  = match SFsign (Prim2SF x) with Some (Lt | Eq) => true | _ => false end.
Proof.
  rewrite FloatAxioms.leb_spec. change (Prim2SF 0) with (S754_zero false).
  destruct (Prim2SF x) as [s|s| |s m e]; try reflexivity;
    destruct s; reflexivity.
Qed.

(** *** Whole numbers as doubles *)

Lemma of_Z_sign (n : Z) : SFsign (Prim2SF (JS.of_Z n)) = Some (n ?= 0).
Proof.
  unfold JS.of_Z, JS.nearest_double.
  destruct (Z.abs n =? 0) eqn:Hn.
  - apply Z.eqb_eq in Hn. assert (n = 0) by lia. subst n. reflexivity.
  - apply Z.eqb_neq in Hn.
    change (Z.log2_up 1 + 64) with 64.
    rewrite Z.mod_1_r, Z.div_1_r. cbn [Z.eqb].
    rewrite Z.add_0_r. change (- (64) - 1) with (-65).
    destruct (binary_normalize_rounded
                (if n <? 0 then - (2 * (Z.abs n * 2 ^ 64))
                 else 2 * (Z.abs n * 2 ^ 64)) (-65) ltac:(lia))
      as [Hs Hv].
    rewrite (FloatAxioms.Prim2SF_SF2Prim _ Hv), Hs. f_equal.
    destruct (n <? 0) eqn:Hneg;
      [apply Z.ltb_lt in Hneg | apply Z.ltb_ge in Hneg].
    + transitivity Lt; [apply Z.compare_lt_iff | symmetry; apply Z.compare_lt_iff];
        lia.
    + transitivity Gt; [apply Z.compare_gt_iff | symmetry; apply Z.compare_gt_iff];
        lia.
Qed.

(** *** The place of a double among the doubles *)

(** A finite double counted in units of [2 ^ -1074], the least positive
    double: a whole number. *)
Definition ordinal (x : JS.number) : option Z :=
  match Prim2SF x with
  | S754_zero _ => Some 0
  | S754_finite s m e => Some (signed s m * 2 ^ (e + 1074))
  | _ => None
  end.

Lemma canonical_bounds (m : positive) (e : Z) :
  canonical_mantissa m e = true ->
  -1074 <= e
  /\ Zpos (digits2_pos m) <= 53
  /\ (-1074 < e -> Zpos (digits2_pos m) = 53).
Proof. intros H. apply canonical_exponent in H. lia. Qed.

Lemma mul_compare_mono_r (p n m : Z) :
  0 < p -> (n * p ?= m * p) = (n ?= m).
Proof. intros Hp. symmetry. apply Zmult_compare_compat_r. lia. Qed.

Lemma signed_compare_zero (s : bool) (m : positive) (p : Z) :
  0 < p -> (signed s m * p ?= 0) = if s then Lt else Gt.
Proof.
  intros Hp. destruct s; cbn [signed].
  - apply Z.compare_lt_iff. apply Z.mul_neg_pos; lia.
  - apply Z.compare_gt_iff. apply Z.mul_pos_pos; lia.
Qed.

(** A double of a lesser exponent is the lesser one. *)
Lemma lesser_exponent (m1 m2 : positive) (e1 e2 : Z) :
  canonical_mantissa m1 e1 = true ->
  canonical_mantissa m2 e2 = true ->
  e1 < e2 ->
  Zpos m1 * 2 ^ (e1 + 1074) < Zpos m2 * 2 ^ (e2 + 1074).
Proof.
  intros C1 C2 He.
  apply canonical_bounds in C1 as (L1 & D1 & _).
  apply canonical_bounds in C2 as (L2 & _ & D2).
  specialize (D2 ltac:(lia)).
  pose proof (digits2_pos_spec m1) as [_ U1].
  pose proof (digits2_pos_spec m2) as [U2 _]. rewrite D2 in U2.
  assert (H53 : Zpos m1 < 2 ^ 53).
  { apply Z.lt_le_trans with (2 ^ Zpos (digits2_pos m1)); [assumption|].
    apply Z.pow_le_mono_r; lia. }
  apply Z.lt_le_trans with (2 ^ 53 * 2 ^ (e1 + 1074)).
  - apply Z.mul_lt_mono_pos_r; [apply Z.pow_pos_nonneg; lia | assumption].
  - apply Z.le_trans with (2 ^ (53 - 1) * 2 ^ (e2 + 1074)).
    + rewrite <- !Z.pow_add_r by lia. apply Z.pow_le_mono_r; lia.
    + apply Z.mul_le_mono_nonneg_r; [apply Z.pow_nonneg; lia | assumption].
Qed.

Lemma magnitude_compare (m1 m2 : positive) (e1 e2 : Z) :
  canonical_mantissa m1 e1 = true ->
  canonical_mantissa m2 e2 = true ->
  (Zpos m1 * 2 ^ (e1 + 1074) ?= Zpos m2 * 2 ^ (e2 + 1074))
  = match e1 ?= e2 with
    | Lt => Lt
    | Gt => Gt
    | Eq => Pos.compare_cont Eq m1 m2
    end.
Proof.
  intros C1 C2. destruct (Z.compare_spec e1 e2) as [->|He|He].
  - pose proof (canonical_bounds _ _ C2) as (L & _ & _).
    apply mul_compare_mono_r. apply Z.pow_pos_nonneg; lia.
  - apply Z.compare_lt_iff. now apply lesser_exponent.
  - apply Z.compare_gt_iff. now apply lesser_exponent.
Qed.

(** Two finite doubles compare as their places do. *)
Lemma SFcompare_ordinal (x y : JS.number) (a b : Z) :
  ordinal x = Some a ->
  ordinal y = Some b ->
  SFcompare (Prim2SF x) (Prim2SF y) = Some (a ?= b).
Proof.
  unfold ordinal. intros Hx Hy.
  pose proof (FloatAxioms.Prim2SF_valid x) as Vx.
  pose proof (FloatAxioms.Prim2SF_valid y) as Vy.
  destruct (Prim2SF x) as [sx|sx| |sx mx ex]; try discriminate;
    destruct (Prim2SF y) as [sy|sy| |sy my ey]; try discriminate;
    injection Hx as <-; injection Hy as <-; cbn [SFcompare].
  - reflexivity.
  - apply bounded_canonical in Vy as [Cy _].
    pose proof (canonical_bounds _ _ Cy) as (L & _ & _).
    rewrite Z.compare_antisym, signed_compare_zero
      by (apply Z.pow_pos_nonneg; lia).
    now destruct sy.
  - apply bounded_canonical in Vx as [Cx _].
    pose proof (canonical_bounds _ _ Cx) as (L & _ & _).
    rewrite signed_compare_zero by (apply Z.pow_pos_nonneg; lia).
    now destruct sx.
  - apply bounded_canonical in Vx as [Cx _].
    apply bounded_canonical in Vy as [Cy _].
    pose proof (canonical_bounds _ _ Cx) as (Lx & _ & _).
    pose proof (canonical_bounds _ _ Cy) as (Ly & _ & _).
    assert (Px : 0 < 2 ^ (ex + 1074)) by (apply Z.pow_pos_nonneg; lia).
    assert (Py : 0 < 2 ^ (ey + 1074)) by (apply Z.pow_pos_nonneg; lia).
    pose proof (magnitude_compare mx my ex ey Cx Cy) as Hm.
    f_equal. destruct sx, sy; cbn [signed].
    + change (Zneg mx) with (- Zpos mx). change (Zneg my) with (- Zpos my).
      rewrite !Z.mul_opp_l, Z.compare_opp.
      rewrite (Z.compare_antisym (Zpos mx * 2 ^ (ex + 1074))), Hm.
      now destruct (ex ?= ey).
    + symmetry. apply Z.compare_lt_iff.
      assert (Zneg mx * 2 ^ (ex + 1074) < 0) by (apply Z.mul_neg_pos; lia).
      assert (0 < Zpos my * 2 ^ (ey + 1074)) by (apply Z.mul_pos_pos; lia).
      lia.
    + symmetry. apply Z.compare_gt_iff.
      assert (Zneg my * 2 ^ (ey + 1074) < 0) by (apply Z.mul_neg_pos; lia).
      assert (0 < Zpos mx * 2 ^ (ex + 1074)) by (apply Z.mul_pos_pos; lia).
      lia.
    + now rewrite Hm.
Qed.

Lemma ltb_ordinal (x y : JS.number) (a b : Z) :
  ordinal x = Some a -> ordinal y = Some b -> (x <? y)%float = (a <? b).
Proof.
  intros Hx Hy. rewrite FloatAxioms.ltb_spec. unfold SFltb, Z.ltb.
  now rewrite (SFcompare_ordinal x y a b Hx Hy).
Qed.

Lemma leb_ordinal (x y : JS.number) (a b : Z) :
  ordinal x = Some a -> ordinal y = Some b -> (x <=? y)%float = (a <=? b).
Proof.
  intros Hx Hy. rewrite FloatAxioms.leb_spec. unfold SFleb, Z.leb.
  rewrite (SFcompare_ordinal x y a b Hx Hy). now destruct (a ?= b).
Qed.

Lemma eqb_ordinal (x y : JS.number) (a b : Z) :
  ordinal x = Some a -> ordinal y = Some b -> (x =? y)%float = (a =? b).
Proof.
  intros Hx Hy. rewrite FloatAxioms.eqb_spec. unfold SFeqb.
  rewrite (SFcompare_ordinal x y a b Hx Hy).
  destruct (Z.eqb_spec a b) as [->|Hne].
  - now rewrite Z.compare_refl.
  - destruct (Z.compare_spec a b); [contradiction | reflexivity..].
Qed.

(** *** The sign of a difference *)

Lemma shl_align_value (m : positive) (e ez : Z) :
  ez <= e -> Zpos (fst (shl_align m e ez)) = Zpos m * 2 ^ (e - ez).
Proof.
  intros He. unfold shl_align.
  destruct (ez - e) as [|d|d] eqn:Hd; cbn [fst]; try lia.
  - replace (e - ez) with 0 by lia. lia.
  - rewrite iter_xO_shifted, shifted_value, positive_nat_Z.
    f_equal. f_equal. lia.
Qed.

Lemma cond_Zopp_signed (s : bool) (m : positive) (p : Z) :
  cond_Zopp s (Zpos m * p) = signed s m * p.
Proof.
  destruct s; cbn [cond_Zopp signed]; [|reflexivity].
  change (Zneg m) with (- Zpos m). now rewrite Z.mul_opp_l.
Qed.

(** The difference of two finite doubles is rounded, and has the sign of
    the exact difference. *)
Lemma sub_sign (x y : JS.number) (a b : Z) :
  ordinal x = Some a ->
  ordinal y = Some b ->
  SFsign (Prim2SF (x - y)%float) = Some (a ?= b).
Proof.
  unfold ordinal. intros Hx Hy. rewrite FloatAxioms.sub_spec.
  pose proof (FloatAxioms.Prim2SF_valid x) as Vx.
  pose proof (FloatAxioms.Prim2SF_valid y) as Vy.
  unfold FloatAxioms.SF64sub.
  destruct (Prim2SF x) as [sx|sx| |sx mx ex]; try discriminate;
    destruct (Prim2SF y) as [sy|sy| |sy my ey]; try discriminate;
    injection Hx as <-; injection Hy as <-.
  - now destruct sx, sy.
  - apply bounded_canonical in Vy as [Cy _].
    pose proof (canonical_bounds _ _ Cy) as (L & _ & _).
    cbn [SFsub SFsign].
    rewrite Z.compare_antisym, signed_compare_zero
      by (apply Z.pow_pos_nonneg; lia).
    now destruct sy.
  - apply bounded_canonical in Vx as [Cx _].
    pose proof (canonical_bounds _ _ Cx) as (L & _ & _).
    cbn [SFsub SFsign].
    now rewrite signed_compare_zero by (apply Z.pow_pos_nonneg; lia).
  - apply bounded_canonical in Vx as [Cx _].
    apply bounded_canonical in Vy as [Cy _].
    pose proof (canonical_bounds _ _ Cx) as (Lx & _ & _).
    pose proof (canonical_bounds _ _ Cy) as (Ly & _ & _).
    cbn [SFsub].
    pose proof (Z.le_min_l ex ey) as Hl. pose proof (Z.le_min_r ex ey) as Hr.
    assert (Hz : -1074 <= Z.min ex ey) by (apply Z.min_glb; assumption).
    remember (Z.min ex ey) as ez.
    destruct (binary_normalize_rounded
                (cond_Zopp sx (Zpos (fst (shl_align mx ex ez)))
                 - cond_Zopp sy (Zpos (fst (shl_align my ey ez))))
                ez Hz) as [Hs _].
    rewrite Hs. f_equal.
    rewrite !shl_align_value by assumption.
    rewrite !cond_Zopp_signed.
    assert (P : 0 < 2 ^ (ez + 1074)) by (apply Z.pow_pos_nonneg; lia).
    rewrite (Z.compare_sub (signed sx mx * 2 ^ (ex + 1074))).
    replace (ex + 1074) with ((ex - ez) + (ez + 1074)) by lia.
    replace (ey + 1074) with ((ey - ez) + (ez + 1074)) by lia.
    rewrite (Z.pow_add_r 2 (ex - ez)), (Z.pow_add_r 2 (ey - ez)) by lia.
    rewrite !Z.mul_assoc, <- Z.mul_sub_distr_r.
    change 0 with (0 * 2 ^ (ez + 1074)) at 2.
    now rewrite mul_compare_mono_r.
Qed.

End Order.
(** ** The order of the dates *)

Section DateOrder.

(** A number that is neither NaN nor an infinity. *)
Definition finite (x : JS.number) : bool :=
  match Prim2SF x with
  | S754_zero _ | S754_finite _ _ _ => true
  | _ => false
  end.

Lemma finite_ordinal (x : JS.number) :
  finite x = true -> exists a, ordinal x = Some a.
Proof.
  unfold finite, ordinal.
  destruct (Prim2SF x); try discriminate; eauto.
Qed.

(** The place of a date: its day, and the place of its seconds among the
    doubles. *)
Definition place (date : JulianDate.t) : Z * Z :=
  (JulianDate.dayNumber date,
   match ordinal (JulianDate.secondsOfDay date) with
   | Some a => a
   | None => 0
   end).

Definition finiteSeconds (date : JulianDate.t) : Prop :=
  finite (JulianDate.secondsOfDay date) = true.

Definition earlier (p q : Z * Z) : Prop :=
  fst p < fst q \/ (fst p = fst q /\ snd p < snd q).

Definition not_later (p q : Z * Z) : Prop :=
  fst p < fst q \/ (fst p = fst q /\ snd p <= snd q).

(** The comparison of two places. *)
Definition place_compare (p q : Z * Z) : comparison :=
  match fst p ?= fst q with
  | Eq => snd p ?= snd q
  | c => c
  end.

Lemma place_compare_Lt (p q : Z * Z) :
  place_compare p q = Lt <-> earlier p q.
Proof.
  unfold place_compare, earlier.
  destruct (Z.compare_spec (fst p) (fst q)) as [H|H|H].
  - rewrite Z.compare_lt_iff. lia.
  - split; [lia | reflexivity].
  - split; [discriminate | lia].
Qed.

Lemma place_compare_Gt (p q : Z * Z) :
  place_compare p q = Gt <-> earlier q p.
Proof.
  unfold place_compare, earlier.
  destruct (Z.compare_spec (fst p) (fst q)) as [H|H|H].
  - rewrite Z.compare_gt_iff. lia.
  - split; [discriminate | lia].
  - split; [lia | reflexivity].
Qed.

Lemma place_compare_Eq (p q : Z * Z) :
  place_compare p q = Eq <-> p = q.
Proof.
  unfold place_compare. destruct p as [p1 p2], q as [q1 q2]. cbn [fst snd].
  destruct (Z.compare_spec p1 q1) as [H|H|H].
  - rewrite Z.compare_eq_iff. split; [intros ->; now subst | intros [= _ ->]; reflexivity].
  - split; [discriminate | intros [= -> _]; lia].
  - split; [discriminate | intros [= -> _]; lia].
Qed.

(** [JulianDate.compare] has the sign of the comparison of the places. *)
Lemma compare_sign (left right : JulianDate.t) :
  finiteSeconds left -> finiteSeconds right ->
  SFsign (Prim2SF (JulianDate.compare left right))
  = Some (place_compare (place left) (place right)).
Proof.
  intros Hl Hr.
  apply finite_ordinal in Hl as (a & Ha).
  apply finite_ordinal in Hr as (b & Hb).
  unfold JulianDate.compare, place_compare, place. cbn [fst snd].
  rewrite Ha, Hb.
  destruct (Z.eqb_spec (JulianDate.dayNumber left
                        - JulianDate.dayNumber right) 0) as [H0|H0].
  - replace (JulianDate.dayNumber left ?= JulianDate.dayNumber right)
      with Eq by (symmetry; apply Z.compare_eq_iff; lia).
    now apply sub_sign.
  - rewrite of_Z_sign, <- Z.compare_sub. f_equal.
    destruct (Z.compare_spec (JulianDate.dayNumber left)
                (JulianDate.dayNumber right)); (reflexivity || lia).
Qed.

Lemma greaterThan_earlier (left right : JulianDate.t) :
  finiteSeconds left -> finiteSeconds right ->
  JulianDate.greaterThan left right = true
  <-> earlier (place right) (place left).
Proof.
  intros Hl Hr. unfold JulianDate.greaterThan.
  rewrite zero_ltb, (compare_sign left right Hl Hr), <- place_compare_Gt.
  destruct (place_compare (place left) (place right));
    split; (reflexivity || discriminate).
Qed.

Lemma compare_not_later (left right : JulianDate.t) :
  finiteSeconds left -> finiteSeconds right ->
  (JulianDate.compare left right <=? 0)%float = true
  <-> not_later (place left) (place right).
Proof.
  intros Hl Hr.
  rewrite leb_zero, (compare_sign left right Hl Hr).
  pose proof (place_compare_Lt (place left) (place right)) as HLt.
  pose proof (place_compare_Eq (place left) (place right)) as HEq.
  pose proof (place_compare_Gt (place left) (place right)) as HGt.
  unfold earlier, not_later in *.
  destruct (place_compare (place left) (place right)).
  - split; [intros _|reflexivity].
    destruct HEq as [HEq _]. rewrite (HEq eq_refl). lia.
  - split; [intros _|reflexivity].
    destruct HLt as [HLt _]. specialize (HLt eq_refl). lia.
  - split; [discriminate|].
    destruct HGt as [HGt _]. specialize (HGt eq_refl). lia.
Qed.

Lemma equals_place (left right : JulianDate.t) :
  finiteSeconds left -> finiteSeconds right ->
  JulianDate.equals left right = true <-> place left = place right.
Proof.
  intros Hl Hr.
  apply finite_ordinal in Hl as (a & Ha).
  apply finite_ordinal in Hr as (b & Hb).
  unfold JulianDate.equals, place. rewrite Ha, Hb.
  rewrite (eqb_ordinal _ _ a b Ha Hb), andb_true_iff, !Z.eqb_eq.
  split; [intros [-> ->]; reflexivity | intros [= -> ->]; auto].
Qed.

End DateOrder.
(** ** Division of two columns *)

Lemma nth_error_combine_seq {A : Type} (l : list A) (start i : nat) (x : A) :
  nth_error l i = Some x ->
  nth_error (combine l (List.seq start (length l))) i = Some (x, (start + i)%nat).
Proof.
  revert start i; induction l as [|y l IH]; intros start [|i]; simpl;
    try discriminate.
  - intros [= ->]. now rewrite Nat.add_0_r.
  - intros H. rewrite (IH (S start) i H). f_equal. f_equal. lia.
Qed.

Lemma get_nth_error (l : list JS.value) (i : nat) (v : JS.value) :
  nth_error l i = Some v -> JS.get l (Z.of_nat i) = v.
Proof.
  intros H. unfold JS.get.
  destruct (Z.of_nat i <? 0) eqn:Hneg; [apply Z.ltb_lt in Hneg; lia|].
  rewrite Nat2Z.id. now apply nth_error_nth.
Qed.

(** With no replacement for a division by zero, row [i] of
    [divideValues(a, b)] is the quotient, as doubles are divided, of the
    numbers in row [i] of [a] and of [b]. *)
Lemma divideValues_row (a b : Column)
    (avalues bvalues : list JS.value) (i : nat) (x y : JS.value) :
  _values a = Some avalues ->
  _values b = Some bvalues ->
  nth_error avalues i = Some x ->
  nth_error bvalues i = Some y ->
  exists quotients,
    divideValues a b JS.VUndefined = Ok quotients
    /\ length quotients = length bvalues
    /\ nth_error quotients i
       = Some (JS.VNumber (JS.ToNumber x / JS.ToNumber y)%float).
Proof.
  intros Ha Hb Hx Hy. unfold divideValues. rewrite Hb. simpl.
  rewrite Ha. simpl.
  match goal with |- exists q, mapM ?f ?l = _ /\ _ => 
    destruct (mapM_Ok f l) as (quotients & Hq & Hlen)
  end.
  { intros [d index] _. rewrite andb_false_r. eauto. }
  exists quotients. split; [exact Hq|]. split.
  - rewrite Hlen, length_combine, length_seq. apply Nat.min_id.
  - apply mapM_Ok_nth in Hq as [_ Hnth].
    destruct (Hnth i (y, i) (nth_error_combine_seq bvalues 0 i y Hy))
      as (q & Hqi & Hf).
    rewrite Hqi. rewrite andb_false_r in Hf. injection Hf as <-.
    now rewrite (get_nth_error avalues i x Hx).
Qed.

(** C9, as the spec states it, fails: the cells are doubles, and the
    quotient 1 / 49 is rounded, so that multiplying it by 49 gives
    0.99999999999999989 and not 1. *)
Lemma divide_then_multiply_is_not_identity :
  exists a b q,
    TableColumn Sample.runtime "a" (Some [JS.VNumber 1%float]) None = Ok a
    /\ TableColumn Sample.runtime "b" (Some [JS.VNumber 49%float]) None = Ok b
    /\ divideValues a b JS.VUndefined = Ok [JS.VNumber q]
    /\ (q * 49 =? 1)%float = false.
Proof.
  do 3 eexists. split; [vm_compute; reflexivity|].
  split; [vm_compute; reflexivity|].
  split; [vm_compute; reflexivity|]. vm_compute. reflexivity.
Qed.

(** C9, amended.  Let [a] and [b] be two columns of as many rows, and [i] a
    row in which both hold a finite number, that of [b] not zero, such that
    the exact quotient of the two numbers is a double [q].  With no
    replacement for a division by zero, row [i] of [divideValues(a, b)] is
    that quotient, and multiplied by [b.values[i]] it equals
    [a.values[i]]. *)
Theorem divide_then_multiply_exact_quotient (a b : Column)
    (avalues bvalues : list JS.value) (i : nat) (x y q : JS.number)
    (vx vy vq : Q) :
  _values a = Some avalues ->
  _values b = Some bvalues ->
  length avalues = length bvalues ->
  nth_error avalues i = Some (JS.VNumber x) ->
  nth_error bvalues i = Some (JS.VNumber y) ->
  (y =? 0)%float = false ->
  JS.exact x = Some vx ->
  JS.exact y = Some vy ->
  JS.exact q = Some vq ->
  (vq * vy == vx)%Q ->
  exists quotients d,
    divideValues a b JS.VUndefined = Ok quotients
    /\ length quotients = length bvalues
    /\ nth_error quotients i = Some (JS.VNumber d)
    /\ (d =? q)%float = true
    /\ (d * y =? x)%float = true.
Proof.
  intros Ha Hb _ Hx Hy Hy0 Ex Ey Eq Hv.
  destruct (divideValues_row a b avalues bvalues i _ _ Ha Hb Hx Hy)
    as (quotients & Hq & Hlen & Hrow).
  exists quotients, (x / y)%float.
  split; [exact Hq|]. split; [exact Hlen|]. split; [exact Hrow|].
  exact (divide_then_multiply x y q vx vy vq Ex Ey Eq Hy0 Hv).
Qed.

Lemma divide_then_multiply_exact_quotient_witness :
  exists a b,
    TableColumn Sample.runtime "a" (Some [JS.VNumber 6%float]) None = Ok a
    /\ TableColumn Sample.runtime "b" (Some [JS.VNumber 3%float]) None = Ok b
    /\ exists quotients d,
         divideValues a b JS.VUndefined = Ok quotients
         /\ length quotients = 1%nat
         /\ nth_error quotients 0 = Some (JS.VNumber d)
         /\ (d =? 2)%float = true
         /\ (d * 3 =? 6)%float = true.
Proof.
  do 2 eexists. split; [vm_compute; reflexivity|].
  split; [vm_compute; reflexivity|].
  eapply (divide_then_multiply_exact_quotient _ _
            [JS.VNumber 6%float] [JS.VNumber 3%float] 0
            6%float 3%float 2%float);
    reflexivity.
Defined.
(** ** The column of start dates *)

Definition startDates : list JS.value :=
  [JS.VString "2015-01-01"; JS.VString "2015-01-02"].

(** C2, as the spec states it, fails on the multiplier: the clock runs from
    the first instant to the finish of the last one, which is one average
    spacing after it.  The span is two days, and the multiplier is
    round(172800 / 120) = 1440. *)
Lemma start_date_multiplier_is_not_720 :
  ~ exists c clock,
      TableColumn Sample.runtime "Start date (AEST)" (Some startDates) None
        = Ok c
      /\ _type c = VarType.TIME
      /\ _clock c = Some clock
      /\ DataSourceClock.multiplier clock
         = JS.Math_round (86400 / 120)%float.
Proof.
  intros (c & clock & Hc & _ & Hclock & Hm).
  vm_compute in Hc. injection Hc as <-.
  injection Hclock as <-. vm_compute in Hm. discriminate Hm.
Qed.

(** The two literals start with 2015, which is above 31, and are no whole
    numbers: they are read as ISO 8601. *)
Lemma dateParsers_startDates (R : Runtime) :
  dateParsers R None startDates = (None, parseIso8601 R).
Proof. vm_compute. reflexivity. Qed.

(** C2, amended.  Where Cesium reads the two literals as midnight UTC of
    1 and 2 January 2015, the column is of type TIME, its two instants are
    ascending and one day apart, they finish one second before the second
    instant and one day after it, and the clock spans the two days from the
    first instant, with the multiplier round(172800 / 120) = 1440. *)
Theorem start_date_column (R : Runtime) :
  JulianDate_fromIso8601 R (JS.VString "2015-01-01") = Ok Sample.jan1 ->
  JulianDate_fromIso8601 R (JS.VString "2015-01-02") = Ok Sample.jan2 ->
  exists c clock,
    TableColumn R "Start date (AEST)" (Some startDates) None = Ok c
    /\ _type c = VarType.TIME
    /\ julianDates c = Some [Sample.jan1; Sample.jan2]
    /\ JulianDate.greaterThan Sample.jan2 Sample.jan1 = true
    /\ JulianDate.secondsDifference Sample.jan2 Sample.jan1 = 86400%float
    /\ finishJulianDates c
       = Some [Some (JulianDate.addSeconds Sample.jan2 (-1)%float);
               Some (JulianDate.addSeconds Sample.jan2 86400%float)]
    /\ JulianDate.addSeconds Sample.jan2 (-1)%float
       = JulianDate.Make 2457024 43234%float
    /\ JulianDate.addSeconds Sample.jan2 86400%float
       = JulianDate.Make 2457025 43235%float
    /\ _clock c = Some clock
    /\ DataSourceClock.startTime clock = Sample.jan1
    /\ DataSourceClock.stopTime clock
       = JulianDate.addSeconds Sample.jan2 86400%float
    /\ JulianDate.secondsDifference (DataSourceClock.stopTime clock)
         (DataSourceClock.startTime clock)
       = 172800%float
    /\ DataSourceClock.multiplier clock
       = JS.Math_round (172800 / 120)%float
    /\ DataSourceClock.multiplier clock = 1440%float.
Proof.
  intros H1 H2.
  assert (Hparsed :
    mapM (parseIso8601 R) startDates
    = Ok [(JulianDate_toDate R Sample.jan1, Sample.jan1);
          (JulianDate_toDate R Sample.jan2, Sample.jan2)]).
  { unfold parseIso8601, startDates. simpl. rewrite H1, H2. reflexivity. }
  do 2 eexists. split.
  - unfold TableColumn.
    replace (setTypeAndSubTypeFromName "Start date (AEST)"
               (defaultValue (opt_unallowedTypes
                                (defaultValue None EMPTY_OBJECT)) []))
      with (Ok (A := VarType.t * option VarSubType.t) (VarType.TIME, None))
      by (vm_compute; reflexivity).
    cbn [defaultValue opt_type EMPTY_OBJECT bind fst snd].
    replace (JS.Math_min (JS.apply_args (Some startDates))) with nan
      by (vm_compute; reflexivity).
    replace (JS.Math_max (JS.apply_args (Some startDates))) with nan
      by (vm_compute; reflexivity).
    unfold reviseForBadNumbers.
    cbn [_minimumValue _type VarType.eqb andb bind].
    rewrite andb_false_r.
    cbn [_minimumValue _type VarType.eqb andb bind].
    unfold initialiseTime, convertToDates.
    cbn [_values _subtype field bind].
    rewrite dateParsers_startDates, Hparsed.
    vm_compute. reflexivity.
  - repeat split; vm_compute; reflexivity.
Qed.

Lemma start_date_column_witness :
  exists c clock,
    TableColumn Sample.runtime "Start date (AEST)" (Some startDates) None
      = Ok c
    /\ _type c = VarType.TIME
    /\ julianDates c = Some [Sample.jan1; Sample.jan2]
    /\ JulianDate.greaterThan Sample.jan2 Sample.jan1 = true
    /\ JulianDate.secondsDifference Sample.jan2 Sample.jan1 = 86400%float
    /\ finishJulianDates c
       = Some [Some (JulianDate.addSeconds Sample.jan2 (-1)%float);
               Some (JulianDate.addSeconds Sample.jan2 86400%float)]
    /\ JulianDate.addSeconds Sample.jan2 (-1)%float
       = JulianDate.Make 2457024 43234%float
    /\ JulianDate.addSeconds Sample.jan2 86400%float
       = JulianDate.Make 2457025 43235%float
    /\ _clock c = Some clock
    /\ DataSourceClock.startTime clock = Sample.jan1
    /\ DataSourceClock.stopTime clock
       = JulianDate.addSeconds Sample.jan2 86400%float
    /\ JulianDate.secondsDifference (DataSourceClock.stopTime clock)
         (DataSourceClock.startTime clock)
       = 172800%float
    /\ DataSourceClock.multiplier clock
       = JS.Math_round (172800 / 120)%float
    /\ DataSourceClock.multiplier clock = 1440%float.
Proof.
  apply (start_date_column Sample.runtime); reflexivity.
Defined.

(** ** A time column whose values are no dates *)

(** The type and subtype the constructor settles on before it looks at the
    values (lines 73 to 77). *)
Definition resolvedType (name : string) (options : option Options)
    : result (VarType.t * option VarSubType.t) :=
  match opt_type (defaultValue options EMPTY_OBJECT) with
  | Some type => Ok (type, opt_subtype (defaultValue options EMPTY_OBJECT))
  | None =>
      setTypeAndSubTypeFromName name
        (defaultValue (opt_unallowedTypes (defaultValue options EMPTY_OBJECT)) [])
  end.

(** The pairs [convertToDates] gets out of the values: none when the
    chosen parser throws on one of them. *)
Definition parsedDates (R : Runtime) (subtype : option VarSubType.t)
    (values : list JS.value) : list (JsDate * JulianDate.t) :=
  catch (mapM (snd (dateParsers R subtype values)) values) [].

Lemma convertToDates_parsedDates (R : Runtime) (c : Column)
    (values : list JS.value) :
  _values c = Some values ->
  convertToDates R c
  = Ok {| cd_subtype := fst (dateParsers R (_subtype c) values);
          cd_jsDates := map fst (parsedDates R (_subtype c) values);
          cd_julianDates := map snd (parsedDates R (_subtype c) values) |}.
Proof.
  intros Hv. unfold convertToDates, parsedDates. rewrite Hv. simpl.
  now destruct (dateParsers R (_subtype c) values).
Qed.

(** C6, as the spec states it, fails twice on the column named date whose
    one value is ["foo"]: [dates] and [julianDates] are assigned the empty
    result before the constructor looks at its length, and the minimum of
    the values is NaN, so the SCALAR column is at once made an ENUM. *)
Lemma unparsable_dates_counterexample :
  ~ exists c,
      TableColumn Sample.runtime "date" (Some [JS.VString "foo"]) None = Ok c
      /\ _type c = VarType.SCALAR
      /\ dates c = None
      /\ julianDates c = None
      /\ finishJulianDates c = None
      /\ _availabilities c = None
      /\ _clock c = None.
Proof.
  intros (c & Hc & Hty & _). vm_compute in Hc. injection Hc as <-.
  discriminate Hty.
Qed.

(** The constructor, stage by stage. *)
Definition initialColumn (name : string) (values : option (list JS.value))
    (options : Options) (typeAndSubtype : VarType.t * option VarSubType.t)
    : Column :=
  {| name := name;
     options := options;
     _unallowedTypes := defaultValue (opt_unallowedTypes options) [];
     _type := fst typeAndSubtype;
     _subtype := snd typeAndSubtype;
     _values := values;
     _minimumValue := JS.Math_min (JS.apply_args values);
     _maximumValue := JS.Math_max (JS.apply_args values);
     _numericalValues := option_map numerical values;
     _uniqueValues := None;
     _indicesIntoUniqueValues := None;
     _displayVariableTypes := None;
     isVisible := None;
     displayDuration := opt_displayDuration options;
     dates := None;
     julianDates := None;
     finishJulianDates := None;
     _availabilities := None;
     _clock := None |}.

Definition scalarToEnum (this : Column) : Column :=
  if JS.isNaN (JS.VNumber (_minimumValue this))
     && VarType.eqb (_type this) VarType.SCALAR
  then with_type this VarType.ENUM
  else this.

Lemma TableColumn_stages (R : Runtime) (name : string)
    (values : option (list JS.value)) (options : option Options) :
  TableColumn R name values options
  = (typeAndSubtype <- resolvedType name options ;;
     this <-
       reviseForBadNumbers
         (initialColumn name values (defaultValue options EMPTY_OBJECT)
            typeAndSubtype)
         (defaultValue
            (opt_replaceWithNullValues (defaultValue options EMPTY_OBJECT))
            defaultReplaceWithNullValues) ;;
     this <-
       (if match values with Some _ => true | None => false end
           && VarType.eqb (_type this) VarType.TIME
        then initialiseTime R this
        else Ok this) ;;
     updateForType (scalarToEnum this)).
Proof. reflexivity. Qed.

Lemma reviseForBadNumbers_not_scalar (c : Column) (l : list JS.value) :
  _type c <> VarType.SCALAR -> reviseForBadNumbers c l = Ok c.
Proof.
  intros H. unfold reviseForBadNumbers.
  destruct (VarType.eqb_spec (_type c) VarType.SCALAR); [contradiction|].
  now rewrite andb_false_r.
Qed.

Lemma initialiseTime_no_dates (R : Runtime) (c : Column)
    (values : list JS.value) :
  _values c = Some values ->
  parsedDates R (_subtype c) values = [] ->
  initialiseTime R c = Ok (with_type (with_dates c [] []) VarType.SCALAR).
Proof.
  intros Hv Hp. unfold initialiseTime.
  rewrite (convertToDates_parsedDates R c values Hv), Hp. reflexivity.
Qed.

Lemma updateForType_time_fields (c c' : Column) :
  updateForType c = Ok c' ->
  dates c' = dates c /\ julianDates c' = julianDates c
  /\ finishJulianDates c' = finishJulianDates c
  /\ _availabilities c' = _availabilities c /\ _clock c' = _clock c.
Proof.
  unfold updateForType.
  change (usesIndicesIntoUniqueValues (with_uniqueValues c None))
    with (usesIndicesIntoUniqueValues c).
  destruct (usesIndicesIntoUniqueValues c).
  - change (_values (with_uniqueValues c None)) with (_values c).
    destruct (_values c) as [values|]; [|discriminate].
    simpl. destruct (opt_displayVariableTypes (options c));
      intros [= <-]; simpl; auto.
  - simpl. destruct (opt_displayVariableTypes (options c));
      intros [= <-]; simpl; auto.
Qed.

(** C6, amended.  When the type is resolved to TIME and no pair of dates
    comes out of the values, construction returns a column: its [dates] and
    [julianDates] are empty arrays, its finish dates, availabilities and
    clock are undefined, and its type is SCALAR when the minimum of the
    values is a number and ENUM when it is NaN. *)
Theorem unparsable_dates (R : Runtime) (name : string)
    (values : list JS.value) (options : option Options)
    (subtype : option VarSubType.t) :
  resolvedType name options = Ok (VarType.TIME, subtype) ->
  parsedDates R subtype values = [] ->
  exists c,
    TableColumn R name (Some values) options = Ok c
    /\ dates c = Some []
    /\ julianDates c = Some []
    /\ finishJulianDates c = None
    /\ _availabilities c = None
    /\ _clock c = None
    /\ _type c = (if is_nan (JS.Math_min values) then VarType.ENUM
                  else VarType.SCALAR).
Proof.
  intros Hty Hparsed. rewrite TableColumn_stages, Hty. cbn [bind].
  set (c0 := initialColumn name (Some values)
               (defaultValue options EMPTY_OBJECT) (VarType.TIME, subtype)).
  rewrite reviseForBadNumbers_not_scalar by (simpl; discriminate).
  cbn [bind]. change (_type c0) with VarType.TIME. cbn [VarType.eqb andb].
  rewrite (initialiseTime_no_dates R c0 values eq_refl Hparsed). cbn [bind].
  set (c1 := scalarToEnum (with_type (with_dates c0 [] []) VarType.SCALAR)).
  assert (Hc1 : _type c1 = (if is_nan (JS.Math_min values) then VarType.ENUM
                            else VarType.SCALAR)
                /\ _values c1 = Some values
                /\ dates c1 = Some [] /\ julianDates c1 = Some []
                /\ finishJulianDates c1 = None /\ _availabilities c1 = None
                /\ _clock c1 = None).
  { unfold c1, scalarToEnum.
    change (JS.isNaN (JS.VNumber (_minimumValue
              (with_type (with_dates c0 [] []) VarType.SCALAR))))
      with (is_nan (JS.Math_min values)).
    change (_type (with_type (with_dates c0 [] []) VarType.SCALAR))
      with VarType.SCALAR.
    destruct (is_nan (JS.Math_min values)); repeat split. }
  destruct Hc1 as (Ht & Hv & Hd & Hj & Hf & Ha & Hk).
  destruct (updateForType_Ok c1) as (c & Hc).
  { intros Hnone. rewrite Hv in Hnone. discriminate. }
  exists c. split; [exact Hc|].
  pose proof (updateForType_time_fields _ _ Hc) as (-> & -> & -> & -> & ->).
  apply updateForType_fields in Hc as (-> & _).
  repeat split; assumption.
Qed.

Lemma unparsable_dates_witness :
  exists c,
    TableColumn Sample.runtime "date" (Some [JS.VString "foo"]) None = Ok c
    /\ dates c = Some []
    /\ julianDates c = Some []
    /\ finishJulianDates c = None
    /\ _availabilities c = None
    /\ _clock c = None
    /\ _type c = VarType.ENUM.
Proof.
  apply (unparsable_dates Sample.runtime "date" [JS.VString "foo"] None None);
    reflexivity.
Defined.

(** ** Finish dates *)

Section FinishDates.

(** *** Sorting *)

Lemma sort_insert_In (x y : JulianDate.t) (l : list JulianDate.t) :
  In y (sort_insert JulianDate.compare x l) <-> y = x \/ In y l.
Proof.
  induction l as [|z l IH]; simpl; [intuition|].
  destruct (JulianDate.compare x z <=? 0)%float; simpl; [intuition|].
  rewrite IH. intuition.
Qed.

Lemma Array_sort_In (y : JulianDate.t) (l : list JulianDate.t) :
  In y (Array_sort JulianDate.compare l) <-> In y l.
Proof.
  induction l as [|x l IH]; simpl; [tauto|].
  rewrite sort_insert_In, IH. intuition.
Qed.

Lemma Array_sort_length (l : list JulianDate.t) :
  length (Array_sort JulianDate.compare l) = length l.
Proof.
  induction l as [|x l IH]; simpl; [reflexivity|].
  rewrite <- IH. generalize (Array_sort JulianDate.compare l) as s.
  induction s as [|z s IHs]; simpl; [reflexivity|].
  destruct (JulianDate.compare x z <=? 0)%float; simpl; congruence.
Qed.

(** *** Removing repeated dates *)

(** The filter of [uniqueSortedDates] compares each date with the one
    before it in the sorted array. *)
Fixpoint distinct_after (previous : JulianDate.t) (l : list JulianDate.t)
    : list JulianDate.t :=
  match l with
  | [] => []
  | x :: l' =>
      if JulianDate.equals previous x then distinct_after x l'
      else x :: distinct_after x l'
  end.

Definition distinct (l : list JulianDate.t) : list JulianDate.t :=
  match l with
  | [] => []
  | x :: l' => x :: distinct_after x l'
  end.

Definition keepDistinct (element : JulianDate.t) (index : nat)
    (array : list JulianDate.t) : bool :=
  (index =? 0)%nat
  || negb (JulianDate.equals (nth (index - 1) array element) element).

Lemma filteri_from_distinct_after (before : list JulianDate.t)
    (x : JulianDate.t) (l : list JulianDate.t) :
  filteri_from keepDistinct (before ++ x :: l) (S (length before)) l
  = distinct_after x l.
Proof.
  revert before x; induction l as [|y l IH]; intros before x; simpl;
    [reflexivity|].
  unfold keepDistinct at 1. simpl. rewrite Nat.sub_0_r.
  rewrite nth_middle.
  specialize (IH (before ++ [x]) y).
  rewrite <- app_assoc, length_app, Nat.add_1_r in IH. simpl in IH.
  rewrite IH. now destruct (JulianDate.equals x y).
Qed.

Lemma uniqueSortedDates_distinct (julianDates : list JulianDate.t) :
  uniqueSortedDates julianDates
  = distinct (Array_sort JulianDate.compare julianDates).
Proof.
  unfold uniqueSortedDates, filteri.
  change (fun element index array =>
            (index =? 0)%nat
            || negb (JulianDate.equals (nth (index - 1) array element) element))
    with keepDistinct.
  destruct (Array_sort JulianDate.compare julianDates) as [|x l];
    [reflexivity|].
  simpl. f_equal. apply (filteri_from_distinct_after [] x l).
Qed.

Lemma distinct_after_In (previous y : JulianDate.t) (l : list JulianDate.t) :
  In y (distinct_after previous l) -> In y l.
Proof.
  revert previous; induction l as [|x l IH]; intros previous; simpl; [tauto|].
  destruct (JulianDate.equals previous x); simpl; intuition eauto.
Qed.

(** The distinct dates are dates of the column, and there is one when the
    column has a date. *)
Lemma uniqueSortedDates_In (julianDates : list JulianDate.t)
    (d : JulianDate.t) :
  In d (uniqueSortedDates julianDates) -> In d julianDates.
Proof.
  rewrite uniqueSortedDates_distinct.
  pose proof (Array_sort_In d julianDates) as Hin.
  destruct (Array_sort JulianDate.compare julianDates) as [|x l];
    simpl in *; [tauto|].
  intros [<-|Hd]; apply Hin; [now left|].
  right. eapply distinct_after_In; eassumption.
Qed.

Lemma uniqueSortedDates_nonempty (julianDates : list JulianDate.t) :
  julianDates <> [] -> uniqueSortedDates julianDates <> [].
Proof.
  intros Hne. rewrite uniqueSortedDates_distinct.
  pose proof (Array_sort_length julianDates) as Hlen.
  destruct (Array_sort JulianDate.compare julianDates) as [|x l];
    [|discriminate].
  destruct julianDates; [congruence | discriminate].
Qed.

(** *** End dates *)

(** The end of the date [previous] when the next distinct date is [next],
    as the callback of [endDates] computes it. *)
Definition endOf (previous next : JulianDate.t) : JulianDate.t :=
  let secondsDifference := JulianDate.secondsDifference next previous in
  if (secondsDifference <? 20)%float
  then JulianDate.addSeconds previous (secondsDifference * 0.95)%float
  else JulianDate.addSeconds next (-1)%float.

Fixpoint ends_after (previous : JulianDate.t) (l : list JulianDate.t)
    : list JulianDate.t :=
  match l with
  | [] => []
  | next :: l' => endOf previous next :: ends_after next l'
  end.

Lemma mapi_from_ends_after (revisedDates before : list JulianDate.t)
    (x : JulianDate.t) (l : list JulianDate.t) :
  revisedDates = before ++ x :: l ->
  mapi_from
    (fun rawEndDate index =>
       let previous := nth index revisedDates rawEndDate in
       let secondsDifference :=
         JulianDate.secondsDifference rawEndDate previous in
       if lessThan20 secondsDifference
       then JulianDate.addSeconds previous (secondsDifference * 0.95)%float
       else JulianDate.addSeconds rawEndDate (-1)%float)
    (length before) l
  = ends_after x l.
Proof.
  revert before x; induction l as [|y l IH]; intros before x Hr; simpl;
    [reflexivity|].
  f_equal.
  - rewrite Hr, nth_middle. reflexivity.
  - specialize (IH (before ++ [x]) y).
    rewrite length_app, Nat.add_1_r in IH. apply IH.
    now rewrite <- app_assoc.
Qed.

Lemma innerEndDates_ends_after (x : JulianDate.t) (l : list JulianDate.t) :
  innerEndDates (x :: l) = ends_after x l.
Proof.
  unfold innerEndDates, mapi. simpl tl.
  apply (mapi_from_ends_after (x :: l) [] x l eq_refl).
Qed.

Lemma ends_after_length (x : JulianDate.t) (l : list JulianDate.t) :
  length (ends_after x l) = length l.
Proof. revert x; induction l; intros x; simpl; auto. Qed.

Lemma ends_after_nth (x : JulianDate.t) (l : list JulianDate.t) (k : nat)
    (dk dnext : JulianDate.t) :
  nth_error (x :: l) k = Some dk ->
  nth_error l k = Some dnext ->
  nth_error (ends_after x l) k = Some (endOf dk dnext).
Proof.
  revert x k; induction l as [|y l IH]; intros x [|k]; simpl;
    try discriminate.
  - now intros [= ->] [= ->].
  - intros Hk Hn. now apply IH.
Qed.

Lemma nth_error_last_length {A : Type} (l : list A) (k : nat) (x : A) :
  nth_error l k = Some x -> nth_error l (S k) = None -> S k = length l.
Proof.
  intros Hk Hn. apply nth_error_None in Hn.
  assert (k < length l)%nat by (apply nth_error_Some; congruence). lia.
Qed.

(** The end date of the [k]-th of the distinct dates [revisedDates], as
    the source computes it: from the next distinct date when there is one,
    and from the average spacing, or the default duration, for the last
    one.  Every operation is one of Cesium on doubles. *)
Definition endDateOf (revisedDates : list JulianDate.t) (k : nat)
    : option JulianDate.t :=
  match nth_error revisedDates k, nth_error revisedDates (S k) with
  | Some date, Some next =>
      let secondsDifference := JulianDate.secondsDifference next date in
      Some (if (secondsDifference <? 20)%float
            then JulianDate.addSeconds date (secondsDifference * 0.95)%float
            else JulianDate.addSeconds next (-1)%float)
  | Some date, None =>
      Some (JulianDate.addSeconds date
              (match revisedDates with
               | first :: _ :: _ =>
                   (JulianDate.secondsDifference date first
                    / JS.of_Z (Z.of_nat (length revisedDates - 1)))%float
               | _ => 86399%float
               end))
  | None, _ => None
  end.

Lemma finalDurationSeconds_cases (revisedDates : list JulianDate.t)
    (final : JulianDate.t) :
  nth_error revisedDates (length revisedDates - 1) = Some final ->
  finalDurationSeconds revisedDates
  = match revisedDates with
    | first :: _ :: _ =>
        (JulianDate.secondsDifference final first
         / JS.of_Z (Z.of_nat (length revisedDates - 1)))%float
    | _ => 86399%float
    end.
Proof.
  intros Hfinal. unfold finalDurationSeconds.
  destruct revisedDates as [|first [|second rest]]; try reflexivity.
  replace (1 <? length (first :: second :: rest))%nat with true
    by (symmetry; apply Nat.ltb_lt; simpl; lia).
  rewrite (nth_error_nth _ _ JulianDate.default Hfinal). reflexivity.
Qed.

(** The end dates: one for each distinct date, each as [endDateOf] gives
    it. *)
Lemma endDates_endDateOf (revisedDates : list JulianDate.t) :
  revisedDates <> [] ->
  exists ends,
    endDates revisedDates = Ok ends
    /\ length ends = length revisedDates
    /\ forall k, nth_error ends k = endDateOf revisedDates k.
Proof.
  intros Hne. destruct revisedDates as [|first rest]; [congruence|].
  destruct (nth_error (first :: rest) (length (first :: rest) - 1))
    as [final|] eqn:Hfinal.
  2:{ apply nth_error_None in Hfinal. simpl in Hfinal. lia. }
  exists (ends_after first rest
          ++ [JulianDate.addSeconds final
                (finalDurationSeconds (first :: rest))]).
  split; [|split].
  - unfold endDates. rewrite Hfinal, innerEndDates_ends_after. reflexivity.
  - rewrite length_app, ends_after_length. simpl. lia.
  - intros k. unfold endDateOf.
    destruct (nth_error (first :: rest) k) as [date|] eqn:Hk.
    + change (nth_error (first :: rest) (S k)) with (nth_error rest k).
      destruct (nth_error rest k) as [next|] eqn:Hn.
      * rewrite nth_error_app1
          by (rewrite ends_after_length; apply nth_error_Some; congruence).
        apply (ends_after_nth first rest k date next Hk Hn).
      * pose proof (nth_error_last_length (first :: rest) k date Hk Hn)
          as HSk.
        simpl in HSk. injection HSk as ->.
        simpl length in Hfinal. rewrite Nat.sub_succ, Nat.sub_0_r in Hfinal.
        rewrite Hk in Hfinal. injection Hfinal as ->.
        rewrite nth_error_app2 by (rewrite ends_after_length; lia).
        rewrite ends_after_length, Nat.sub_diag. simpl nth_error.
        rewrite (finalDurationSeconds_cases (first :: rest) final);
          [reflexivity|].
        simpl length. now rewrite Nat.sub_succ, Nat.sub_0_r.
    + apply nth_error_None in Hk. apply nth_error_None.
      rewrite length_app, ends_after_length. simpl in *. lia.
Qed.

(** *** The scan of a row *)

(** [find] returns the first element that passes the test. *)
Lemma find_first {A : Type} (p : A -> bool) (l : list A) (k : nat) (x : A) :
  nth_error l k = Some x ->
  p x = true ->
  (forall j y, (j < k)%nat -> nth_error l j = Some y -> p y = false) ->
  find p l = Some x.
Proof.
  revert k; induction l as [|z l IH]; intros [|k] Hk Hx Hbefore;
    simpl in *; try discriminate.
  - injection Hk as ->. now rewrite Hx.
  - rewrite (Hbefore 0%nat z) by (reflexivity || lia).
    apply (IH k Hk Hx). intros j y Hj Hy.
    apply (Hbefore (S j) y); [lia | exact Hy].
Qed.

Lemma find_None_all {A : Type} (p : A -> bool) (l : list A) :
  find p l = None <-> forall x, In x l -> p x = false.
Proof.
  induction l as [|z l IH]; simpl; [tauto|].
  destruct (p z) eqn:Hz.
  - split; [discriminate|]. intros H. rewrite (H z) in Hz by now left.
    discriminate.
  - rewrite IH. split.
    + intros H x [<-|Hx]; auto.
    + intros H x Hx. apply H. now right.
Qed.

(** What [calculateFinishDates] returns for the dates of a column that has
    one date at least: for each row, the first end date that is later than
    the date of the row. *)
Lemma calculateFinishDates_scan (julianDates : list JulianDate.t) :
  julianDates <> [] ->
  exists ends,
    endDates (uniqueSortedDates julianDates) = Ok ends
    /\ length ends = length (uniqueSortedDates julianDates)
    /\ (forall k,
          nth_error ends k = endDateOf (uniqueSortedDates julianDates) k)
    /\ calculateFinishDates julianDates
       = Ok (map (fun startDate =>
                    find (fun endDate =>
                            JulianDate.greaterThan endDate startDate)
                         ends)
                 julianDates).
Proof.
  intros Hne.
  destruct (endDates_endDateOf (uniqueSortedDates julianDates)
              (uniqueSortedDates_nonempty julianDates Hne))
    as (ends & Hends & Hlen & Hnth).
  exists ends. repeat split; try assumption.
  unfold calculateFinishDates. rewrite Hends. cbn [bind].
  unfold firstEndDateAfter. rewrite <- Hlen, firstn_all. reflexivity.
Qed.


End FinishDates.
(** ** The distinct dates in their order *)

Section DistinctDates.

Definition ascending : list JulianDate.t -> Prop :=
  StronglySorted (fun x y => not_later (place x) (place y)).

Definition strictly_ascending : list JulianDate.t -> Prop :=
  StronglySorted (fun x y => earlier (place x) (place y)).

(** [x] stands in [l]: a date of [l] is equal to it. *)
Definition stands_in (x : JulianDate.t) (l : list JulianDate.t) : Prop :=
  exists y, In y l /\ JulianDate.equals y x = true.

Lemma sort_insert_finite (x : JulianDate.t) (l : list JulianDate.t) :
  finiteSeconds x -> Forall finiteSeconds l ->
  Forall finiteSeconds (sort_insert JulianDate.compare x l).
Proof.
  intros Hx Hl. rewrite Forall_forall in *. intros y Hy.
  apply (proj1 (sort_insert_In x y l)) in Hy as [->|Hy];
    [exact Hx | exact (Hl y Hy)].
Qed.

Lemma Array_sort_finite (l : list JulianDate.t) :
  Forall finiteSeconds l ->
  Forall finiteSeconds (Array_sort JulianDate.compare l).
Proof.
  intros Hl. rewrite Forall_forall in *. intros y Hy.
  apply (proj1 (Array_sort_In y l)) in Hy. exact (Hl y Hy).
Qed.

Lemma sort_insert_ascending (x : JulianDate.t) (l : list JulianDate.t) :
  finiteSeconds x -> Forall finiteSeconds l ->
  ascending l -> ascending (sort_insert JulianDate.compare x l).
Proof.
  intros Hx. induction l as [|z l IH]; intros Hf Hl; simpl.
  - repeat constructor.
  - apply StronglySorted_inv in Hl as [Hl Hz].
    apply Forall_cons_iff in Hf as [Hfz Hf].
    pose proof (compare_not_later x z Hx Hfz) as Hc.
    destruct (JulianDate.compare x z <=? 0)%float.
    + destruct Hc as [Hc _]. specialize (Hc eq_refl).
      constructor; [constructor; assumption|].
      constructor; [exact Hc|].
      rewrite Forall_forall in *. intros y Hy. specialize (Hz y Hy).
      unfold not_later in *. lia.
    + assert (Hn : ~ not_later (place x) (place z))
        by (intros H; apply Hc in H; discriminate H).
      assert (Hzx : not_later (place z) (place x))
        by (unfold not_later in *; lia).
      constructor; [now apply IH|].
      rewrite Forall_forall in *. intros y Hy.
      apply (proj1 (sort_insert_In x y l)) in Hy as [->|Hy]; auto.
Qed.

Lemma Array_sort_ascending (l : list JulianDate.t) :
  Forall finiteSeconds l -> ascending (Array_sort JulianDate.compare l).
Proof.
  induction l as [|x l IH]; intros Hf; simpl; [constructor|].
  apply Forall_cons_iff in Hf as [Hx Hf].
  apply sort_insert_ascending; auto using Array_sort_finite.
Qed.

Lemma distinct_after_strict (previous : JulianDate.t)
    (l : list JulianDate.t) :
  finiteSeconds previous -> Forall finiteSeconds l ->
  ascending (previous :: l) ->
  strictly_ascending (distinct_after previous l)
  /\ Forall (fun y => earlier (place previous) (place y))
       (distinct_after previous l).
Proof.
  revert previous; induction l as [|x l IH]; intros previous Hp Hf Hs; simpl.
  - split; constructor.
  - apply StronglySorted_inv in Hs as [Hl Hall].
    apply Forall_inv in Hall as Hpx.
    apply Forall_cons_iff in Hf as [Hx Hf].
    destruct (IH x Hx Hf Hl) as [Hsorted Hafter].
    pose proof (equals_place previous x Hp Hx) as He.
    destruct (JulianDate.equals previous x).
    + destruct He as [He _]. rewrite (He eq_refl). split; assumption.
    + assert (Hne : place previous <> place x)
        by (intros H; apply He in H; discriminate H).
      assert (Hd : fst (place previous) <> fst (place x)
                   \/ snd (place previous) <> snd (place x)).
      { destruct (Z.eq_dec (fst (place previous)) (fst (place x)));
          [|now left].
        destruct (Z.eq_dec (snd (place previous)) (snd (place x)));
          [|now right].
        exfalso. apply Hne. now apply injective_projections. }
      assert (Hlt : earlier (place previous) (place x))
        by (unfold earlier, not_later in *; lia).
      split.
      * constructor; assumption.
      * constructor; [assumption|].
        rewrite Forall_forall in *. intros y Hy. specialize (Hafter y Hy).
        unfold earlier in *. lia.
Qed.

Lemma equals_refl (x : JulianDate.t) :
  finiteSeconds x -> JulianDate.equals x x = true.
Proof. intros Hx. now apply equals_place. Qed.

Lemma distinct_after_stands_in (previous x : JulianDate.t)
    (l : list JulianDate.t) :
  finiteSeconds previous -> Forall finiteSeconds l ->
  In x l ->
  JulianDate.equals previous x = true
  \/ stands_in x (distinct_after previous l).
Proof.
  revert previous; induction l as [|z l IH]; intros previous Hp Hf; simpl;
    [tauto|].
  apply Forall_cons_iff in Hf as [Hz Hf].
  assert (Hfx : forall y, In y l -> finiteSeconds y)
    by (now apply Forall_forall).
  intros [->|Hin].
  - destruct (JulianDate.equals previous x) eqn:He; [now left|].
    right. exists x. split; [now left | now apply equals_refl].
  - destruct (IH z Hz Hf Hin) as [Hzx|(y & Hy & Hyx)].
    + destruct (JulianDate.equals previous z) eqn:He.
      * left. apply equals_place; auto.
        apply equals_place in He; auto. apply equals_place in Hzx; auto.
        congruence.
      * right. exists z. split; [now left | exact Hzx].
    + right. exists y. split; [|assumption].
      destruct (JulianDate.equals previous z); [|right]; assumption.
Qed.

Lemma strictly_ascending_nth_lt (l : list JulianDate.t) (j k : nat)
    (dj dk : JulianDate.t) :
  strictly_ascending l ->
  nth_error l j = Some dj -> nth_error l k = Some dk -> (j < k)%nat ->
  earlier (place dj) (place dk).
Proof.
  revert j k; induction l as [|x l IH]; intros j k Hs Hj Hk Hjk.
  - destruct j; discriminate.
  - apply StronglySorted_inv in Hs as [Hl Hall].
    destruct k as [|k]; [lia|]. simpl in Hk.
    destruct j as [|j]; simpl in Hj.
    + injection Hj as <-. rewrite Forall_forall in Hall.
      apply Hall. eapply nth_error_In; eassumption.
    + apply (IH j k); auto. lia.
Qed.

(** The distinct dates of dates whose seconds are finite numbers: each
    later than the one before it, and each date of the column equal to one
    of them. *)
Lemma uniqueSortedDates_ascending (julianDates : list JulianDate.t) :
  Forall finiteSeconds julianDates ->
  (forall j k dj dk,
     (j < k)%nat ->
     nth_error (uniqueSortedDates julianDates) j = Some dj ->
     nth_error (uniqueSortedDates julianDates) k = Some dk ->
     JulianDate.greaterThan dk dj = true)
  /\ (forall x, In x julianDates ->
        stands_in x (uniqueSortedDates julianDates)).
Proof.
  intros Hf.
  assert (Hfin : forall d, In d (uniqueSortedDates julianDates) ->
                           finiteSeconds d).
  { intros d Hd. apply uniqueSortedDates_In in Hd.
    rewrite Forall_forall in Hf. auto. }
  revert Hfin. rewrite uniqueSortedDates_distinct.
  pose proof (Array_sort_ascending julianDates Hf) as Hs.
  pose proof (Array_sort_finite julianDates Hf) as Hsf.
  pose proof (fun y => Array_sort_In y julianDates) as Hin.
  destruct (Array_sort JulianDate.compare julianDates) as [|x l];
    cbn [distinct]; intros Hfin.
  - split.
    + intros j k dj dk _ Hj. destruct j; discriminate Hj.
    + intros y Hy. apply (proj2 (Hin y)) in Hy. destruct Hy.
  - apply Forall_cons_iff in Hsf as [Hx Hl].
    destruct (distinct_after_strict x l Hx Hl Hs) as [Hsorted Hafter].
    assert (Hstrict : strictly_ascending (x :: distinct_after x l))
      by (constructor; assumption).
    split.
    + intros j k dj dk Hjk Hj Hk.
      apply greaterThan_earlier;
        [eapply Hfin, nth_error_In; eassumption
        |eapply Hfin, nth_error_In; eassumption|].
      exact (strictly_ascending_nth_lt _ j k dj dk Hstrict Hj Hk Hjk).
    + intros y Hy. apply (proj2 (Hin y)) in Hy. simpl in Hy.
      destruct Hy as [<-|Hy].
      * exists x. split; [now left | now apply equals_refl].
      * destruct (distinct_after_stands_in x y l Hx Hl Hy)
          as [He|(z & Hz & Hzy)].
        -- exists x. split; [now left | exact He].
        -- exists z. split; [now right | assumption].
Qed.

Lemma find_some_exists {A : Type} (p : A -> bool) (l : list A) (x : A) :
  In x l -> p x = true -> exists y, find p l = Some y.
Proof.
  induction l as [|z l IH]; simpl; [tauto|].
  intros [->|Hx] Hp.
  - rewrite Hp. eauto.
  - destruct (p z); eauto.
Qed.

(** An end date that is later than the last distinct date is later than
    every date of the column: no scan runs off the end. *)
Lemma later_than_last_serves_every_row (julianDates : list JulianDate.t)
    (ends : list JulianDate.t) (lastDate lastEnd x : JulianDate.t) :
  Forall finiteSeconds julianDates ->
  nth_error (uniqueSortedDates julianDates)
    (length (uniqueSortedDates julianDates) - 1) = Some lastDate ->
  In lastEnd ends ->
  finiteSeconds lastEnd ->
  JulianDate.greaterThan lastEnd lastDate = true ->
  In x julianDates ->
  exists finish,
    find (fun endDate => JulianDate.greaterThan endDate x) ends
    = Some finish.
Proof.
  intros Hf Hlast Hin Hfe Hlater Hx.
  destruct (uniqueSortedDates_ascending julianDates Hf) as [Hasc Hstands].
  assert (Hfin : forall d, In d julianDates -> finiteSeconds d)
    by (now apply Forall_forall).
  assert (HfinD : forall d, In d (uniqueSortedDates julianDates) ->
                            finiteSeconds d).
  { intros d Hd. apply Hfin. now apply uniqueSortedDates_In. }
  destruct (Hstands x Hx) as (y & Hy & Hyx).
  pose proof (HfinD y Hy) as Hfy.
  pose proof (HfinD lastDate (nth_error_In _ _ Hlast)) as Hfl.
  apply (equals_place y x Hfy (Hfin x Hx)) in Hyx.
  apply (greaterThan_earlier lastEnd lastDate Hfe Hfl) in Hlater.
  apply (find_some_exists _ ends lastEnd Hin).
  apply (greaterThan_earlier lastEnd x Hfe (Hfin x Hx)).
  rewrite <- Hyx.
  apply In_nth_error in Hy as (k & Hk).
  assert (Hklt : (k < length (uniqueSortedDates julianDates))%nat)
    by (apply nth_error_Some; congruence).
  destruct (Nat.eq_dec k (length (uniqueSortedDates julianDates) - 1))
    as [->|Hne].
  - rewrite Hk in Hlast. injection Hlast as ->. exact Hlater.
  - assert (Hky : JulianDate.greaterThan lastDate y = true).
    { apply (Hasc k (length (uniqueSortedDates julianDates) - 1)%nat);
        [lia | assumption..]. }
    apply (greaterThan_earlier lastDate y Hfl Hfy) in Hky.
    unfold earlier in *. lia.
Qed.


End DistinctDates.
(** *** The finish dates of a column *)

(** The instant of a date as an exact number of seconds since Julian day
    zero. *)
Definition exactInstant (date : JulianDate.t) : option Q :=
  option_map
    (fun seconds =>
       (inject_Z (86400 * JulianDate.dayNumber date) + seconds)%Q)
    (JS.exact (JulianDate.secondsOfDay date)).

(** Two instants three seconds apart: 11:59:25 and 11:59:28 UTC of
    1 January 2015 are the seconds 0 and 3 of day 2457024 in TAI. *)
Definition threeSecondsApart : list JulianDate.t :=
  [JulianDate.Make 2457024 0%float; JulianDate.Make 2457024 3%float].

(** C4, as the spec states it, fails on the arithmetic: the instants are
    doubles, and so is the factor 0.95.  For two instants three seconds
    apart the end date of the first is not the first instant plus 95% of
    the gap, which no double is, and not the double nearest to it either:
    the code returns second 2.8499999999999996 of the day, and the double
    nearest to 2.85 is another one. *)
Lemma finish_is_not_95_percent_of_the_gap :
  exists finish finalFinish t0 t1 t,
    calculateFinishDates threeSecondsApart
    = Ok [Some finish; Some finalFinish]
    /\ map exactInstant threeSecondsApart = [Some t0; Some t1]
    /\ exactInstant finish = Some t
    /\ (t1 - t0 < 20)%Q
    /\ ~ (t == t0 + (95 # 100) * (t1 - t0))%Q
    /\ JulianDate.dayNumber finish = 2457024
    /\ (JulianDate.secondsOfDay finish =? JS.nearest_double false 285 100)%float
       = false.
Proof.
  do 5 eexists.
  split; [vm_compute; reflexivity|].
  split; [vm_compute; reflexivity|].
  split; [vm_compute; reflexivity|].
  split; [vm_compute; reflexivity|].
  split; [vm_compute; discriminate|].
  split; vm_compute; reflexivity.
Qed.

(** C4, amended.  Let D be the distinct dates of a column that has one date
    at least, as the source sorts and filters them, and E the end dates it
    computes from D.  D is not empty and holds dates of the column only;
    when the seconds of every date are finite numbers, each date of D is
    later than the one before it, and every date of the column is equal to
    one of D.  E has one date for each date of D: for a date of D that has a
    next one, one second taken from the next date when [secondsDifference]
    gives 20 or more, and the date plus [secondsDifference * 0.95] when it
    gives less; for the last date of D, the date plus
    [secondsDifference(last, first) / (|D| - 1)] when |D| > 1, and plus
    86399 seconds when |D| = 1.  Every operation is the one of Cesium on
    doubles.  The finish date of a row is the first date of E that
    [greaterThan] places after the date of the row: it is the [k]-th one
    when that one is later than the date of the row and none before it is,
    and a finish date that is defined is later than the date of its row.
    Every row has a finish date when the last date of E is later than the
    last date of D. *)
Theorem finish_dates_of_distinct_instants (julianDates : list JulianDate.t) :
  julianDates <> [] ->
  uniqueSortedDates julianDates <> []
  /\ (forall d, In d (uniqueSortedDates julianDates) -> In d julianDates)
  /\ (Forall finiteSeconds julianDates ->
      (forall j k dj dk,
         (j < k)%nat ->
         nth_error (uniqueSortedDates julianDates) j = Some dj ->
         nth_error (uniqueSortedDates julianDates) k = Some dk ->
         JulianDate.greaterThan dk dj = true)
      /\ (forall x,
            In x julianDates ->
            exists d,
              In d (uniqueSortedDates julianDates)
              /\ JulianDate.equals d x = true))
  /\ exists ends finishes,
       endDates (uniqueSortedDates julianDates) = Ok ends
       /\ calculateFinishDates julianDates = Ok finishes
       /\ length ends = length (uniqueSortedDates julianDates)
       /\ length finishes = length julianDates
       /\ (forall k,
             nth_error ends k = endDateOf (uniqueSortedDates julianDates) k)
       /\ (forall i start,
             nth_error julianDates i = Some start ->
             nth_error finishes i
             = Some (find (fun endDate =>
                             JulianDate.greaterThan endDate start) ends)
             /\ (forall k e,
                   nth_error ends k = Some e ->
                   JulianDate.greaterThan e start = true ->
                   (forall j e',
                      (j < k)%nat -> nth_error ends j = Some e' ->
                      JulianDate.greaterThan e' start = false) ->
                   nth_error finishes i = Some (Some e))
             /\ (forall finish,
                   nth_error finishes i = Some (Some finish) ->
                   JulianDate.greaterThan finish start = true))
       /\ (Forall finiteSeconds julianDates ->
           forall lastDate lastEnd,
             nth_error (uniqueSortedDates julianDates)
               (length (uniqueSortedDates julianDates) - 1) = Some lastDate ->
             nth_error ends (length (uniqueSortedDates julianDates) - 1)
               = Some lastEnd ->
             finiteSeconds lastEnd ->
             JulianDate.greaterThan lastEnd lastDate = true ->
             forall i start,
               nth_error julianDates i = Some start ->
               exists finish, nth_error finishes i = Some (Some finish)).
Proof.
  intros Hne.
  split; [now apply uniqueSortedDates_nonempty|].
  split; [apply uniqueSortedDates_In|].
  split; [apply uniqueSortedDates_ascending|].
  destruct (calculateFinishDates_scan julianDates Hne)
    as (ends & Hends & Hlen & Hnth & Hcalc).
  eexists ends, _. split; [exact Hends|]. split; [exact Hcalc|].
  split; [exact Hlen|]. split; [apply length_map|]. split; [exact Hnth|].
  assert (Hrow : forall i start,
            nth_error julianDates i = Some start ->
            nth_error
              (map (fun startDate =>
                      find (fun endDate =>
                              JulianDate.greaterThan endDate startDate)
                           ends)
                   julianDates) i
            = Some (find (fun endDate =>
                            JulianDate.greaterThan endDate start) ends))
    by (intros i start Hi; rewrite nth_error_map, Hi; reflexivity).
  split.
  - intros i start Hi. split; [exact (Hrow i start Hi)|]. split.
    + intros k e Hk He Hbefore. rewrite (Hrow i start Hi). f_equal.
      exact (find_first _ ends k e Hk He Hbefore).
    + intros finish Hf. rewrite (Hrow i start Hi) in Hf. injection Hf as Hf.
      now apply find_some in Hf as [_ Hf].
  - intros Hfin lastDate lastEnd Hlast Hend Hfe Hlater i start Hi.
    destruct (later_than_last_serves_every_row julianDates ends
                lastDate lastEnd start Hfin Hlast
                (nth_error_In _ _ Hend) Hfe Hlater (nth_error_In _ _ Hi))
      as (finish & Hfinish).
    exists finish. now rewrite (Hrow i start Hi), Hfinish.
Qed.

Lemma finish_dates_of_distinct_instants_witness :
  exists ends finishes,
    endDates (uniqueSortedDates [Sample.jan2; Sample.jan1; Sample.jan2])
      = Ok ends
    /\ calculateFinishDates [Sample.jan2; Sample.jan1; Sample.jan2]
       = Ok finishes
    /\ nth_error ends 0
       = endDateOf (uniqueSortedDates [Sample.jan2; Sample.jan1; Sample.jan2])
           0
    /\ nth_error finishes 1
       = Some (find (fun endDate =>
                       JulianDate.greaterThan endDate Sample.jan1) ends).
Proof.
  destruct (finish_dates_of_distinct_instants
              [Sample.jan2; Sample.jan1; Sample.jan2])
    as (_ & _ & _ & ends & finishes & Hends & Hcalc & _ & _ & Hnth & Hrows
        & _);
    [discriminate|].
  exists ends, finishes. split; [exact Hends|]. split; [exact Hcalc|].
  split; [apply Hnth|].
  now apply (Hrows 1%nat Sample.jan1).
Defined.

(** Two rows whose instants are next to each other among the doubles. *)
Definition closeInstants : list JS.value :=
  [JS.VString "2015-01-01T06:11:40.9999999999927Z";
   JS.VString "2015-01-01T06:11:41Z"].

(** C10 fails on the code.  The two instants of [closeInstants] are
    distinct and ascending, and [2^-37] seconds apart.  The end date of the
    first is the first plus 95% of the gap, which rounds to the second
    instant; the end date of the second is the second plus the gap, which
    rounds to the second instant too.  No end date is later than the
    second instant: the scan of the second row runs off the end, its
    finish date is undefined, and its availability has no interval. *)
Theorem close_instants_leave_a_row_without_finish_date :
  exists c,
    TableColumn Sample.runtime "date" (Some closeInstants) None = Ok c
    /\ _type c = VarType.TIME
    /\ julianDates c = Some [Sample.beforeTick; Sample.tick]
    /\ uniqueSortedDates [Sample.beforeTick; Sample.tick]
       = [Sample.beforeTick; Sample.tick]
    /\ JulianDate.greaterThan Sample.tick Sample.beforeTick = true
    /\ endDates [Sample.beforeTick; Sample.tick]
       = Ok [Sample.tick; Sample.tick]
    /\ JulianDate.greaterThan Sample.tick Sample.tick = false
    /\ finishJulianDates c = Some [Some Sample.tick; None]
    /\ _availabilities c
       = Some [[TimeInterval.Make Sample.beforeTick Sample.tick]; []].
Proof.
  eexists. split; [vm_compute; reflexivity|].
  repeat split; vm_compute; reflexivity.
Qed.
(** ** Availabilities *)

Section Availabilities.

Variable R : Runtime.




Lemma parsedDates_length (subtype : option VarSubType.t)
    (values : list JS.value) :
  parsedDates R subtype values <> [] ->
  length (parsedDates R subtype values) = length values.
Proof.
  unfold parsedDates.
  destruct (mapM (snd (dateParsers R subtype values)) values)
    as [results|e] eqn:Hm; simpl; [|congruence].
  intros _. now apply mapM_Ok_nth in Hm as [Hlen _].
Qed.


(** The stage of the constructor that fills the time fields, for a column
    that ends with the type TIME. *)
Lemma TableColumn_time_stage (name : string) (values : option (list JS.value))
    (options : option Options) (c : Column) :
  TableColumn R name values options = Ok c ->
  _type c = VarType.TIME ->
  exists c0 c2,
    _values c0 = values
    /\ _type c0 = VarType.TIME
    /\ displayDuration c0
       = opt_displayDuration (defaultValue options EMPTY_OBJECT)
    /\ _availabilities c0 = None
    /\ match values with
       | Some _ => initialiseTime R c0 = Ok c2
       | None => c2 = c0
       end
    /\ _type c2 = VarType.TIME
    /\ julianDates c = julianDates c2
    /\ finishJulianDates c = finishJulianDates c2
    /\ _availabilities c = _availabilities c2.
Proof.
  intros H Hty. rewrite TableColumn_stages in H.
  apply bind_Ok in H as (typeAndSubtype & _ & H).
  set (c0 := initialColumn name values (defaultValue options EMPTY_OBJECT)
               typeAndSubtype) in *.
  apply bind_Ok in H as (c1 & H1 & H).
  apply bind_Ok in H as (c2 & H2 & H).
  pose proof (updateForType_time_fields _ _ H) as (_ & Hj & Hf & Ha & _).
  apply updateForType_fields in H as (Ht & _).
  rewrite Hty in Ht.
  assert (Hc2 : scalarToEnum c2 = c2 /\ _type c2 = VarType.TIME).
  { unfold scalarToEnum in *.
    destruct (JS.isNaN (JS.VNumber (_minimumValue c2))
              && VarType.eqb (_type c2) VarType.SCALAR);
      [discriminate Ht | auto]. }
  destruct Hc2 as [Hsame Hty2]. rewrite Hsame in Hj, Hf, Ha.
  assert (Hty1 : _type c1 = VarType.TIME).
  { destruct (match values with Some _ => true | None => false end
              && VarType.eqb (_type c1) VarType.TIME) eqn:Hcond.
    - apply andb_prop in Hcond as [_ Hcond]. now apply VarType.eqb_eq.
    - injection H2 as <-. exact Hty2. }
  assert (Hc1 : c1 = c0).
  { pose proof (reviseForBadNumbers_fields _ _ _ H1) as (Hsame1 & _).
    rewrite reviseForBadNumbers_not_scalar in H1; [now injection H1|].
    rewrite <- Hsame1, Hty1. discriminate. }
  subst c1. rewrite Hty1 in H2. cbn [VarType.eqb] in H2.
  exists c0, c2. repeat split; try assumption.
  destruct values as [rows|]; cbn [andb] in H2;
    [exact H2 | now injection H2].
Qed.

End Availabilities.

(** The options of a column that is displayed for [minutes] minutes from
    each of its dates. *)
Definition displayedFor (minutes : JS.number) : Options :=
  {| opt_type := None; opt_subtype := None;
     opt_unallowedTypes := None; opt_displayVariableTypes := None;
     opt_replaceWithNullValues := None;
     opt_displayDuration := Some minutes |}.


(** With a display duration of minus one minute every interval is empty,
    nothing is added to the collection of the clock, and reading its start
    throws: there is no such column. *)
Remark negative_display_duration_throws :
  TableColumn Sample.runtime "date" (Some [JS.VString "2015-01-01"])
    (Some (displayedFor (-1)%float))
  = Throw TypeError.
Proof. vm_compute. reflexivity. Qed.



(** * Further properties of the column code *)
(* ================================================================== *)

(** ** Which fields each stage leaves alone *)

(** The fields no code after the first lines of the constructor assigns. *)
Definition same_identity (c c' : Column) : Prop :=
  name c' = name c /\ options c' = options c
  /\ _unallowedTypes c' = _unallowedTypes c
  /\ displayDuration c' = displayDuration c.

(** The values and the three views computed from them alone. *)
Definition same_numbers (c c' : Column) : Prop :=
  _values c' = _values c /\ _minimumValue c' = _minimumValue c
  /\ _maximumValue c' = _maximumValue c
  /\ _numericalValues c' = _numericalValues c.

(** The fields of a time column. *)
Definition same_times (c c' : Column) : Prop :=
  dates c' = dates c /\ julianDates c' = julianDates c
  /\ finishJulianDates c' = finishJulianDates c
  /\ _availabilities c' = _availabilities c /\ _clock c' = _clock c.

(** The fields [updateForType] assigns. *)
Definition same_views (c c' : Column) : Prop :=
  _uniqueValues c' = _uniqueValues c
  /\ _indicesIntoUniqueValues c' = _indicesIntoUniqueValues c
  /\ _displayVariableTypes c' = _displayVariableTypes c
  /\ isVisible c' = isVisible c.

Lemma updateForType_frame (c c' : Column) :
  updateForType c = Ok c' ->
  same_identity c c' /\ same_numbers c c' /\ same_times c c'
  /\ _type c' = _type c /\ _subtype c' = _subtype c.
Proof.
  unfold updateForType, same_identity, same_numbers, same_times.
  change (usesIndicesIntoUniqueValues (with_uniqueValues c None))
    with (usesIndicesIntoUniqueValues c).
  destruct (usesIndicesIntoUniqueValues c).
  - change (_values (with_uniqueValues c None)) with (_values c).
    destruct (_values c) as [values|] eqn:Hv; [|discriminate].
    simpl. destruct (opt_displayVariableTypes (options c));
      intros [= <-]; simpl; rewrite ?Hv; repeat split.
  - simpl. destruct (opt_displayVariableTypes (options c));
      intros [= <-]; simpl; repeat split.
Qed.

Lemma reviseForBadNumbers_frame (c c' : Column) (tokens : list JS.value) :
  reviseForBadNumbers c tokens = Ok c' ->
  same_identity c c' /\ same_times c c' /\ same_views c c'
  /\ _type c' = _type c /\ _subtype c' = _subtype c.
Proof.
  unfold reviseForBadNumbers, same_identity, same_times, same_views.
  destruct (JS.isNaN (JS.VNumber (_minimumValue c))
            && VarType.eqb (_type c) VarType.SCALAR);
    [|intros [= <-]; repeat split].
  destruct (_numericalValues c) as [numericalValues|]; [|discriminate].
  simpl. destruct (0 <? length numericalValues)%nat;
    [|intros [= <-]; repeat split].
  destruct (_values c); [|discriminate].
  simpl. intros [= <-]. simpl. repeat split.
Qed.

Lemma initialiseTime_frame (R : Runtime) (c c' : Column) :
  initialiseTime R c = Ok c' ->
  same_identity c c' /\ same_numbers c c' /\ same_views c c'.
Proof.
  unfold initialiseTime, same_identity, same_numbers, same_views. intros H.
  apply bind_Ok in H as (converted & _ & H).
  destruct (length (cd_jsDates converted) =? 0)%nat.
  - injection H as <-. repeat split.
  - apply bind_Ok in H as (finishes & _ & H).
    apply bind_Ok in H as (availabilities & _ & H).
    apply bind_Ok in H as (clock & _ & H).
    injection H as <-. repeat split.
Qed.

(** ** The minimum, the maximum and the numerical values *)

Lemma is_nan_min2 (a b : JS.number) :
  is_nan (JS.min2 a b) = is_nan a || is_nan b.
Proof.
  unfold JS.min2.
  destruct (is_nan a) eqn:Ha; [reflexivity|].
  destruct (is_nan b) eqn:Hb; [reflexivity|]. simpl.
  destruct (a <? b)%float; [assumption|].
  destruct (b <? a)%float; [assumption|].
  destruct (get_sign a); assumption.
Qed.

Lemma is_nan_max2 (a b : JS.number) :
  is_nan (JS.max2 a b) = is_nan a || is_nan b.
Proof.
  unfold JS.max2.
  destruct (is_nan a) eqn:Ha; [reflexivity|].
  destruct (is_nan b) eqn:Hb; [reflexivity|]. simpl.
  destruct (a <? b)%float; [assumption|].
  destruct (b <? a)%float; [assumption|].
  destruct (get_sign a); assumption.
Qed.

Lemma is_nan_fold (f : JS.number -> JS.number -> JS.number)
    (l : list JS.number) (start : JS.number) :
  (forall a b, is_nan (f a b) = is_nan a || is_nan b) ->
  is_nan (fold_left f l start) = is_nan start || existsb is_nan l.
Proof.
  intros Hf. revert start; induction l as [|x l IH]; intros start; simpl.
  - now rewrite orb_false_r.
  - now rewrite IH, Hf, orb_assoc.
Qed.

Lemma existsb_map_compose {A B : Type} (f : A -> B) (p : B -> bool)
    (l : list A) :
  existsb p (map f l) = existsb (fun x => p (f x)) l.
Proof. induction l as [|x l IH]; simpl; [reflexivity | now rewrite IH]. Qed.

(** [Math.min] and [Math.max] are NaN exactly when an argument converts
    to NaN. *)
Lemma Math_min_is_nan (args : list JS.value) :
  is_nan (JS.Math_min args) = existsb JS.isNaN args.
Proof.
  unfold JS.Math_min. rewrite (is_nan_fold JS.min2 _ _ is_nan_min2).
  rewrite existsb_map_compose. reflexivity.
Qed.

Lemma Math_max_is_nan (args : list JS.value) :
  is_nan (JS.Math_max args) = existsb JS.isNaN args.
Proof.
  unfold JS.Math_max. rewrite (is_nan_fold JS.max2 _ _ is_nan_max2).
  rewrite existsb_map_compose. reflexivity.
Qed.

(** The three views are those of the values the column holds. *)
Definition numbers_consistent (c : Column) : Prop :=
  _minimumValue c = JS.Math_min (JS.apply_args (_values c))
  /\ _maximumValue c = JS.Math_max (JS.apply_args (_values c))
  /\ _numericalValues c = option_map numerical (_values c).

Lemma numbers_consistent_same (c c' : Column) :
  same_numbers c c' -> numbers_consistent c -> numbers_consistent c'.
Proof.
  unfold same_numbers, numbers_consistent.
  intros (-> & -> & -> & ->). trivial.
Qed.

Lemma reviseForBadNumbers_consistent (c c' : Column) (tokens : list JS.value) :
  reviseForBadNumbers c tokens = Ok c' ->
  numbers_consistent c -> numbers_consistent c'.
Proof.
  unfold reviseForBadNumbers.
  destruct (JS.isNaN (JS.VNumber (_minimumValue c))
            && VarType.eqb (_type c) VarType.SCALAR);
    [|now intros [= <-]].
  destruct (_numericalValues c) as [numericalValues|]; [|discriminate].
  simpl. destruct (0 <? length numericalValues)%nat; [|now intros [= <-]].
  destruct (_values c); [|discriminate].
  simpl. intros [= <-] _. repeat split.
Qed.

Lemma TableColumn_consistent (R : Runtime) (name : string)
    (values : option (list JS.value)) (options : option Options) (c : Column) :
  TableColumn R name values options = Ok c -> numbers_consistent c.
Proof.
  rewrite TableColumn_stages. intros H.
  apply bind_Ok in H as (typeAndSubtype & _ & H).
  apply bind_Ok in H as (c1 & H1 & H).
  apply bind_Ok in H as (c2 & H2 & H).
  apply reviseForBadNumbers_consistent in H1; [|repeat split].
  assert (Hc2 : numbers_consistent c2).
  { match type of H2 with
    | (if ?b then _ else _) = _ => destruct b
    end.
    - apply initialiseTime_frame in H2 as (_ & Hsame & _).
      exact (numbers_consistent_same c1 c2 Hsame H1).
    - now injection H2 as <-. }
  apply updateForType_frame in H as (_ & Hsame & _).
  apply (numbers_consistent_same (scalarToEnum c2) c Hsame).
  unfold scalarToEnum.
  destruct (JS.isNaN (JS.VNumber (_minimumValue c2))
            && VarType.eqb (_type c2) VarType.SCALAR); exact Hc2.
Qed.

(** X1.  In every column a caller can hold, [minimumValue] and
    [maximumValue] are [Math.min] and [Math.max] of the values the column
    holds now, and the numerical values are the cells of type number.  As
    the source notes, a single cell that converts to NaN makes the minimum
    NaN: minimum and maximum are NaN together, exactly when such a cell
    exists. *)
Theorem minimum_and_maximum_of_values (R : Runtime) (c : Column) :
  reachable R c ->
  _minimumValue c = JS.Math_min (JS.apply_args (_values c))
  /\ _maximumValue c = JS.Math_max (JS.apply_args (_values c))
  /\ _numericalValues c = option_map (filter JS.typeof_number) (_values c)
  /\ (is_nan (_minimumValue c) = true
      <-> exists v, In v (JS.apply_args (_values c)) /\ JS.isNaN v = true)
  /\ is_nan (_maximumValue c) = is_nan (_minimumValue c).
Proof.
  intros Hc.
  assert (H : numbers_consistent c).
  { induction Hc as [name values options c H | c type c' _ IH H
                    | c subtype c' _ IH H].
    - exact (TableColumn_consistent R name values options c H).
    - apply updateForType_frame in H as (_ & Hsame & _).
      exact (numbers_consistent_same _ c' Hsame IH).
    - now injection H as <-. }
  destruct H as (Hmin & Hmax & Hnum).
  split; [exact Hmin|]. split; [exact Hmax|]. split; [exact Hnum|].
  rewrite Hmin, Hmax, Math_min_is_nan, Math_max_is_nan.
  split; [apply existsb_exists | reflexivity].
Qed.

Lemma minimum_and_maximum_of_values_witness :
  exists c,
    _minimumValue c = JS.Math_min (JS.apply_args (_values c))
    /\ _type c = VarType.SCALAR.
Proof.
  destruct (TableColumn Sample.runtime "Revenue" (Some revenueNumbers) None)
    as [c|e] eqn:H; [|vm_compute in H; discriminate H].
  exists c. split.
  - apply (minimum_and_maximum_of_values Sample.runtime c).
    exact (reachable_new Sample.runtime "Revenue" (Some revenueNumbers) None
             c H).
  - vm_compute in H. injection H as <-. reflexivity.
Defined.

(** ** The type of a new column *)

Lemma initialiseTime_type (R : Runtime) (c c' : Column) :
  initialiseTime R c = Ok c' ->
  (_type c' = VarType.SCALAR /\ dates c' = Some [])
  \/ (_type c' = _type c /\ exists ds, dates c' = Some ds /\ ds <> []).
Proof.
  unfold initialiseTime. intros H.
  apply bind_Ok in H as (converted & _ & H).
  destruct (length (cd_jsDates converted) =? 0)%nat eqn:Hlen.
  - injection H as <-. left. split; [reflexivity|]. simpl.
    apply Nat.eqb_eq in Hlen. now destruct (cd_jsDates converted).
  - apply bind_Ok in H as (finishes & _ & H).
    apply bind_Ok in H as (availabilities & _ & H).
    apply bind_Ok in H as (clock & _ & H).
    injection H as <-. right. split; [reflexivity|].
    exists (cd_jsDates converted). split; [reflexivity|].
    intros E. rewrite E in Hlen. discriminate.
Qed.

Lemma scalarToEnum_type (c : Column) :
  (_type (scalarToEnum c) = _type c
   /\ (_type c = VarType.SCALAR -> is_nan (_minimumValue c) = false))
  \/ (_type (scalarToEnum c) = VarType.ENUM /\ _type c = VarType.SCALAR
      /\ is_nan (_minimumValue c) = true).
Proof.
  unfold scalarToEnum, JS.isNaN. simpl JS.ToNumber.
  destruct (is_nan (_minimumValue c)) eqn:Hnan; simpl.
  - destruct (VarType.eqb_spec (_type c) VarType.SCALAR) as [E|E].
    + right. auto.
    + left. split; [reflexivity | intros E'; contradiction].
  - left. split; [reflexivity | reflexivity].
Qed.

Lemma scalarToEnum_same (c : Column) :
  same_identity c (scalarToEnum c) /\ same_numbers c (scalarToEnum c)
  /\ same_times c (scalarToEnum c) /\ same_views c (scalarToEnum c)
  /\ _subtype (scalarToEnum c) = _subtype c.
Proof.
  unfold scalarToEnum.
  destruct (JS.isNaN (JS.VNumber (_minimumValue c))
            && VarType.eqb (_type c) VarType.SCALAR);
    repeat split.
Qed.

(** X2.  The type of a new column is the type its options or its name
    give, with two exceptions: a TIME column none of whose values could be
    read as a date becomes SCALAR (its dates are the empty array), and a
    column that is SCALAR at that point becomes ENUM when its minimum is
    NaN.  So in a new SCALAR column every value converts to a number, and a
    new TIME column either has no values or has at least one date. *)
Theorem type_of_a_new_column (R : Runtime) (name : string)
    (values : option (list JS.value)) (options : option Options)
    (c : Column) :
  TableColumn R name values options = Ok c ->
  exists t s,
    resolvedType name options = Ok (t, s)
    /\ (_type c = t
        \/ (t = VarType.TIME /\ dates c = Some []
            /\ (_type c = VarType.SCALAR \/ _type c = VarType.ENUM))
        \/ (t = VarType.SCALAR /\ _type c = VarType.ENUM))
    /\ (_type c = VarType.SCALAR ->
        forall v, In v (JS.apply_args (_values c)) -> JS.isNaN v = false)
    /\ (_type c = VarType.ENUM ->
        t = VarType.ENUM \/ is_nan (_minimumValue c) = true)
    /\ (_type c = VarType.TIME ->
        t = VarType.TIME
        /\ (values = None \/ exists ds, dates c = Some ds /\ ds <> [])).
Proof.
  intros Hc. pose proof (TableColumn_consistent R _ _ _ _ Hc) as (Hmin & _).
  rewrite TableColumn_stages in Hc.
  apply bind_Ok in Hc as ([t s] & Hts & H). exists t, s. split; [exact Hts|].
  apply bind_Ok in H as (c1 & H1 & H).
  apply bind_Ok in H as (c2 & H2 & H).
  apply reviseForBadNumbers_frame in H1 as (_ & _ & _ & Ht1 & _).
  change (_type c1 = t) in Ht1.
  apply updateForType_frame in H
    as (_ & (_ & Hmin' & _) & (Hdates & _) & Htype & _).
  destruct (scalarToEnum_same c2) as (_ & (_ & Hmin2 & _) & (Hdates2 & _) & _).
  rewrite Hmin2 in Hmin'. rewrite Hdates2 in Hdates.
  assert (Hc2 :
    (_type c2 = t /\ (t = VarType.TIME ->
                      values = None
                      \/ exists ds, dates c2 = Some ds /\ ds <> []))
    \/ (t = VarType.TIME /\ dates c2 = Some []
        /\ _type c2 = VarType.SCALAR)).
  { destruct values as [values|]; simpl in H2.
    - destruct (VarType.eqb_spec (_type c1) VarType.TIME) as [E|E].
      + apply initialiseTime_type in H2 as [[Hs Hd]|[Hs Hd]].
        * right. split; [congruence | auto].
        * left. split; [congruence | auto].
      + injection H2 as <-. left. split; [exact Ht1 | congruence].
    - injection H2 as <-. left. split; [exact Ht1 | now left]. }
  assert (Hscalar : _type c = VarType.SCALAR ->
                    is_nan (_minimumValue c) = false).
  { rewrite Htype, Hmin'.
    destruct (scalarToEnum_type c2) as [[-> Hnan]|[-> _]];
      [exact Hnan | discriminate]. }
  split; [|split; [|split]].
  - rewrite Htype, Hdates.
    destruct (scalarToEnum_type c2) as [[-> _]|(-> & Hs & _)];
      destruct Hc2 as [[Ht _]|(Ht & Hd & Hs')].
    + now left.
    + right. left. auto.
    + right. right. split; [congruence | reflexivity].
    + right. left. auto.
  - intros Hs v Hv. apply Hscalar in Hs.
    rewrite Hmin, Math_min_is_nan in Hs.
    destruct (JS.isNaN v) eqn:Hnan; [|reflexivity].
    assert (existsb JS.isNaN (JS.apply_args (_values c)) = true)
      by (apply existsb_exists; eauto).
    congruence.
  - rewrite Htype, Hmin'.
    destruct (scalarToEnum_type c2) as [[-> _]|(_ & _ & Hnan)];
      [|now right].
    destruct Hc2 as [[Ht _]|(_ & _ & Hs)]; [left | ]; congruence.
  - rewrite Htype, Hdates.
    destruct (scalarToEnum_type c2) as [[-> _]|(-> & _)]; [|discriminate].
    destruct Hc2 as [[Ht Hd]|(_ & _ & Hs)]; [|congruence].
    intros E. split; [congruence | apply Hd; congruence].
Qed.

Lemma type_of_a_new_column_witness :
  exists c t s,
    resolvedType "Revenue" None = Ok (t, s)
    /\ (_type c = VarType.SCALAR ->
        forall v, In v (JS.apply_args (_values c)) -> JS.isNaN v = false).
Proof.
  destruct (TableColumn Sample.runtime "Revenue" (Some revenueNumbers) None)
    as [c|e] eqn:H; [|vm_compute in H; discriminate H].
  exists c.
  destruct (type_of_a_new_column Sample.runtime "Revenue"
              (Some revenueNumbers) None c H) as (t & s & Hts & _ & Hs & _).
  exists t, s. split; [exact Hts | exact Hs].
Defined.

(** ** Which cells the constructor replaces *)

Lemma indexOf_found_iff (l : list JS.value) (v : JS.value) :
  (0 <=? JS.indexOf l v) = true
  <-> exists u, In u l /\ JS.strict_equals u v = true.
Proof.
  split.
  - intros H. apply Z.leb_le in H.
    destruct (indexOf_from_found _ JS.strict_equals 0 l v (Z.le_refl 0))
      as (u & Hu & Heq); [unfold JS.indexOf in H; lia|].
    exists u. split; [exact (nth_error_In _ _ Hu) | exact Heq].
  - intros H. apply indexOf_present in H as (_ & _ & _ & H).
    now apply Z.leb_le.
Qed.

(** A number that is NaN equals no value, so [indexOf] never finds it. *)
Lemma strict_equals_NaN (u v : JS.value) :
  is_NaN_value v = true -> JS.strict_equals u v = false.
Proof.
  destruct v as [| |n|s]; try discriminate. simpl. intros Hn.
  destruct u as [| |m|t]; try reflexivity. simpl.
  unfold is_nan in Hn. rewrite FloatAxioms.eqb_spec in Hn |- *.
  destruct (Prim2SF n) as [sn|sn| |sn mn en].
  - discriminate.
  - destruct sn; discriminate.
  - unfold SFeqb. now destruct (Prim2SF m).
  - exfalso. unfold SFeqb, SFcompare in Hn.
    rewrite Z.compare_refl, Pos.compare_cont_refl in Hn.
    destruct sn; discriminate.
Qed.

(** X3.  The constructor keeps the number of rows and replaces by null only
    cells that are strictly equal to one of the values to replace, and only
    in a column that is SCALAR by its options or name, whose minimum is NaN
    and which holds at least one number; there it replaces every such
    cell.  A number cell that is NaN is never replaced. *)
Theorem cells_of_a_new_column (R : Runtime) (name : string)
    (values : list JS.value) (options : option Options) (c : Column) :
  TableColumn R name (Some values) options = Ok c ->
  exists cells type subtype,
    _values c = Some cells
    /\ length cells = length values
    /\ resolvedType name options = Ok (type, subtype)
    /\ forall i v,
         nth_error values i = Some v ->
         let replaced :=
           type = VarType.SCALAR
           /\ is_nan (JS.Math_min values) = true
           /\ (exists n, In (JS.VNumber n) values)
           /\ exists token,
                In token
                  (defaultValue
                     (opt_replaceWithNullValues
                        (defaultValue options EMPTY_OBJECT))
                     defaultReplaceWithNullValues)
                /\ JS.strict_equals token v = true in
         (replaced -> nth_error cells i = Some JS.VNull)
         /\ (~ replaced -> nth_error cells i = Some v)
         /\ (is_NaN_value v = true -> nth_error cells i = Some v).
Proof.
  intros Hc. rewrite TableColumn_stages in Hc.
  apply bind_Ok in Hc as ([t s] & Hts & H).
  apply bind_Ok in H as (c1 & H1 & H).
  apply bind_Ok in H as (c2 & H2 & H).
  apply updateForType_frame in H as (_ & (Hv & _) & _).
  destruct (scalarToEnum_same c2) as (_ & (Hv2 & _) & _).
  rewrite Hv2 in Hv.
  assert (Hv1 : _values c2 = _values c1).
  { simpl in H2. destruct (VarType.eqb (_type c1) VarType.TIME).
    - now apply initialiseTime_frame in H2 as (_ & (Hv1 & _) & _).
    - now injection H2 as <-. }
  rewrite Hv1 in Hv. clear c2 H2 Hv2 Hv1.
  set (tokens := defaultValue _ defaultReplaceWithNullValues) in *.
  unfold reviseForBadNumbers in H1. simpl in H1.
  unfold JS.isNaN in H1. simpl JS.ToNumber in H1.
  assert (Hnum : (0 <? length (numerical values))%nat = true
                 <-> exists n, In (JS.VNumber n) values).
  { rewrite Nat.ltb_lt. unfold numerical. split.
    - destruct (filter JS.typeof_number values) as [|v l] eqn:Hf;
        [simpl; lia|]. intros _.
      assert (Hin : In v (filter JS.typeof_number values))
        by (rewrite Hf; now left).
      apply filter_In in Hin as [Hin Hty].
      destruct v; try discriminate. eauto.
    - intros (n & Hn).
      assert (Hin : In (JS.VNumber n) (filter JS.typeof_number values))
        by (apply filter_In; auto).
      destruct (filter JS.typeof_number values); [destruct Hin | simpl; lia]. }
  destruct (is_nan (JS.Math_min values)) eqn:Hnan;
    [destruct (VarType.eqb_spec t VarType.SCALAR) as [Et|Et];
     [destruct (0 <? length (numerical values))%nat eqn:Hlen|]|];
    simpl in H1; injection H1 as <-; rewrite Hv; clear Hv.
  - eexists _, t, s. split; [reflexivity|].
    split; [apply length_map|]. split; [exact Hts|].
    intros i v Hi replaced. rewrite nth_error_map, Hi. simpl.
    destruct (0 <=? JS.indexOf tokens v) eqn:Hidx.
    + apply indexOf_found_iff in Hidx. split; [reflexivity|]. split.
      * intros Hno. exfalso. apply Hno. unfold replaced.
        repeat split; [exact Et | now apply Hnum | exact Hidx].
      * intros HNaN. destruct Hidx as (u & _ & Hu).
        rewrite (strict_equals_NaN u v HNaN) in Hu. discriminate.
    + split; [|split; reflexivity].
      intros (_ & _ & _ & Htok). apply indexOf_found_iff in Htok. congruence.
  - exists values, t, s. split; [reflexivity|]. split; [reflexivity|].
    split; [exact Hts|]. intros i v Hi replaced.
    split; [|split; intros _; exact Hi].
    intros (_ & _ & Hn & _). apply Hnum in Hn. discriminate.
  - exists values, t, s. split; [reflexivity|]. split; [reflexivity|].
    split; [exact Hts|]. intros i v Hi replaced.
    split; [|split; intros _; exact Hi].
    intros (Ht & _). contradiction.
  - exists values, t, s. split; [reflexivity|]. split; [reflexivity|].
    split; [exact Hts|]. intros i v Hi replaced.
    split; [|split; intros _; exact Hi].
    intros (_ & Hn & _). discriminate.
Qed.

Lemma cells_of_a_new_column_witness :
  exists c cells,
    TableColumn Sample.runtime "Revenue" (Some revenueNumbers) None = Ok c
    /\ _values c = Some cells
    /\ length cells = length revenueNumbers.
Proof.
  destruct (TableColumn Sample.runtime "Revenue" (Some revenueNumbers) None)
    as [c|e] eqn:H; [|vm_compute in H; discriminate H].
  exists c.
  destruct (cells_of_a_new_column Sample.runtime "Revenue" revenueNumbers
              None c H) as (cells & _ & _ & Hv & Hlen & _).
  exists cells. split; [reflexivity|]. split; [exact Hv | exact Hlen].
Defined.

(** ** The availability of each row *)

(** Where the availability of a row stops: the display duration after its
    date when the column has one, and its finish date otherwise, or
    [new JulianDate()] when that is undefined. *)
Definition rowStop (displayDuration : option JS.number)
    (finishes : list (option JulianDate.t)) (index : nat)
    (start : JulianDate.t) : JulianDate.t :=
  match displayDuration with
  | Some minutes => JulianDate.addMinutes start minutes
  | None =>
      match nth_error finishes index with
      | Some (Some finish) => finish
      | _ => JulianDate.default
      end
  end.

(** The collection [addInterval] makes of one interval. *)
Definition rowAvailability (start stop : JulianDate.t)
    : TimeIntervalCollection.t :=
  if TimeInterval.isEmpty (TimeInterval.Make start stop)
  then []
  else [TimeInterval.Make start stop].

Lemma calculateAvailability_value (c : Column)
    (starts : list JulianDate.t) (finishes : list (option JulianDate.t))
    (i : nat) (start : JulianDate.t) :
  julianDates c = Some starts ->
  finishJulianDates c = Some finishes ->
  nth_error starts i = Some start ->
  calculateAvailability c i
  = Ok (rowAvailability start
          (rowStop (displayDuration c) finishes i start)).
Proof.
  intros Hs Hf Hi. unfold calculateAvailability, rowStop, rowAvailability.
  rewrite Hs. destruct (displayDuration c) as [minutes|].
  - cbn [field bind]. rewrite Hi. reflexivity.
  - rewrite Hf. cbn [field bind]. rewrite Hi.
    destruct (nth_error finishes i) as [[finish|]|]; reflexivity.
Qed.

Lemma initialiseTime_rows (R : Runtime) (c c' : Column)
    (values : list JS.value) :
  initialiseTime R c = Ok c' ->
  _values c = Some values ->
  _type c = VarType.TIME ->
  _type c' = VarType.TIME ->
  exists starts finishes availabilities,
    julianDates c' = Some starts
    /\ finishJulianDates c' = Some finishes
    /\ _availabilities c' = Some availabilities
    /\ length starts = length values
    /\ length availabilities = length values
    /\ forall i start,
         nth_error starts i = Some start ->
         nth_error availabilities i
         = Some (rowAvailability start
                   (rowStop (displayDuration c) finishes i start)).
Proof.
  intros H Hv Hty Hty'. unfold initialiseTime in H.
  rewrite (convertToDates_parsedDates R c values Hv) in H.
  cbn [bind cd_jsDates cd_julianDates cd_subtype] in H.
  set (results := parsedDates R (_subtype c) values) in *.
  destruct (length (map fst results) =? 0)%nat eqn:Hlen.
  { injection H as <-. simpl in Hty'. discriminate. }
  apply Nat.eqb_neq in Hlen. rewrite length_map in Hlen.
  assert (Hne : results <> []) by (intros ->; apply Hlen; reflexivity).
  pose proof (parsedDates_length R (_subtype c) values Hne) as Hrl.
  fold results in Hrl.
  apply bind_Ok in H as (finishes & Hfin & H).
  apply bind_Ok in H as (availabilities & Hav & H).
  apply bind_Ok in H as (clock & _ & H). injection H as <-.
  exists (map snd results), finishes, availabilities.
  split; [reflexivity|]. split; [reflexivity|]. split; [reflexivity|].
  split; [now rewrite length_map|].
  unfold calculateAvailabilities in Hav.
  cbn [_values with_finishJulianDates with_subtype with_dates] in Hav.
  rewrite Hv in Hav. cbn [field bind] in Hav.
  apply mapM_Ok_nth in Hav as [Halen Hrows].
  rewrite length_seq in Halen. split; [exact Halen|].
  intros i start Hi.
  assert (Hilt : (i < length values)%nat).
  { rewrite <- Hrl, <- (length_map snd). apply nth_error_Some. congruence. }
  destruct (Hrows i i) as (a & Ha & Hcalc).
  { rewrite nth_error_seq.
    apply Nat.ltb_lt in Hilt. now rewrite Hilt. }
  rewrite (calculateAvailability_value
             (with_finishJulianDates
                (with_subtype (with_dates c (map fst results)
                                 (map snd results))
                   (fst (dateParsers R (_subtype c) values)))
                finishes)
             (map snd results) finishes i start eq_refl eq_refl Hi)
    in Hcalc.
  injection Hcalc as <-. exact Ha.
Qed.

(** X5.  In a column constructed with type TIME from some rows, every row
    has a date and one availability.  The availability of a row starts at
    its date and stops the display duration later when the column has one,
    and at the finish date of the row otherwise ([new JulianDate()] when
    the finish date is undefined); it holds that one interval, or nothing
    when the interval stops before it starts. *)
Theorem availability_of_each_row (R : Runtime) (name : string)
    (rows : list JS.value) (options : option Options) (c : Column) :
  TableColumn R name (Some rows) options = Ok c ->
  _type c = VarType.TIME ->
  exists starts finishes availabilities,
    julianDates c = Some starts
    /\ finishJulianDates c = Some finishes
    /\ _availabilities c = Some availabilities
    /\ length starts = length rows
    /\ length availabilities = length rows
    /\ forall i start,
         nth_error starts i = Some start ->
         exists stop,
           stop
           = match opt_displayDuration (defaultValue options EMPTY_OBJECT)
             with
             | Some minutes => JulianDate.addMinutes start minutes
             | None =>
                 match nth_error finishes i with
                 | Some (Some finish) => finish
                 | _ => JulianDate.default
                 end
             end
           /\ nth_error availabilities i
              = Some (if (JulianDate.compare stop start <? 0)%float
                      then []
                      else [TimeInterval.Make start stop]).
Proof.
  intros H Hty.
  destruct (TableColumn_time_stage R name (Some rows) options c H Hty)
    as (c0 & c2 & Hv & Hty0 & Hd0 & _ & Htime & Hty2 & -> & -> & ->).
  destruct (initialiseTime_rows R c0 c2 rows Htime Hv Hty0 Hty2)
    as (starts & finishes & availabilities & Hs & Hf & Ha & Hl1 & Hl2
        & Hrows).
  exists starts, finishes, availabilities.
  repeat (split; [assumption|]).
  intros i start Hi. eexists. split; [reflexivity|].
  rewrite (Hrows i start Hi), Hd0. reflexivity.
Qed.

Lemma availability_of_each_row_witness :
  exists c starts finishes availabilities,
    julianDates c = Some starts
    /\ finishJulianDates c = Some finishes
    /\ _availabilities c = Some availabilities
    /\ length availabilities = 2%nat.
Proof.
  destruct (TableColumn Sample.runtime "Start date (AEST)" (Some startDates)
              None) as [c|e] eqn:H; [|vm_compute in H; discriminate H].
  assert (Hty : _type c = VarType.TIME)
    by (vm_compute in H; injection H as <-; reflexivity).
  destruct (availability_of_each_row Sample.runtime "Start date (AEST)"
              startDates None c H Hty)
    as (starts & finishes & availabilities & Hs & Hf & Ha & _ & Hlen & _).
  exists c, starts, finishes, availabilities. repeat split; assumption.
Defined.
(** ** The clock of a new column *)

(** What [createClock] returns for a column that has no clock yet: a clock
    over the collection of its availabilities, when the collection does not
    start at [Iso8601.MINIMUM_VALUE]. *)
Lemma createClock_fields (c : Column)
    (availabilities : list TimeIntervalCollection.t)
    (clock : DataSourceClock.t) :
  _availabilities c = Some availabilities ->
  _clock c = None ->
  createClock c = Ok (Some clock) ->
  TimeIntervalCollection.start
    (fold_left TimeIntervalCollection.addCollection availabilities
       TimeIntervalCollection.empty)
  = Some (DataSourceClock.startTime clock)
  /\ TimeIntervalCollection.stop
       (fold_left TimeIntervalCollection.addCollection availabilities
          TimeIntervalCollection.empty)
     = Some (DataSourceClock.stopTime clock)
  /\ JulianDate.equals (DataSourceClock.startTime clock)
       Iso8601.MINIMUM_VALUE = false
  /\ DataSourceClock.currentTime clock = DataSourceClock.startTime clock
  /\ DataSourceClock.clockRange clock = ClockRange.LOOP_STOP
  /\ DataSourceClock.clockStep clock = ClockStep.SYSTEM_CLOCK_MULTIPLIER
  /\ DataSourceClock.multiplier clock
     = JS.Math_round
         (JulianDate.secondsDifference (DataSourceClock.stopTime clock)
            (DataSourceClock.startTime clock) / 120)%float.
Proof.
  intros Ha Hk. unfold createClock. rewrite Ha, Hk. cbn [field bind].
  destruct (TimeIntervalCollection.start
              (fold_left TimeIntervalCollection.addCollection availabilities
                 TimeIntervalCollection.empty)) as [startTime|];
    [|discriminate].
  cbn [field bind].
  destruct (JulianDate.equals startTime Iso8601.MINIMUM_VALUE) eqn:He;
    cbn [negb]; [discriminate|].
  destruct (TimeIntervalCollection.stop
              (fold_left TimeIntervalCollection.addCollection availabilities
                 TimeIntervalCollection.empty)) as [stopTime|];
    [|discriminate].
  cbn [field bind]. intros [= <-]. cbn. repeat split. exact He.
Qed.

(** X6.  The clock of a new column, when it has one, is the one
    [createClock] builds from the availabilities of the rows: it starts
    where their collection starts, which is not [Iso8601.MINIMUM_VALUE],
    and stops where it stops; its current time is its start, its range
    LOOP_STOP, its step SYSTEM_CLOCK_MULTIPLIER, and its multiplier
    [Math.round] of the seconds from its start to its stop, as doubles,
    divided by 120. *)
Theorem clock_of_a_new_column (R : Runtime) (name : string)
    (values : option (list JS.value)) (options : option Options)
    (c : Column) (clock : DataSourceClock.t) :
  TableColumn R name values options = Ok c ->
  _clock c = Some clock ->
  exists availabilities,
    _availabilities c = Some availabilities
    /\ TimeIntervalCollection.start
         (fold_left TimeIntervalCollection.addCollection availabilities
            TimeIntervalCollection.empty)
       = Some (DataSourceClock.startTime clock)
    /\ TimeIntervalCollection.stop
         (fold_left TimeIntervalCollection.addCollection availabilities
            TimeIntervalCollection.empty)
       = Some (DataSourceClock.stopTime clock)
    /\ JulianDate.equals (DataSourceClock.startTime clock)
         Iso8601.MINIMUM_VALUE = false
    /\ DataSourceClock.currentTime clock = DataSourceClock.startTime clock
    /\ DataSourceClock.clockRange clock = ClockRange.LOOP_STOP
    /\ DataSourceClock.clockStep clock = ClockStep.SYSTEM_CLOCK_MULTIPLIER
    /\ DataSourceClock.multiplier clock
       = JS.Math_round
           (JulianDate.secondsDifference (DataSourceClock.stopTime clock)
              (DataSourceClock.startTime clock) / 120)%float.
Proof.
  intros H Hclock. rewrite TableColumn_stages in H.
  apply bind_Ok in H as (typeAndSubtype & _ & H).
  apply bind_Ok in H as (c1 & H1 & H).
  apply bind_Ok in H as (c2 & H2 & H).
  apply updateForType_frame in H as (_ & _ & (_ & _ & _ & Ha & Hk) & _).
  destruct (scalarToEnum_same c2) as (_ & _ & (_ & _ & _ & Ha2 & Hk2) & _).
  rewrite Ha2 in Ha. rewrite Hk2 in Hk. rewrite Ha. rewrite Hk in Hclock.
  clear Ha Hk Ha2 Hk2 c.
  apply reviseForBadNumbers_frame in H1 as (_ & (_ & _ & _ & _ & Hk1) & _).
  change (_clock c1 = None) in Hk1.
  destruct (match values with Some _ => true | None => false end
            && VarType.eqb (_type c1) VarType.TIME).
  2:{ injection H2 as <-. congruence. }
  unfold initialiseTime in H2.
  apply bind_Ok in H2 as (converted & _ & H2).
  destruct (length (cd_jsDates converted) =? 0)%nat.
  { injection H2 as <-. cbn in Hclock. congruence. }
  apply bind_Ok in H2 as (finishes & _ & H2).
  apply bind_Ok in H2 as (availabilities & _ & H2).
  apply bind_Ok in H2 as (clock' & Hcreate & H2).
  injection H2 as <-. cbn in Hclock. subst clock'.
  exists availabilities. split; [reflexivity|].
  exact (createClock_fields
           (with_availabilities
              (with_finishJulianDates
                 (with_subtype
                    (with_dates c1 (cd_jsDates converted)
                       (cd_julianDates converted))
                    (cd_subtype converted))
                 finishes)
              availabilities)
           availabilities clock eq_refl Hk1 Hcreate).
Qed.

Lemma clock_of_a_new_column_witness :
  exists c clock,
    _clock c = Some clock
    /\ DataSourceClock.multiplier clock
       = JS.Math_round
           (JulianDate.secondsDifference (DataSourceClock.stopTime clock)
              (DataSourceClock.startTime clock) / 120)%float.
Proof.
  destruct (TableColumn Sample.runtime "Start date (AEST)" (Some startDates)
              None) as [c|e] eqn:H; [|vm_compute in H; discriminate H].
  destruct (_clock c) as [clock|] eqn:Hclock;
    [|vm_compute in H; injection H as <-; discriminate Hclock].
  exists c, clock. split; [exact Hclock|].
  destruct (clock_of_a_new_column Sample.runtime "Start date (AEST)"
              (Some startDates) None c clock H Hclock)
    as (availabilities & _ & _ & _ & _ & _ & _ & _ & Hm).
  exact Hm.
Defined.
(** ** Columns without rows *)

Lemma parsedDates_nil (R : Runtime) (subtype : option VarSubType.t) :
  parsedDates R subtype [] = [].
Proof. reflexivity. Qed.

Lemma scalarToEnum_number (c : Column) :
  is_nan (_minimumValue c) = false -> scalarToEnum c = c.
Proof.
  intros H. unfold scalarToEnum, JS.isNaN. simpl JS.ToNumber. now rewrite H.
Qed.

Lemma reviseForBadNumbers_number (c : Column) (tokens : list JS.value) :
  is_nan (_minimumValue c) = false -> reviseForBadNumbers c tokens = Ok c.
Proof.
  intros H. unfold reviseForBadNumbers, JS.isNaN. simpl JS.ToNumber.
  now rewrite H.
Qed.

Lemma updateForType_number (c c' : Column) :
  is_nan (_minimumValue c) = false ->
  updateForType c = Ok c' ->
  _uniqueValues c' = None
  /\ _indicesIntoUniqueValues c' = _indicesIntoUniqueValues c.
Proof.
  intros Hn H. apply updateForType_fields in H as (_ & _ & _ & _ & H).
  unfold usesIndicesIntoUniqueValues, JS.isNaN in H. simpl JS.ToNumber in H.
  rewrite Hn in H. exact H.
Qed.

(** X7.  A column constructed without values, or from an empty array, has
    the minimum Infinity and the maximum -Infinity, and no unique values.
    Without values it keeps the type its options or its name give, TIME
    included, and has no dates.  From an empty array a TIME column becomes
    SCALAR with an empty array of dates; every other type is kept.  Neither
    column has finish dates, availabilities or a clock. *)
Theorem column_without_rows (R : Runtime) (name : string)
    (values : option (list JS.value)) (options : option Options)
    (c : Column) :
  TableColumn R name values options = Ok c ->
  values = None \/ values = Some [] ->
  exists type subtype,
    resolvedType name options = Ok (type, subtype)
    /\ _values c = values
    /\ _minimumValue c = infinity
    /\ _maximumValue c = neg_infinity
    /\ _numericalValues c = values
    /\ _uniqueValues c = None
    /\ _indicesIntoUniqueValues c = None
    /\ _subtype c = subtype
    /\ _type c
       = match values with
         | Some _ =>
             if VarType.eqb type VarType.TIME then VarType.SCALAR else type
         | None => type
         end
    /\ dates c
       = match values with
         | Some _ => if VarType.eqb type VarType.TIME then Some [] else None
         | None => None
         end
    /\ julianDates c
       = match values with
         | Some _ => if VarType.eqb type VarType.TIME then Some [] else None
         | None => None
         end
    /\ finishJulianDates c = None
    /\ _availabilities c = None
    /\ _clock c = None.
Proof.
  intros H Hv. rewrite TableColumn_stages in H.
  apply bind_Ok in H as ([t s] & Hts & H). exists t, s.
  split; [exact Hts|].
  set (o := defaultValue options EMPTY_OBJECT) in *.
  assert (Hmin : is_nan (JS.Math_min (JS.apply_args values)) = false)
    by (destruct Hv as [-> | ->]; reflexivity).
  rewrite reviseForBadNumbers_number in H by exact Hmin. cbn [bind] in H.
  set (c0 := initialColumn name values o (t, s)) in *.
  apply bind_Ok in H as (c2 & H2 & H).
  assert (Hc2 :
    c2 = match values with
         | Some _ =>
             if VarType.eqb t VarType.TIME
             then with_type (with_dates c0 [] []) VarType.SCALAR
             else c0
         | None => c0
         end).
  { destruct Hv as [-> | ->]; cbn [andb] in H2.
    - now injection H2.
    - change (_type c0) with t in H2.
      destruct (VarType.eqb t VarType.TIME).
      + rewrite (initialiseTime_no_dates R c0 [] eq_refl
                   (parsedDates_nil R _)) in H2.
        now injection H2.
      + now injection H2. }
  assert (Hmin2 : is_nan (_minimumValue c2) = false).
  { rewrite Hc2. destruct values; [destruct (VarType.eqb t VarType.TIME)|];
      exact Hmin. }
  rewrite (scalarToEnum_number c2 Hmin2) in H.
  pose proof (updateForType_number c2 c Hmin2 H) as (Hu & Hi).
  apply updateForType_frame in H
    as (_ & (Hvs & Hmn & Hmx & Hnum) & (Hd & Hj & Hf & Ha & Hk) & Hty & Hsub).
  rewrite Hvs, Hmn, Hmx, Hnum, Hu, Hi, Hd, Hj, Hf, Ha, Hk, Hty, Hsub, Hc2.
  destruct Hv as [-> | ->]; [|destruct (VarType.eqb t VarType.TIME)];
    repeat split.
Qed.

Lemma column_without_rows_witness :
  exists c,
    _type c = VarType.SCALAR /\ dates c = Some []
    /\ _minimumValue c = infinity.
Proof.
  destruct (TableColumn Sample.runtime "date" (Some []) None)
    as [c|e] eqn:H; [|vm_compute in H; discriminate H].
  exists c.
  destruct (column_without_rows Sample.runtime "date" (Some []) None c H
              (or_intror eq_refl))
    as (type & subtype & Hts & _ & Hmin & _ & _ & _ & _ & _ & Hty & Hd & _).
  vm_compute in Hts. injection Hts as <- <-.
  split; [exact Hty|]. split; [exact Hd | exact Hmin].
Defined.

(** ** Which columns have time fields *)

Lemma initialiseTime_cases (R : Runtime) (c c' : Column) :
  initialiseTime R c = Ok c' ->
  (_type c' = VarType.SCALAR /\ dates c' = Some [] /\ julianDates c' = Some []
   /\ finishJulianDates c' = finishJulianDates c
   /\ _availabilities c' = _availabilities c /\ _clock c' = _clock c)
  \/ (_type c' = _type c
      /\ (exists ds, dates c' = Some ds /\ ds <> [])
      /\ (exists js, julianDates c' = Some js /\ js <> [])
      /\ finishJulianDates c' <> None /\ _availabilities c' <> None).
Proof.
  unfold initialiseTime. intros H.
  apply bind_Ok in H as (converted & Hconv & H).
  assert (Hsame : length (cd_julianDates converted)
                  = length (cd_jsDates converted)).
  { unfold convertToDates in Hconv.
    apply bind_Ok in Hconv as (theValues & _ & Hconv).
    destruct (dateParsers R (_subtype c) theValues).
    injection Hconv as <-. simpl. now rewrite !length_map. }
  destruct (length (cd_jsDates converted) =? 0)%nat eqn:Hlen.
  - injection H as <-. left. apply Nat.eqb_eq in Hlen. simpl.
    destruct (cd_jsDates converted); [|discriminate].
    destruct (cd_julianDates converted); [|discriminate].
    repeat split.
  - apply bind_Ok in H as (finishes & _ & H).
    apply bind_Ok in H as (availabilities & _ & H).
    apply bind_Ok in H as (clock & _ & H).
    injection H as <-. right. apply Nat.eqb_neq in Hlen. simpl.
    split; [reflexivity|].
    split; [eexists; split; [reflexivity|]; now destruct (cd_jsDates converted)|].
    split; [|split; discriminate].
    eexists; split; [reflexivity|].
    destruct (cd_julianDates converted); [|discriminate].
    simpl in Hsame. congruence.
Qed.

(** X8.  After construction the finish dates and the availabilities are
    defined exactly in the columns of type TIME that were given values, a
    clock only in those, and the dates exactly in the columns that were TIME
    by their options or name and were given values.  A column of type TIME
    that has values has at least one date. *)
Theorem time_fields_of_a_new_column (R : Runtime) (name : string)
    (values : option (list JS.value)) (options : option Options)
    (c : Column) :
  TableColumn R name values options = Ok c ->
  (finishJulianDates c <> None
   <-> _type c = VarType.TIME /\ values <> None)
  /\ (_availabilities c <> None
      <-> _type c = VarType.TIME /\ values <> None)
  /\ (_clock c <> None -> _type c = VarType.TIME /\ values <> None)
  /\ (dates c <> None <-> julianDates c <> None)
  /\ (dates c <> None
      <-> values <> None
          /\ exists subtype,
               resolvedType name options = Ok (VarType.TIME, subtype))
  /\ (_type c = VarType.TIME -> values <> None ->
      exists ds js,
        dates c = Some ds /\ julianDates c = Some js
        /\ ds <> [] /\ js <> []).
Proof.
  intros H. rewrite TableColumn_stages in H.
  apply bind_Ok in H as ([t s] & Hts & H). rewrite Hts.
  apply bind_Ok in H as (c1 & H1 & H).
  apply bind_Ok in H as (c2 & H2 & H).
  apply updateForType_frame in H
    as (_ & _ & (Hd & Hj & Hf & Ha & Hk) & Htype & _).
  destruct (scalarToEnum_same c2)
    as (_ & _ & (Hd2 & Hj2 & Hf2 & Ha2 & Hk2) & _).
  rewrite Hd2 in Hd. rewrite Hj2 in Hj. rewrite Hf2 in Hf.
  rewrite Ha2 in Ha. rewrite Hk2 in Hk.
  rewrite Hd, Hj, Hf, Ha, Hk, Htype. clear Hd Hj Hf Ha Hk Hd2 Hj2 Hf2 Ha2 Hk2.
  apply reviseForBadNumbers_frame in H1
    as (_ & (Hd1 & Hj1 & Hf1 & Ha1 & Hk1) & _ & Ht1 & _).
  simpl in Hd1, Hj1, Hf1, Ha1, Hk1, Ht1.
  assert (Hcases :
    (_type c2 = t /\ (t <> VarType.TIME \/ values = None)
     /\ dates c2 = None /\ julianDates c2 = None
     /\ finishJulianDates c2 = None /\ _availabilities c2 = None
     /\ _clock c2 = None)
    \/ (t = VarType.TIME /\ values <> None /\ _type c2 = VarType.SCALAR
        /\ dates c2 = Some [] /\ julianDates c2 = Some []
        /\ finishJulianDates c2 = None /\ _availabilities c2 = None
        /\ _clock c2 = None)
    \/ (t = VarType.TIME /\ values <> None /\ _type c2 = VarType.TIME
        /\ (exists ds, dates c2 = Some ds /\ ds <> [])
        /\ (exists js, julianDates c2 = Some js /\ js <> [])
        /\ finishJulianDates c2 <> None /\ _availabilities c2 <> None)).
  { destruct values as [rows|]; cbn [andb] in H2.
    - destruct (VarType.eqb_spec (_type c1) VarType.TIME) as [E|E].
      + assert (Hsome : Some rows <> None) by discriminate.
        apply initialiseTime_cases in H2
          as [(Hs & Hd & Hj & Hf & Ha & Hk)|(Hs & Hd & Hj & Hf & Ha)].
        * right. left. repeat split; congruence.
        * right. right. repeat split; try assumption; congruence.
      + injection H2 as <-. left. repeat split; try assumption.
        left. congruence.
    - injection H2 as <-. left. repeat split; try assumption. now right. }
  assert (Hfinal : _type (scalarToEnum c2) = VarType.TIME
                   <-> _type c2 = VarType.TIME).
  { destruct (scalarToEnum_type c2) as [[-> _]|(-> & -> & _)];
      [reflexivity | split; discriminate]. }
  rewrite Hfinal. clear Hfinal Htype c.
  destruct Hcases
    as [(Ht2 & Hno & -> & -> & -> & -> & ->)
       |[(-> & Hv & Ht2 & -> & -> & -> & -> & ->)
        |(-> & Hv & Ht2 & (ds & -> & Hds) & (js & -> & Hjs) & Hf & Ha)]].
  - assert (Hnot : ~ (_type c2 = VarType.TIME /\ values <> None)).
    { intros (E & Hv). destruct Hno as [Hno|Hno]; congruence. }
    repeat split; try congruence; try (intros; tauto);
      try (intros (Hv & s' & [= E _]); destruct Hno as [Hno|Hno]; congruence).
  - rewrite Ht2.
    repeat split; try congruence; try discriminate; eauto;
      try (intros (E & _); discriminate).
  - repeat split; try assumption; try discriminate; eauto.
    intros _ _. exists ds, js. auto.
Qed.

Lemma time_fields_of_a_new_column_witness :
  exists c, _type c = VarType.TIME /\ _availabilities c <> None.
Proof.
  destruct (TableColumn Sample.runtime "Start date (AEST)" (Some startDates)
              None) as [c|e] eqn:H; [|vm_compute in H; discriminate H].
  assert (Hty : _type c = VarType.TIME)
    by (vm_compute in H; injection H as <-; reflexivity).
  exists c. split; [exact Hty|].
  destruct (time_fields_of_a_new_column Sample.runtime "Start date (AEST)"
              (Some startDates) None c H) as (_ & Ha & _).
  apply Ha. split; [exact Hty | discriminate].
Defined.

(** ** What the setters keep *)

(** X9.  In every column a caller can hold, the displayed variable types
    are those of the options, and when the options give them the column is
    visible exactly when its type is one of them; when they give none,
    [isVisible] is never assigned. *)
Theorem visible_when_type_is_displayed (R : Runtime) (c : Column) :
  reachable R c ->
  _displayVariableTypes c = opt_displayVariableTypes (options c)
  /\ match opt_displayVariableTypes (options c) with
     | Some types =>
         exists visible,
           isVisible c = Some visible
           /\ (visible = true <-> In (_type c) types)
     | None => isVisible c = None
     end.
Proof.
  assert (Hupdate : forall c0 c',
            updateForType c0 = Ok c' ->
            options c' = options c0
            /\ _displayVariableTypes c'
               = opt_displayVariableTypes (options c0)
            /\ match opt_displayVariableTypes (options c0) with
               | Some types =>
                   isVisible c'
                   = Some (0 <=? JS.indexOf_from VarType.eqb 0 types
                                   (_type c'))
               | None => isVisible c' = isVisible c0
               end).
  { intros c0 c'. unfold updateForType.
    change (usesIndicesIntoUniqueValues (with_uniqueValues c0 None))
      with (usesIndicesIntoUniqueValues c0).
    destruct (usesIndicesIntoUniqueValues c0).
    - change (_values (with_uniqueValues c0 None)) with (_values c0).
      destruct (_values c0) as [values|]; [|discriminate].
      simpl. destruct (opt_displayVariableTypes (options c0));
        intros [= <-]; repeat split.
    - simpl. destruct (opt_displayVariableTypes (options c0));
        intros [= <-]; repeat split. }
  assert (Hgoal : forall c0 c',
            updateForType c0 = Ok c' ->
            (opt_displayVariableTypes (options c0) = None ->
             isVisible c0 = None) ->
            _displayVariableTypes c'
            = opt_displayVariableTypes (options c')
            /\ match opt_displayVariableTypes (options c') with
               | Some types =>
                   exists visible,
                     isVisible c' = Some visible
                     /\ (visible = true <-> In (_type c') types)
               | None => isVisible c' = None
               end).
  { intros c0 c' H Hnone. apply Hupdate in H as (-> & -> & Hvis).
    split; [reflexivity|].
    destruct (opt_displayVariableTypes (options c0)) as [types|].
    - eexists. split; [exact Hvis | apply VarType_present].
    - rewrite Hvis. now apply Hnone. }
  induction 1 as [name values options c H | c type c' _ IH H
                 | c subtype c' _ IH H].
  - rewrite TableColumn_stages in H.
    apply bind_Ok in H as (typeAndSubtype & _ & H).
    apply bind_Ok in H as (c1 & H1 & H).
    apply bind_Ok in H as (c2 & H2 & H).
    apply (Hgoal _ _ H). intros _.
    destruct (scalarToEnum_same c2) as (_ & _ & _ & (_ & _ & _ & ->) & _).
    apply reviseForBadNumbers_frame in H1 as (_ & _ & (_ & _ & _ & Hv1) & _).
    destruct (match values with Some _ => true | None => false end
              && VarType.eqb (_type c1) VarType.TIME).
    + apply initialiseTime_frame in H2 as (_ & _ & (_ & _ & _ & ->)).
      exact Hv1.
    + injection H2 as <-. exact Hv1.
  - apply (Hgoal _ _ H). intros Hnone. simpl in Hnone |- *.
    destruct IH as [_ IH]. now rewrite Hnone in IH.
  - injection H as <-. exact IH.
Qed.

Lemma visible_when_type_is_displayed_witness :
  exists c,
    _displayVariableTypes c = opt_displayVariableTypes (options c)
    /\ isVisible c = None.
Proof.
  destruct (TableColumn Sample.runtime "Revenue" (Some revenueNumbers) None)
    as [c|e] eqn:H; [|vm_compute in H; discriminate H].
  exists c.
  destruct (visible_when_type_is_displayed Sample.runtime c
              (reachable_new Sample.runtime "Revenue" (Some revenueNumbers)
                 None c H)) as [Hd Hv].
  split; [exact Hd|].
  assert (Ho : opt_displayVariableTypes (options c) = None)
    by (vm_compute in H; injection H as <-; reflexivity).
  rewrite Ho in Hv. exact Hv.
Defined.

(** What assignments to [type] and [subtype] make of a column. *)
Inductive assigned (c0 : Column) : Column -> Prop :=
  | assigned_nothing : assigned c0 c0
  | assigned_type c type c' :
      assigned c0 c -> set_type c type = Ok c' -> assigned c0 c'
  | assigned_subtype c subtype c' :
      assigned c0 c -> set_subtype c subtype = Ok c' -> assigned c0 c'.

(** X10.  No assignment to [type] or [subtype] changes the values, the
    minimum, the maximum, the numerical values, the dates, the finish dates,
    the availabilities or the clock of a column.  In particular a column
    that had no dates gets none when its type is set to TIME, and dates that
    were read are not read again when the subtype changes. *)
Theorem assignments_keep_the_data (c0 c : Column) :
  assigned c0 c ->
  _values c = _values c0
  /\ _minimumValue c = _minimumValue c0
  /\ _maximumValue c = _maximumValue c0
  /\ _numericalValues c = _numericalValues c0
  /\ dates c = dates c0
  /\ julianDates c = julianDates c0
  /\ finishJulianDates c = finishJulianDates c0
  /\ _availabilities c = _availabilities c0
  /\ _clock c = _clock c0
  /\ displayDuration c = displayDuration c0
  /\ options c = options c0.
Proof.
  induction 1 as [| c type c' _ IH H | c subtype c' _ IH H].
  - repeat split.
  - apply updateForType_frame in H
      as ((_ & Ho & _ & Hdd) & (Hv & Hmn & Hmx & Hn)
          & (Hd & Hj & Hf & Ha & Hk) & _).
    simpl in Ho, Hdd, Hv, Hmn, Hmx, Hn, Hd, Hj, Hf, Ha, Hk.
    rewrite Ho, Hdd, Hv, Hmn, Hmx, Hn, Hd, Hj, Hf, Ha, Hk. exact IH.
  - injection H as <-. exact IH.
Qed.

Lemma assignments_keep_the_data_witness :
  exists c0 c,
    TableColumn Sample.runtime "Revenue" (Some revenueNumbers) None = Ok c0
    /\ set_type c0 VarType.TIME = Ok c
    /\ dates c = dates c0
    /\ _availabilities c = _availabilities c0.
Proof.
  destruct (TableColumn Sample.runtime "Revenue" (Some revenueNumbers) None)
    as [c0|e] eqn:H; [|vm_compute in H; discriminate H].
  destruct (set_type c0 VarType.TIME) as [c|e] eqn:Hset.
  - exists c0, c. split; [reflexivity|]. split; [exact Hset|].
    destruct (assignments_keep_the_data c0 c
                (assigned_type c0 c0 VarType.TIME c (assigned_nothing c0)
                   Hset))
      as (_ & _ & _ & _ & Hd & _ & _ & Ha & _).
    split; [exact Hd | exact Ha].
  - vm_compute in H. injection H as <-. vm_compute in Hset. discriminate Hset.
Defined.

(** ** The texts handed to [Date] *)

Section DateTexts.

Local Open Scope string_scope.

Lemma chars_app (a b : string) :
  JS.chars (a ++ b) = (JS.chars a ++ JS.chars b)%list.
Proof.
  unfold JS.chars. induction a as [|c a IH]; simpl; [reflexivity|].
  now rewrite IH.
Qed.

Lemma append_empty (s : string) : (s ++ "")%string = s.
Proof. induction s as [|c s IH]; simpl; [reflexivity | now rewrite IH]. Qed.

Lemma append_associative (a b c : string) :
  ((a ++ b) ++ c)%string = (a ++ b ++ c)%string.
Proof. induction a as [|x a IH]; simpl; [reflexivity | now rewrite IH]. Qed.

Lemma string_of_chars (s : string) : string_of_list_ascii (JS.chars s) = s.
Proof. apply string_of_list_ascii_of_string. Qed.

(** No character of the text is matched by [p]. *)
Definition free (p : ascii -> bool) (s : string) : Prop :=
  forallb (fun c => negb (p c)) (JS.chars s) = true.

Lemma split_on_free (p : ascii -> bool) (l : list ascii) :
  forallb (fun c => negb (p c)) l = true -> split_on p l = [l].
Proof.
  induction l as [|c l IH]; simpl; [reflexivity|].
  intros H. apply andb_prop in H as [Hc Hl].
  apply negb_true_iff in Hc. now rewrite Hc, (IH Hl).
Qed.

Lemma split_on_separator (p : ascii -> bool) (a : list ascii) (x : ascii)
    (rest : list ascii) :
  forallb (fun c => negb (p c)) a = true -> p x = true ->
  split_on p (a ++ x :: rest) = a :: split_on p rest.
Proof.
  intros Ha Hx. induction a as [|c a IH]; simpl.
  - now rewrite Hx.
  - simpl in Ha. apply andb_prop in Ha as [Hc Ha].
    apply negb_true_iff in Hc. now rewrite Hc, (IH Ha).
Qed.

Lemma length_split_on (p : ascii -> bool) (l : list ascii) :
  length (split_on p l) = S (length (filter p l)).
Proof.
  induction l as [|c l IH]; simpl; [reflexivity|].
  destruct (p c); simpl; [now rewrite IH|].
  destruct (split_on p l); [discriminate | exact IH].
Qed.

Lemma split_free (p : ascii -> bool) (s : string) :
  free p s -> split p s = [s].
Proof.
  intros H. unfold split. rewrite (split_on_free p _ H). simpl.
  now rewrite string_of_chars.
Qed.

Lemma split_separator (p : ascii -> bool) (a : string) (x : ascii)
    (rest : string) :
  free p a -> p x = true ->
  split p (a ++ String x rest) = a :: split p rest.
Proof.
  intros Ha Hx. unfold split. rewrite chars_app.
  change (JS.chars (String x rest)) with (x :: JS.chars rest).
  rewrite (split_on_separator p _ x _ Ha Hx). simpl.
  now rewrite string_of_chars.
Qed.

Lemma length_split (p : ascii -> bool) (s : string) :
  length (split p s) = S (length (filter p (JS.chars s))).
Proof. unfold split. now rewrite length_map, length_split_on. Qed.

(** [/[/-]/] *)
Definition dateSeparator (c : ascii) : bool :=
  Ascii.eqb c "/" || Ascii.eqb c "-".

(** X11.  [swapDateFormat] exchanges the first two of three fields
    separated by slashes or hyphens and writes them with slashes, so that
    applying it twice gives the fields back in their order.  A text that
    does not have exactly two separators is returned as it is, and a value
    that is not a string makes the call throw a TypeError. *)
Theorem swapDateFormat_exchanges_two_fields :
  (forall a b c x y,
     free dateSeparator a -> free dateSeparator b -> free dateSeparator c ->
     dateSeparator x = true -> dateSeparator y = true ->
     swapDateFormat (JS.VString (a ++ String x (b ++ String y c)))
     = Ok (JS.VString (b ++ "/" ++ a ++ "/" ++ c))
     /\ (swapped <-
           swapDateFormat (JS.VString (a ++ String x (b ++ String y c))) ;;
         swapDateFormat swapped)
        = Ok (JS.VString (a ++ "/" ++ b ++ "/" ++ c)))
  /\ (forall s,
        length (filter dateSeparator (JS.chars s)) <> 2%nat ->
        swapDateFormat (JS.VString s) = Ok (JS.VString s))
  /\ (forall v,
        (forall s, v <> JS.VString s) ->
        swapDateFormat v = Throw TypeError).
Proof.
  assert (Hswap : forall a b c x y,
            free dateSeparator a -> free dateSeparator b ->
            free dateSeparator c ->
            dateSeparator x = true -> dateSeparator y = true ->
            swapDateFormat (JS.VString (a ++ String x (b ++ String y c)))
            = Ok (JS.VString (b ++ "/" ++ a ++ "/" ++ c))).
  { intros a b c x y Ha Hb Hc Hx Hy. unfold swapDateFormat.
    change (fun c0 : ascii => Ascii.eqb c0 "/" || Ascii.eqb c0 "-")
      with dateSeparator.
    rewrite (split_separator dateSeparator a x _ Ha Hx).
    rewrite (split_separator dateSeparator b y _ Hb Hy).
    rewrite (split_free dateSeparator c Hc). reflexivity. }
  split; [|split].
  - intros a b c x y Ha Hb Hc Hx Hy.
    rewrite (Hswap a b c x y Ha Hb Hc Hx Hy). split; [reflexivity|].
    cbn [bind].
    exact (Hswap b a c "/"%char "/"%char Hb Ha Hc eq_refl eq_refl).
  - intros s Hs. unfold swapDateFormat.
    change (fun c0 : ascii => Ascii.eqb c0 "/" || Ascii.eqb c0 "-")
      with dateSeparator.
    rewrite length_split.
    destruct (S (length (filter dateSeparator (JS.chars s))) =? 3)%nat eqn:E;
      [|reflexivity].
    apply Nat.eqb_eq in E. lia.
  - intros v Hv. destruct v as [| |n|s]; try reflexivity.
    now destruct (Hv s).
Qed.

(** The first index of a character in a text it occurs in. *)
Lemma indexOf_from_first (x : ascii) (a rest : list ascii) (i : Z) :
  forallb (fun c => negb (Ascii.eqb c x)) a = true ->
  JS.indexOf_from Ascii.eqb i (a ++ x :: rest) x = i + Z.of_nat (length a).
Proof.
  revert i. induction a as [|c a IH]; intros i Ha; simpl.
  - rewrite Ascii.eqb_refl. lia.
  - simpl in Ha. apply andb_prop in Ha as [Hc Ha].
    apply negb_true_iff in Hc. rewrite Hc, (IH _ Ha). lia.
Qed.

Lemma indexOf_from_none (x : ascii) (a : list ascii) (i : Z) :
  forallb (fun c => negb (Ascii.eqb c x)) a = true ->
  JS.indexOf_from Ascii.eqb i a x = -1.
Proof.
  revert i. induction a as [|c a IH]; intros i Ha; simpl; [reflexivity|].
  simpl in Ha. apply andb_prop in Ha as [Hc Ha].
  apply negb_true_iff in Hc. now rewrite Hc, (IH _ Ha).
Qed.

Definition isT (c : ascii) : bool := Ascii.eqb c "T".
Definition isHyphen (c : ascii) : bool := Ascii.eqb c "-".
Definition isColon (c : ascii) : bool := Ascii.eqb c ":".

(** What [replaceHyphensAndConvertTime] makes of the part before the
    time. *)
Definition slashed (date : string) : string :=
  let part := split isHyphen date in
  if (length part =? 3)%nat
  then nth 0 part "" ++ "/" ++ nth 1 part "" ++ "/" ++ nth 2 part ""
  else date.

Lemma slashed_three_fields (a b c : string) :
  free isHyphen a -> free isHyphen b -> free isHyphen c ->
  slashed (a ++ "-" ++ b ++ "-" ++ c) = a ++ "/" ++ b ++ "/" ++ c.
Proof.
  intros Ha Hb Hc. unfold slashed.
  change (a ++ "-" ++ b ++ "-" ++ c)
    with (a ++ String "-" (b ++ String "-" c)).
  rewrite (split_separator isHyphen a "-" _ Ha eq_refl).
  rewrite (split_separator isHyphen b "-" _ Hb eq_refl).
  rewrite (split_free isHyphen c Hc). reflexivity.
Qed.

Lemma replaceHyphens_without_time (R : Runtime) (date : string) :
  free isT date ->
  replaceHyphensAndConvertTime R (JS.VString date)
  = Ok (JS.VString (slashed date)).
Proof.
  intros Hd. unfold replaceHyphensAndConvertTime, String_indexOf.
  rewrite (indexOf_from_none "T" _ 0 Hd). cbn [Z.leb Z.compare].
  unfold slashed. change (fun c : ascii => Ascii.eqb c "-") with isHyphen.
  destruct (length (split isHyphen date) =? 3)%nat;
    now rewrite append_empty.
Qed.

Lemma substr_at_T (date time : string) :
  substr_from (date ++ String "T" time)
    (0 + Z.of_nat (length (JS.chars date)) + 1) = time
  /\ substr_to (date ++ String "T" time)
       (0 + Z.of_nat (length (JS.chars date))) = date.
Proof.
  unfold substr_from, substr_to. rewrite chars_app.
  change (JS.chars (String "T" time)) with ("T"%char :: JS.chars time).
  replace (Z.to_nat (0 + Z.of_nat (length (JS.chars date)) + 1))
    with (length (JS.chars date) + 1)%nat by lia.
  replace (Z.to_nat (0 + Z.of_nat (length (JS.chars date))))
    with (length (JS.chars date) + 0)%nat by lia.
  rewrite skipn_app, firstn_app_2.
  rewrite skipn_all2 by lia.
  replace (length (JS.chars date) + 1 - length (JS.chars date))%nat
    with 1%nat by lia.
  simpl. rewrite app_nil_r. split; apply string_of_chars.
Qed.

(** X12.  [replaceHyphensAndConvertTime] returns a number as it is and
    throws a TypeError for null and undefined.  In a text without [T] it
    replaces the hyphens of three fields by slashes.  In a text with a [T]
    the part before the first [T] is treated so, and of what follows only
    hours and minutes are kept, after a space, and the leading integer of
    the seconds; a time without a colon is dropped. *)
Theorem replaceHyphensAndConvertTime_cases (R : Runtime) :
  (forall n,
     replaceHyphensAndConvertTime R (JS.VNumber n) = Ok (JS.VNumber n))
  /\ replaceHyphensAndConvertTime R JS.VNull = Throw TypeError
  /\ replaceHyphensAndConvertTime R JS.VUndefined = Throw TypeError
  /\ (forall a b c,
        free isHyphen a -> free isHyphen b -> free isHyphen c ->
        free isT (a ++ "-" ++ b ++ "-" ++ c) ->
        replaceHyphensAndConvertTime R
          (JS.VString (a ++ "-" ++ b ++ "-" ++ c))
        = Ok (JS.VString (a ++ "/" ++ b ++ "/" ++ c)))
  /\ (forall date,
        free isT date ->
        length (filter isHyphen (JS.chars date)) <> 2%nat ->
        replaceHyphensAndConvertTime R (JS.VString date)
        = Ok (JS.VString date))
  /\ (forall date time,
        free isT date -> free isColon time ->
        replaceHyphensAndConvertTime R (JS.VString (date ++ "T" ++ time))
        = Ok (JS.VString (slashed date)))
  /\ (forall date hours minutes,
        free isT date -> free isColon hours -> free isColon minutes ->
        replaceHyphensAndConvertTime R
          (JS.VString (date ++ "T" ++ hours ++ ":" ++ minutes))
        = Ok (JS.VString (slashed date ++ " " ++ hours ++ ":" ++ minutes)))
  /\ (forall date hours minutes seconds,
        free isT date -> free isColon hours -> free isColon minutes ->
        free isColon seconds ->
        replaceHyphensAndConvertTime R
          (JS.VString
             (date ++ "T" ++ hours ++ ":" ++ minutes ++ ":" ++ seconds))
        = Ok (JS.VString
                (slashed date ++ " " ++ hours ++ ":" ++ minutes ++ ":"
                 ++ Number_toString R (JS.parseInt_string seconds)))).
Proof.
  assert (Htime : forall date time,
            free isT date ->
            replaceHyphensAndConvertTime R (JS.VString (date ++ "T" ++ time))
            = Ok (JS.VString
                    (slashed date
                     ++ (let times := split isColon time in
                         let text :=
                           if (1 <? length times)%nat
                           then " " ++ nth 0 times "" ++ ":" ++ nth 1 times ""
                           else "" in
                         if (2 <? length times)%nat
                         then text ++ ":"
                              ++ Number_toString R
                                   (JS.parseInt_string (nth 2 times ""))
                         else text)))).
  { intros date time Hd.
    unfold replaceHyphensAndConvertTime, String_indexOf.
    change (date ++ "T" ++ time) with (date ++ String "T" time).
    rewrite chars_app.
    change (JS.chars (String "T" time)) with ("T"%char :: JS.chars time).
    rewrite (indexOf_from_first "T" _ _ 0 Hd).
    replace (0 <=? 0 + Z.of_nat (length (JS.chars date)))%Z with true
      by (symmetry; apply Z.leb_le; lia).
    destruct (substr_at_T date time) as [-> ->].
    reflexivity. }
  split; [reflexivity|]. split; [reflexivity|]. split; [reflexivity|].
  split; [|split; [|split; [|split]]].
  - intros a b c Ha Hb Hc Ht.
    rewrite (replaceHyphens_without_time R _ Ht).
    now rewrite slashed_three_fields.
  - intros date Ht Hh. rewrite (replaceHyphens_without_time R _ Ht).
    unfold slashed. rewrite length_split.
    destruct (S (length (filter isHyphen (JS.chars date))) =? 3)%nat eqn:E;
      [|reflexivity].
    apply Nat.eqb_eq in E. lia.
  - intros date time Hd Ht. rewrite (Htime date time Hd).
    rewrite (split_free isColon time Ht). cbn.
    now rewrite append_empty.
  - intros date hours minutes Hd Hh Hm. rewrite (Htime date _ Hd).
    change (hours ++ ":" ++ minutes) with (hours ++ String ":" minutes).
    rewrite (split_separator isColon hours ":" _ Hh eq_refl).
    rewrite (split_free isColon minutes Hm). reflexivity.
  - intros date hours minutes seconds Hd Hh Hm Hs. rewrite (Htime date _ Hd).
    change (hours ++ ":" ++ minutes ++ ":" ++ seconds)
      with (hours ++ String ":" (minutes ++ String ":" seconds)).
    rewrite (split_separator isColon hours ":" _ Hh eq_refl).
    rewrite (split_separator isColon minutes ":" _ Hm eq_refl).
    rewrite (split_free isColon seconds Hs). cbn [length Nat.ltb Nat.leb nth].
    now rewrite !append_associative.
Qed.

End DateTexts.

(** ** The names the hints accept *)

(** The texts a regular expression matches, to compare [test] with. *)
Inductive star (P : list ascii -> Prop) : list ascii -> Prop :=
  | star_nil : star P []
  | star_more c l1 l2 :
      P (c :: l1) -> star P l2 -> star P ((c :: l1) ++ l2).

Fixpoint lang (r : re) (l : list ascii) : Prop :=
  match r with
  | Void => False
  | Eps => l = []
  | Chr p => exists c, l = [c] /\ p c = true
  | Seq r1 r2 => exists l1 l2, l = l1 ++ l2 /\ lang r1 l1 /\ lang r2 l2
  | Alt r1 r2 => lang r1 l \/ lang r2 l
  | Star r1 => star (lang r1) l
  end.

Lemma nullable_lang (r : re) : nullable r = true <-> lang r [].
Proof.
  induction r as [| |p|r1 IH1 r2 IH2|r1 IH1 r2 IH2|r1 IH1]; simpl.
  - split; [discriminate | intros []].
  - split; reflexivity.
  - split; [discriminate | intros (c & [=] & _)].
  - rewrite andb_true_iff, IH1, IH2. split.
    + intros [H1 H2]. exists [], []. auto.
    + intros (l1 & l2 & Hl & H1 & H2). symmetry in Hl.
      apply app_eq_nil in Hl as [-> ->]. auto.
  - now rewrite orb_true_iff, IH1, IH2.
  - split; [intros _; constructor | reflexivity].
Qed.

Lemma seq_cases (r1 r2 : re) :
  (seq r1 r2 = Void /\ (r1 = Void \/ r2 = Void))
  \/ (r1 = Eps /\ seq r1 r2 = r2)
  \/ (r2 = Eps /\ seq r1 r2 = r1)
  \/ seq r1 r2 = Seq r1 r2.
Proof. destruct r1, r2; simpl; auto 6. Qed.

Lemma alt_cases (r1 r2 : re) :
  (r1 = Void /\ alt r1 r2 = r2)
  \/ (r2 = Void /\ alt r1 r2 = r1)
  \/ alt r1 r2 = Alt r1 r2.
Proof. destruct r1, r2; simpl; auto. Qed.

Lemma lang_seq (r1 r2 : re) (l : list ascii) :
  lang (seq r1 r2) l <-> lang (Seq r1 r2) l.
Proof.
  destruct (seq_cases r1 r2)
    as [(-> & [-> | ->])|[(-> & ->)|[(-> & ->)| ->]]]; simpl.
  - split; [intros [] | intros (l1 & l2 & _ & [] & _)].
  - split; [intros [] | intros (l1 & l2 & _ & _ & [])].
  - split.
    + intros H. exists [], l. auto.
    + intros (l1 & l2 & -> & -> & H). exact H.
  - split.
    + intros H. exists l, []. rewrite app_nil_r. auto.
    + intros (l1 & l2 & -> & H & ->). now rewrite app_nil_r.
  - reflexivity.
Qed.

Lemma lang_alt (r1 r2 : re) (l : list ascii) :
  lang (alt r1 r2) l <-> lang r1 l \/ lang r2 l.
Proof.
  destruct (alt_cases r1 r2) as [(-> & ->)|[(-> & ->)| ->]]; simpl; tauto.
Qed.

Lemma deriv_lang (c : ascii) (r : re) (l : list ascii) :
  lang (deriv c r) l <-> lang r (c :: l).
Proof.
  revert l.
  induction r as [| |p|r1 IH1 r2 IH2|r1 IH1 r2 IH2|r1 IH1]; intros l;
    cbn [deriv].
  - reflexivity.
  - simpl. split; [intros [] | discriminate].
  - destruct (p c) eqn:Hp; simpl.
    + split.
      * intros ->. eauto.
      * now intros (c' & [= <- ->] & _).
    + split; [intros [] | intros (c' & [= <- ->] & H); congruence].
  - rewrite lang_alt, lang_seq. cbn [lang]. split.
    + intros [(l1 & l2 & -> & H1 & H2)|H].
      * exists (c :: l1), l2. split; [reflexivity|].
        split; [now apply IH1 | exact H2].
      * destruct (nullable r1) eqn:Hn; [|destruct H].
        exists [], (c :: l). split; [reflexivity|].
        split; [now apply nullable_lang | now apply IH2].
    + intros ([|c' l1] & l2 & Hl & H1 & H2).
      * right. simpl in Hl. subst l2.
        apply nullable_lang in H1. rewrite H1. now apply IH2.
      * left. injection Hl as <- ->. exists l1, l2.
        split; [reflexivity|]. split; [now apply IH1 | exact H2].
  - rewrite lang_alt. simpl. now rewrite IH1, IH2.
  - rewrite lang_seq. cbn [lang]. split.
    + intros (l1 & l2 & -> & H1 & H2).
      apply (star_more (lang r1) c l1 l2); [now apply IH1 | exact H2].
    + intros H. inversion H as [|c' l1 l2 H1 H2 Heq]. subst.
      exists l1, l2. split; [reflexivity|].
      split; [now apply IH1 | exact H2].
Qed.

(** [test] accepts exactly the texts of the expression. *)
Lemma matches_lang (r : re) (l : list ascii) :
  matches r l = true <-> lang r l.
Proof.
  revert r. induction l as [|c l IH]; intros r; simpl.
  - apply nullable_lang.
  - now rewrite IH, deriv_lang.
Qed.

(** A name in lower case. *)
Definition lower (l : list ascii) : list ascii := map JS.to_lower l.

(** The text is one of the words, whatever the case of its letters. *)
Definition spelt (ws : list string) (l : list ascii) : Prop :=
  exists w, In w ws /\ lower l = lower (JS.chars w).

(** Nothing, or a text without line terminators followed by an underscore
    or a space: [(.*[_ ])?]. *)
Definition separated (prefix : list ascii) : Prop :=
  prefix = []
  \/ exists q sep,
       prefix = q ++ [sep]
       /\ forallb (fun c => negb (JS.is_line_terminator c)) q = true
       /\ (sep = "_"%char \/ sep = " "%char).

Lemma lang_word (w : string) (l : list ascii) :
  lang (word w) l <-> lower l = lower (JS.chars w).
Proof.
  revert l. induction w as [|c w IH]; intros l; simpl.
  - split; [now intros -> | now destruct l].
  - split.
    + intros (l1 & l2 & -> & (x & -> & Hx) & H2).
      apply Ascii.eqb_eq in Hx. apply IH in H2.
      unfold lower, JS.chars in *. simpl. now rewrite Hx, H2.
    + destruct l as [|x l]; [discriminate|]. intros [= Hx Hl].
      exists [x], l. split; [reflexivity|]. split.
      * exists x. split; [reflexivity|]. now apply Ascii.eqb_eq.
      * now apply IH.
Qed.

Lemma lang_words (ws : list string) (l : list ascii) :
  lang (words ws) l <-> spelt ws l.
Proof.
  unfold spelt. induction ws as [|w ws IH].
  - simpl. split; [intros [] | intros (w & [] & _)].
  - destruct ws as [|w' ws].
    + cbn [words]. rewrite lang_word. split.
      * intros H. exists w. split; [now left | exact H].
      * now intros (w0 & [<-|[]] & H).
    + change (words (w :: w' :: ws)) with (Alt (word w) (words (w' :: ws))).
      cbn [lang]. rewrite lang_word, IH. split.
      * intros [H|(w0 & Hin & H)].
        -- exists w. split; [now left | exact H].
        -- exists w0. split; [now right | exact H].
      * intros (w0 & [<-|Hin] & H); [now left|].
        right. exists w0. auto.
Qed.

Lemma lang_any_text (l : list ascii) : lang any_text l.
Proof.
  induction l as [|c l IH]; [constructor|].
  apply (star_more _ c [] l); [|exact IH]. simpl. eauto.
Qed.

Lemma lang_star_dot (l : list ascii) :
  lang (Star dot) l
  <-> forallb (fun c => negb (JS.is_line_terminator c)) l = true.
Proof.
  split.
  - intros H. simpl in H.
    induction H as [|c l1 l2 (x & [= -> ->] & Hx) _ IH]; [reflexivity|].
    simpl. now rewrite Hx, IH.
  - induction l as [|c l IH]; [constructor|]. simpl. intros H.
    apply andb_prop in H as [Hc Hl].
    apply (star_more _ c [] l); [|now apply IH]. simpl. eauto.
Qed.

Lemma lang_prefix_and_separator (l : list ascii) :
  lang prefix_and_separator l <-> separated l.
Proof.
  unfold prefix_and_separator, opt, separated.
  change (lang (Alt Eps (Seq (Star dot) (one_of ["_"%char; " "%char]))) l)
    with (l = []
          \/ exists l1 l2,
               l = l1 ++ l2 /\ lang (Star dot) l1
               /\ exists c, l2 = [c]
                            /\ existsb (Ascii.eqb c) ["_"%char; " "%char]
                               = true).
  split.
  - intros [->|(l1 & l2 & -> & H1 & c & -> & Hc)]; [now left|].
    right. exists l1, c. split; [reflexivity|].
    split; [now apply lang_star_dot|].
    simpl in Hc. rewrite orb_false_r in Hc.
    apply orb_prop in Hc as [Hc|Hc]; apply Ascii.eqb_eq in Hc; auto.
  - intros [->|(q & sep & -> & Hq & Hsep)]; [now left|].
    right. exists q, [sep]. split; [reflexivity|].
    split; [now apply lang_star_dot|].
    exists sep. split; [reflexivity|]. now destruct Hsep as [-> | ->].
Qed.

(** X13.  The names each rule of the two hint sets accepts, in the order
    of the rules.  Letters match in either case.  The longitude, the
    latitude and the year rule accept their words and nothing else.  The
    altitude rule accepts a name that ends with one of its words, the time
    rule and the rule of the subtype a name that goes on after the word;
    before the word there is nothing, or a text without line breaks that
    ends with an underscore or a space.  The last rule accepts a name that
    starts with postcode, contains poa, or ends with _code. *)
Theorem names_the_hints_accept (name : string) :
  Forall2
    (fun h accepted =>
       hint_type h = fst accepted
       /\ (test (hint_re h) name = true <-> snd accepted (JS.chars name)))
    typeHintSet
    [ (VarType.LON, spelt ["lon"; "longitude"; "lng"]%string);
      (VarType.LAT, spelt ["lat"; "latitude"]%string);
      (VarType.ALT,
       fun l => exists prefix w,
           l = prefix ++ w /\ separated prefix
           /\ spelt ["depth"; "height"; "elevation"]%string w);
      (VarType.TIME,
       fun l => exists prefix w rest,
           l = prefix ++ w ++ rest /\ separated prefix
           /\ spelt ["time"; "date"]%string w);
      (VarType.TIME, spelt ["year"%string]);
      (VarType.ENUM,
       fun l =>
         (exists w rest, l = w ++ rest /\ spelt ["postcode"%string] w)
         \/ (exists before w rest,
               l = before ++ w ++ rest /\ spelt ["poa"%string] w)
         \/ (exists before w,
               l = before ++ w /\ spelt ["_code"%string] w)) ]
  /\ Forall2
       (fun h accepted =>
          hint_type h = fst accepted
          /\ (test (hint_re h) name = true <-> snd accepted (JS.chars name)))
       subtypeHintSet
       [ (VarSubType.YEAR,
          fun l => exists prefix w rest,
              l = prefix ++ w ++ rest /\ separated prefix
              /\ spelt ["year"%string] w) ].
Proof.
  assert (Hword : forall w l, lang (word w) l <-> spelt [w] l).
  { intros w l. exact (lang_words [w] l). }
  assert (Hafter : forall ws l,
            lang (Seq prefix_and_separator (Seq (words ws) any_text)) l
            <-> exists prefix w rest,
                  l = prefix ++ w ++ rest /\ separated prefix
                  /\ spelt ws w).
  { intros ws l. cbn [lang]. split.
    - intros (prefix & l2 & -> & Hp & w & rest & -> & Hw & _).
      exists prefix, w, rest. split; [reflexivity|].
      split; [now apply lang_prefix_and_separator | now apply lang_words].
    - intros (prefix & w & rest & -> & Hp & Hw).
      exists prefix, (w ++ rest). split; [reflexivity|].
      split; [now apply lang_prefix_and_separator|].
      exists w, rest. split; [reflexivity|].
      split; [now apply lang_words | apply lang_any_text]. }
  unfold typeHintSet, subtypeHintSet, test. split.
  - repeat (apply Forall2_cons;
              [split; [reflexivity | cbn [hint_re snd]; rewrite matches_lang]
              |]);
      try apply Forall2_nil.
    + apply lang_words.
    + apply lang_words.
    + cbn [lang]. split.
      * intros (prefix & w & -> & Hp & Hw). exists prefix, w.
        split; [reflexivity|].
        split; [now apply lang_prefix_and_separator | now apply lang_words].
      * intros (prefix & w & -> & Hp & Hw). exists prefix, w.
        split; [reflexivity|].
        split; [now apply lang_prefix_and_separator | now apply lang_words].
    + apply Hafter.
    + apply Hword.
    + cbn [lang]. split.
      * intros [(w & rest & -> & Hw & _)
               |[(before & l2 & -> & _ & w & rest & -> & Hw & _)
                |(before & l2 & -> & _ & middle & w & -> & _ & Hw)]].
        -- left. exists w, rest. split; [reflexivity | now apply Hword].
        -- right. left. exists before, w, rest.
           split; [reflexivity | now apply Hword].
        -- right. right. exists (before ++ middle), w.
           split; [now rewrite app_assoc | now apply Hword].
      * intros [(w & rest & -> & Hw)
               |[(before & w & rest & -> & Hw)|(before & w & -> & Hw)]].
        -- left. exists w, rest. split; [reflexivity|].
           split; [now apply Hword | apply lang_any_text].
        -- right. left. exists before, (w ++ rest). split; [reflexivity|].
           split; [apply lang_any_text|].
           exists w, rest. split; [reflexivity|].
           split; [now apply Hword | apply lang_any_text].
        -- right. right. exists before, w. split; [reflexivity|].
           split; [apply lang_any_text|].
           exists [], w. split; [reflexivity|].
           split; [constructor | now apply Hword].
  - apply Forall2_cons; [|apply Forall2_nil].
    split; [reflexivity|]. cbn [hint_re snd]. rewrite matches_lang.
    exact (Hafter ["year"%string] (JS.chars name)).
Qed.

(** ** Letter case *)

(** Every character class of the expression treats a letter and its lower
    case alike. *)
Fixpoint case_blind (r : re) : Prop :=
  match r with
  | Void | Eps => True
  | Chr p => forall c, p (JS.to_lower c) = p c
  | Seq r1 r2 | Alt r1 r2 => case_blind r1 /\ case_blind r2
  | Star r1 => case_blind r1
  end.

Lemma to_lower_twice (c : ascii) :
  JS.to_lower (JS.to_lower c) = JS.to_lower c.
Proof. destruct c as [[] [] [] [] [] [] [] []]; reflexivity. Qed.

Lemma is_line_terminator_lower (c : ascii) :
  JS.is_line_terminator (JS.to_lower c) = JS.is_line_terminator c.
Proof. destruct c as [[] [] [] [] [] [] [] []]; reflexivity. Qed.

Lemma separator_lower (c : ascii) :
  existsb (Ascii.eqb (JS.to_lower c)) ["_"%char; " "%char]
  = existsb (Ascii.eqb c) ["_"%char; " "%char].
Proof. destruct c as [[] [] [] [] [] [] [] []]; reflexivity. Qed.

Lemma case_blind_word (w : string) : case_blind (word w).
Proof.
  induction w as [|c w IH]; simpl; [exact I|].
  split; [|exact IH]. intros x. now rewrite to_lower_twice.
Qed.

Lemma case_blind_words (ws : list string) : case_blind (words ws).
Proof.
  induction ws as [|w ws IH]; [exact I|].
  destruct ws as [|w' ws]; [apply case_blind_word|].
  split; [apply case_blind_word | exact IH].
Qed.

Lemma case_blind_prefix : case_blind prefix_and_separator.
Proof.
  simpl. split; [exact I|]. split.
  - intros c. now rewrite is_line_terminator_lower.
  - intros c. apply separator_lower.
Qed.

Lemma case_blind_seq (r1 r2 : re) :
  case_blind r1 -> case_blind r2 -> case_blind (seq r1 r2).
Proof.
  intros H1 H2.
  destruct (seq_cases r1 r2) as [(-> & _)|[(_ & ->)|[(_ & ->)| ->]]];
    simpl; auto.
Qed.

Lemma case_blind_alt (r1 r2 : re) :
  case_blind r1 -> case_blind r2 -> case_blind (alt r1 r2).
Proof.
  intros H1 H2.
  destruct (alt_cases r1 r2) as [(_ & ->)|[(_ & ->)| ->]]; simpl; auto.
Qed.

Lemma case_blind_deriv (c : ascii) (r : re) :
  case_blind r -> case_blind (deriv c r).
Proof.
  induction r as [| |p|r1 IH1 r2 IH2|r1 IH1 r2 IH2|r1 IH1]; cbn [deriv].
  - trivial.
  - trivial.
  - intros _. now destruct (p c).
  - intros [H1 H2]. apply case_blind_alt.
    + apply case_blind_seq; auto.
    + destruct (nullable r1); [auto | exact I].
  - intros [H1 H2]. apply case_blind_alt; auto.
  - intros H. apply case_blind_seq; auto.
Qed.

Lemma deriv_lower (c : ascii) (r : re) :
  case_blind r -> deriv (JS.to_lower c) r = deriv c r.
Proof.
  induction r as [| |p|r1 IH1 r2 IH2|r1 IH1 r2 IH2|r1 IH1]; cbn [deriv];
    try reflexivity.
  - intros H. simpl in H. now rewrite H.
  - intros [H1 H2]. now rewrite IH1, IH2.
  - intros [H1 H2]. now rewrite IH1, IH2.
  - intros H. now rewrite IH1.
Qed.

Lemma matches_lower (r : re) (l l' : list ascii) :
  case_blind r -> lower l = lower l' -> matches r l = matches r l'.
Proof.
  revert r l'. induction l as [|c l IH]; intros r [|c' l'] Hr Hl;
    try discriminate; [reflexivity|].
  injection Hl as Hc Hl. simpl.
  rewrite <- (deriv_lower c r Hr), Hc, (deriv_lower c' r Hr).
  apply IH; [now apply case_blind_deriv | exact Hl].
Qed.

Lemma applyHintsToName_lower {T : Type} (eqb : T -> T -> bool)
    (hintSet : list (hint T)) (name name' : string)
    (unallowedTypes : list T) :
  Forall (fun h => case_blind (hint_re h)) hintSet ->
  lower (JS.chars name) = lower (JS.chars name') ->
  applyHintsToName eqb hintSet name unallowedTypes
  = applyHintsToName eqb hintSet name' unallowedTypes.
Proof.
  intros Hset Hname. induction Hset as [|h rest Hh _ IH]; [reflexivity|].
  simpl. unfold test. rewrite (matches_lower _ _ _ Hh Hname). now rewrite IH.
Qed.

Ltac case_blind_classes :=
  repeat first
    [ apply case_blind_words
    | apply case_blind_word
    | apply case_blind_prefix
    | exact I
    | split
    | intros c; reflexivity
    | intros c; now rewrite is_line_terminator_lower ].

Lemma typeHintSet_case_blind :
  Forall (fun h => case_blind (hint_re h)) typeHintSet.
Proof.
  unfold typeHintSet.
  repeat (apply Forall_cons; [cbn [hint_re]; case_blind_classes|]).
  apply Forall_nil.
Qed.

Lemma subtypeHintSet_case_blind :
  Forall (fun h => case_blind (hint_re h)) subtypeHintSet.
Proof.
  unfold subtypeHintSet.
  repeat (apply Forall_cons; [cbn [hint_re]; case_blind_classes|]).
  apply Forall_nil.
Qed.

(** X14.  Two names that differ only in the case of their letters get
    the same type and the same subtype, and fail alike when no type is
    left. *)
Theorem type_of_a_name_ignores_case (name name' : string)
    (unallowedTypes : list VarType.t) :
  lower (JS.chars name) = lower (JS.chars name') ->
  applyHintsToName VarType.eqb typeHintSet name unallowedTypes
  = applyHintsToName VarType.eqb typeHintSet name' unallowedTypes
  /\ applyHintsToName VarSubType.eqb subtypeHintSet name []
     = applyHintsToName VarSubType.eqb subtypeHintSet name' []
  /\ setTypeAndSubTypeFromName name unallowedTypes
     = setTypeAndSubTypeFromName name' unallowedTypes.
Proof.
  intros H.
  pose proof (applyHintsToName_lower VarType.eqb typeHintSet name name'
                unallowedTypes typeHintSet_case_blind H) as Ht.
  pose proof (applyHintsToName_lower VarSubType.eqb subtypeHintSet name name'
                [] subtypeHintSet_case_blind H) as Hs.
  split; [exact Ht|]. split; [exact Hs|].
  unfold setTypeAndSubTypeFromName. now rewrite Ht, Hs.
Qed.

Lemma type_of_a_name_ignores_case_witness :
  applyHintsToName VarType.eqb typeHintSet "Latitude" []
  = applyHintsToName VarType.eqb typeHintSet "LATITUDE" [].
Proof.
  apply (type_of_a_name_ignores_case "Latitude" "LATITUDE" []).
  reflexivity.
Defined.

(** ** Reading the dates of a column *)

(** X15.  [convertToDates] throws only for a column without values.  The
    dates it returns are all or nothing: either one parser, chosen for the
    whole column, read every row, and row by row the two arrays hold what
    it returned, or both arrays are empty, which they are as soon as the
    parser throws on one row. *)
Theorem convertToDates_all_or_nothing (R : Runtime) (c : Column) :
  match _values c with
  | None => convertToDates R c = Throw TypeError
  | Some rows =>
      exists converted,
        convertToDates R c = Ok converted
        /\ cd_subtype converted = fst (dateParsers R (_subtype c) rows)
        /\ length (cd_julianDates converted)
           = length (cd_jsDates converted)
        /\ ((cd_jsDates converted = [] /\ cd_julianDates converted = [])
            \/ (length (cd_jsDates converted) = length rows
                /\ forall i v,
                     nth_error rows i = Some v ->
                     exists jsDate julianDate,
                       snd (dateParsers R (_subtype c) rows) v
                         = Ok (jsDate, julianDate)
                       /\ nth_error (cd_jsDates converted) i = Some jsDate
                       /\ nth_error (cd_julianDates converted) i
                          = Some julianDate))
        /\ forall v e,
             In v rows ->
             snd (dateParsers R (_subtype c) rows) v = Throw e ->
             cd_jsDates converted = [] /\ cd_julianDates converted = []
  end.
Proof.
  destruct (_values c) as [rows|] eqn:Hv.
  - rewrite (convertToDates_parsedDates R c rows Hv).
    eexists. split; [reflexivity|]. cbn [cd_subtype cd_jsDates cd_julianDates].
    split; [reflexivity|]. split; [now rewrite !length_map|].
    unfold parsedDates.
    destruct (mapM (snd (dateParsers R (_subtype c) rows)) rows)
      as [results|e] eqn:Hm; cbn [catch].
    + split.
      * right. pose proof (mapM_Ok_nth _ _ _ Hm) as [Hlen Hrows].
        split; [now rewrite length_map|].
        intros i v Hi. destruct (Hrows i v Hi) as ([d j] & Hr & Hp).
        exists d, j. split; [exact Hp|].
        rewrite !nth_error_map, Hr. split; reflexivity.
      * intros v e Hin He. exfalso.
        apply In_nth_error in Hin as (i & Hi).
        apply mapM_Ok_nth in Hm as [_ Hrows].
        destruct (Hrows i v Hi) as (y & _ & Hy). congruence.
    + split; [left; split; reflexivity|]. intros; split; reflexivity.
  - unfold convertToDates. rewrite Hv. reflexivity.
Qed.

(** ** Sums and quotients of columns *)

Lemma zip_rows (arrays : list (list JS.value)) (first : list JS.value) :
  nth_error arrays 0 = Some first ->
  exists transposed,
    zip (map Some arrays) = Ok transposed
    /\ length transposed = length first
    /\ forall i, (i < length first)%nat ->
         nth_error transposed i
         = Some (map (fun array => JS.get array (Z.of_nat i)) arrays).
Proof.
  intros Hfirst. unfold zip.
  destruct arrays as [|a arrays]; [discriminate|].
  injection Hfirst as ->.
  change (nth 0 (map Some (first :: arrays)) None) with (Some first).
  cbn [field bind].
  assert (Hrow : forall i,
            mapM (fun array : option (list JS.value) =>
                    array <- field array ;;
                    Ok (JS.get array (Z.of_nat i)))
                 (map Some (first :: arrays))
            = Ok (map (fun array => JS.get array (Z.of_nat i))
                    (first :: arrays))).
  { intros i. induction (first :: arrays) as [|x l IH]; [reflexivity|].
    cbn [map mapM field bind]. simpl. simpl in IH. now rewrite IH. }
  match goal with
  | |- exists t, mapM ?f ?l = Ok t /\ _ =>
      destruct (mapM_Ok f l) as (transposed & Ht & Hlen)
  end.
  { intros i _. rewrite (Hrow i). eauto. }
  exists transposed. split; [exact Ht|].
  rewrite length_seq in Hlen. split; [exact Hlen|].
  intros i Hi. apply mapM_Ok_nth in Ht as [_ Hnth].
  destruct (Hnth i i) as (row & Hr & Hf).
  { rewrite nth_error_seq. apply Nat.ltb_lt in Hi. now rewrite Hi. }
  rewrite Hr. rewrite (Hrow i) in Hf. now injection Hf as <-.
Qed.

(** The sum of a row: the first value as it is, then each further value
    added as a number. *)
Definition rowSum (x : JS.value) (rest : list JS.value) : JS.value :=
  fold_left (fun x y => JS.VNumber (JS.ToNumber x + JS.ToNumber y)%float)
    rest x.

Lemma sumValues_of_columns (columns : list Column)
    (arrays : list (list JS.value)) (first : list JS.value)
    (others : list (list JS.value)) :
  map _values columns = map Some arrays ->
  arrays = first :: others ->
  exists sums,
    (transposed <- zip (map argument_values (map AColumn columns)) ;;
     mapM reduce_sum transposed) = Ok sums
    /\ length sums = length first
    /\ forall i x,
         nth_error first i = Some x ->
         nth_error sums i
         = Some (rowSum x
                   (map (fun array => JS.get array (Z.of_nat i)) others)).
Proof.
  intros Hvalues ->.
  replace (map argument_values (map AColumn columns))
    with (map _values columns) by (now rewrite map_map).
  rewrite Hvalues.
  destruct (zip_rows (first :: others) first eq_refl)
    as (transposed & -> & Hlen & Hrows).
  cbn [bind].
  destruct (mapM_Ok reduce_sum transposed) as (sums & Hs & Hslen).
  { intros row Hin. apply In_nth_error in Hin as (i & Hi).
    assert (Hlt : (i < length first)%nat).
    { rewrite <- Hlen. apply nth_error_Some. congruence. }
    rewrite (Hrows i Hlt) in Hi. injection Hi as <-. simpl. eauto. }
  exists sums. split; [exact Hs|]. split; [congruence|].
  intros i x Hi.
  assert (Hlt : (i < length first)%nat)
    by (apply nth_error_Some; congruence).
  apply mapM_Ok_nth in Hs as [_ Hnth].
  destruct (Hnth i _ (Hrows i Hlt)) as (sum & Hsum & Hf).
  rewrite Hsum. cbn [map reduce_sum] in Hf. injection Hf as <-.
  now rewrite (get_nth_error first i x Hi).
Qed.

(** X16.  [sumValues] of columns that all have values returns one sum
    for each row of the first column: the value of that column as it is,
    then the values of the other columns added to it as numbers, a row
    that a column lacks counting as undefined.  So the sum of a single
    column is the array of its values, strings included.  The columns may
    come as one array or, when there are two or more, as separate
    arguments; a single column that is passed as it is makes the call
    throw a TypeError, and so does a call without columns. *)
Theorem sumValues_rows (columns : list Column)
    (first : list JS.value) (others : list (list JS.value)) :
  map _values columns = map Some (first :: others) ->
  (exists sums,
     sumValues [AColumns columns] = Ok sums
     /\ length sums = length first
     /\ (forall i x,
           nth_error first i = Some x ->
           nth_error sums i
           = Some (rowSum x
                     (map (fun array => JS.get array (Z.of_nat i)) others)))
     /\ (others = [] -> sums = first)
     /\ (others <> [] ->
         sumValues (map AColumn columns) = Ok sums))
  /\ (forall column, sumValues [AColumn column] = Throw TypeError)
  /\ sumValues [] = Throw TypeError
  /\ sumValues [AColumns []] = Throw TypeError.
Proof.
  intros Hvalues.
  split; [|split; [|split]]; try reflexivity.
  destruct (sumValues_of_columns columns (first :: others) first others
              Hvalues eq_refl) as (sums & Hs & Hlen & Hrows).
  exists sums. unfold sumValues at 1. cbn [bind].
  split; [exact Hs|]. split; [exact Hlen|]. split; [exact Hrows|]. split.
  - intros ->. apply nth_ext with (d := JS.VUndefined) (d' := JS.VUndefined);
      [exact Hlen|].
    intros i Hi. rewrite Hlen in Hi.
    destruct (nth_error first i) as [x|] eqn:Hx;
      [|apply nth_error_None in Hx; lia].
    rewrite (nth_error_nth _ _ _ (Hrows i x Hx)).
    now rewrite (nth_error_nth _ _ _ Hx).
  - intros Hothers. unfold sumValues.
    destruct columns as [|c1 [|c2 columns]].
    + discriminate.
    + destruct others; [congruence | discriminate].
    + cbn [map bind] in Hs |- *. exact Hs.
Qed.

Lemma sumValues_rows_witness :
  exists sums,
    sumValues
      [AColumns
         [initialColumn "a" (Some [JS.VNumber 1%float; JS.VNumber 2%float])
            EMPTY_OBJECT (VarType.SCALAR, None);
          initialColumn "b" (Some [JS.VNumber 3%float; JS.VString "4"])
            EMPTY_OBJECT (VarType.SCALAR, None)]]
    = Ok sums
    /\ length sums = 2%nat.
Proof.
  destruct (sumValues_rows
              [initialColumn "a"
                 (Some [JS.VNumber 1%float; JS.VNumber 2%float])
                 EMPTY_OBJECT (VarType.SCALAR, None);
               initialColumn "b" (Some [JS.VNumber 3%float; JS.VString "4"])
                 EMPTY_OBJECT (VarType.SCALAR, None)]
              [JS.VNumber 1%float; JS.VNumber 2%float]
              [[JS.VNumber 3%float; JS.VString "4"]] eq_refl)
    as ((sums & Hs & Hlen & _) & _).
  exists sums. split; [exact Hs | exact Hlen].
Defined.

Lemma NaN_divided (y : JS.number) : is_nan (JS.NaN / y)%float = true.
Proof.
  unfold is_nan.
  rewrite FloatAxioms.eqb_spec, FloatAxioms.div_spec.
  change (Prim2SF JS.NaN) with S754_nan.
  now destruct (Prim2SF y).
Qed.

(** X17.  [divideValues] returns one value for each row of the
    denominator.  A row whose denominator is strictly equal to zero holds
    the replacement when one is given, and every other row the quotient of
    the two values as numbers: a denominator that is null or a string is
    never replaced, and a row the numerator lacks is NaN. *)
Theorem divideValues_rows (numerator denominator : Column)
    (numerators denominators : list JS.value) (nanReplace : JS.value) :
  _values numerator = Some numerators ->
  _values denominator = Some denominators ->
  exists quotients,
    divideValues numerator denominator nanReplace = Ok quotients
    /\ length quotients = length denominators
    /\ forall i y,
         nth_error denominators i = Some y ->
         nth_error quotients i
         = Some (if JS.strict_equals y (JS.VNumber 0%float)
                    && JS.defined nanReplace
                 then nanReplace
                 else JS.VNumber
                        (JS.ToNumber (JS.get numerators (Z.of_nat i))
                         / JS.ToNumber y)%float)
         /\ ((y = JS.VNumber 0%float \/ y = JS.VNumber (-0)%float) ->
             JS.defined nanReplace = true ->
             nth_error quotients i = Some nanReplace)
         /\ ((forall n, y <> JS.VNumber n) ->
             nth_error quotients i
             = Some (JS.VNumber
                       (JS.ToNumber (JS.get numerators (Z.of_nat i))
                        / JS.ToNumber y)%float))
         /\ ((length numerators <= i)%nat ->
             JS.strict_equals y (JS.VNumber 0%float) && JS.defined nanReplace
               = false ->
             exists q,
               nth_error quotients i = Some (JS.VNumber q)
               /\ is_nan q = true).
Proof.
  intros Ha Hb. unfold divideValues. rewrite Hb. cbn [field bind].
  rewrite Ha. cbn [field bind].
  match goal with
  | |- exists q, mapM ?f ?l = _ /\ _ =>
      destruct (mapM_Ok f l) as (quotients & Hq & Hlen)
  end.
  { intros [d index] _.
    destruct (JS.strict_equals d (JS.VNumber 0%float)
              && JS.defined nanReplace); eauto. }
  exists quotients. split; [exact Hq|]. split.
  { rewrite Hlen, length_combine, length_seq. apply Nat.min_id. }
  intros i y Hy. apply mapM_Ok_nth in Hq as [_ Hnth].
  destruct (Hnth i (y, i) (nth_error_combine_seq denominators 0 i y Hy))
    as (q & Hqi & Hf).
  rewrite Hqi.
  assert (Hrow : q = if JS.strict_equals y (JS.VNumber 0%float)
                        && JS.defined nanReplace
                     then nanReplace
                     else JS.VNumber
                            (JS.ToNumber (JS.get numerators (Z.of_nat i))
                             / JS.ToNumber y)%float).
  { destruct (JS.strict_equals y (JS.VNumber 0%float)
              && JS.defined nanReplace); now injection Hf. }
  clear Hf. subst q. split; [reflexivity|]. split; [|split].
  - intros [-> | ->] ->; reflexivity.
  - intros Hn. destruct y as [| |n|s]; try reflexivity.
    now destruct (Hn n).
  - intros Hi ->. eexists. split; [reflexivity|].
    unfold JS.get.
    replace (Z.of_nat i <? 0) with false by (symmetry; apply Z.ltb_ge; lia).
    rewrite Nat2Z.id, nth_overflow by exact Hi.
    apply NaN_divided.
Qed.

Lemma divideValues_rows_witness :
  exists quotients,
    divideValues
      (initialColumn "a" (Some [JS.VNumber 1%float; JS.VNumber 2%float])
         EMPTY_OBJECT (VarType.SCALAR, None))
      (initialColumn "b" (Some [JS.VNumber 0%float; JS.VNull])
         EMPTY_OBJECT (VarType.SCALAR, None))
      (JS.VNumber 7%float)
    = Ok quotients
    /\ length quotients = 2%nat.
Proof.
  destruct (divideValues_rows
              (initialColumn "a"
                 (Some [JS.VNumber 1%float; JS.VNumber 2%float])
                 EMPTY_OBJECT (VarType.SCALAR, None))
              (initialColumn "b" (Some [JS.VNumber 0%float; JS.VNull])
                 EMPTY_OBJECT (VarType.SCALAR, None))
              [JS.VNumber 1%float; JS.VNumber 2%float]
              [JS.VNumber 0%float; JS.VNull] (JS.VNumber 7%float)
              eq_refl eq_refl)
    as (quotients & Hq & Hlen & _).
  exists quotients. split; [exact Hq | exact Hlen].
Defined.

(** ** Assigning the same type again *)

Ltac run_updateForType :=
  cbv [updateForType usesIndicesIntoUniqueValues with_type
       with_uniqueValues with_indicesIntoUniqueValues
       with_displayVariableTypes with_isVisible bind field
       name options _unallowedTypes _type _subtype _values
       _minimumValue _maximumValue _numericalValues _uniqueValues
       _indicesIntoUniqueValues _displayVariableTypes isVisible
       displayDuration dates julianDates finishJulianDates
       _availabilities _clock].

(** X18.  Assigning to [type] the type a column was just given changes
    nothing: the unique values, the indices and the visibility computed by
    the first assignment are computed again to the same values. *)
Theorem set_type_twice (c c' : Column) (type : VarType.t) :
  set_type c type = Ok c' -> set_type c' type = Ok c'.
Proof.
  destruct c as [n o u t s v mn mx nv uv iv dv vis dd d j f a k].
  unfold set_type. run_updateForType.
  destruct (JS.isNaN (JS.VNumber mn) && VarType.eqb type VarType.ENUM)
    eqn:Huses.
  - destruct v as [values|]; [|discriminate].
    destruct (opt_displayVariableTypes o) as [types|] eqn:Ho;
      intros [= <-]; run_updateForType; rewrite Huses, Ho; reflexivity.
  - destruct (opt_displayVariableTypes o) as [types|] eqn:Ho;
      intros [= <-]; run_updateForType; rewrite Huses, Ho; reflexivity.
Qed.

Lemma set_type_twice_witness :
  exists c',
    set_type
      (initialColumn "a" (Some [JS.VString "x"; JS.VString "y"])
         EMPTY_OBJECT (VarType.SCALAR, None))
      VarType.ENUM = Ok c'
    /\ set_type c' VarType.ENUM = Ok c'.
Proof.
  destruct (set_type
              (initialColumn "a" (Some [JS.VString "x"; JS.VString "y"])
                 EMPTY_OBJECT (VarType.SCALAR, None))
              VarType.ENUM) as [c'|e] eqn:H;
    [|vm_compute in H; discriminate H].
  exists c'. split; [reflexivity|].
  exact (set_type_twice _ c' VarType.ENUM H).
Defined.

